(** * devflow-chronicle: commit-stream analytics, verified against the source

    A shallow embedding of the analytics core of the repository
    ([src/git_parser.py], [src/quality_scorer.py], [src/cache_manager.py],
    [src/config.py], and the cached call of [src/claude_analyzer.py])
    together with the properties the specification states about it and
    further properties of the same functions.

    Conventions of the embedding:
    - a Python [datetime] is the number of microseconds of the naive
      wall-clock value since 1970-01-01T00:00:00, a [timedelta] a signed
      number of microseconds, both in [Z];
    - a Python [float] is an IEEE binary64 value ([PrimFloat.float]), so
      that sums such as [0.5 + 0.15 + 0.20] round exactly as they do in the
      interpreter;
    - a Python exception is an explicit error result ([Raise e], [None],
      or a constructor of an outcome type);
    - commit dictionaries are records carrying the keys that
      [GitParser.get_recent_commits] always sets;
    - text is a string of code points below 256, and the predicates on
      characters ([isspace], [isupper], [lower]) are those of [str] on
      these code points. *)

From Stdlib Require Import ZArith Floats Ascii String List Lia DecimalString.
From Stdlib Require DecimalPos.
From stdpp Require Import base option list gmap strings sorting.

Set Warnings "-inexact-float,-register-all,-clear-no-such-hyp".

Local Open Scope Z_scope.

(** ** Exceptions *)

(** The exceptions that the modelled code raises. *)
Inductive exn :=
| JSONDecodeError
| KeyError
| ValueError
| TypeError
| IndexError
| OverflowError
| OSError.

(** What a call yields: the value it returns or the exception it raises. *)
Inductive result (A : Type) :=
| Return (a : A)
| Raise (e : exn).
Arguments Return {A} a.
Arguments Raise {A} e.

(** ** Python built-ins used by the modules *)

Module Py.

(** [timedelta(days=d)] in microseconds, and the largest magnitude of
    [d] that [timedelta] accepts. *)
Definition timedelta_days (d : Z) : Z := d * 86400000000.
Definition timedelta_max_days : Z := 999999999.

(** [timedelta(hours=h)] in microseconds. The constructor normalises to
    days, seconds and microseconds and raises an [OverflowError], here
    [None], when the days, [h // 24], exceed [timedelta_max_days] in
    magnitude: the hours accepted are -23999999976 to 23999999999. *)
Definition timedelta_hours (h : Z) : option Z :=
  let days := h / 24 in
  if (- timedelta_max_days <=? days) && (days <=? timedelta_max_days)
  then Some (h * 3600000000)
  else None.

(** A [datetime]: naive, or aware of its offset from UTC; both in
    microseconds. *)
Inductive datetime :=
| Naive (t : Z)
| Aware (t : Z) (utcoffset : Z).

(** [a - b] for a naive [a]: a naive and an aware [datetime] cannot be
    subtracted. *)
Definition datetime_sub (a : Z) (b : datetime) : result Z :=
  match b with
  | Naive t => Return (a - t)
  | Aware _ _ => Raise TypeError
  end.

(** [datetime.min] and [datetime.max], in microseconds since 1970. *)
Definition datetime_min : Z := -62135596800000000.
Definition datetime_max : Z := 253402300799999999.

(** [x or default] on an [Optional[int]]: [None] and [0] are falsy. *)
Definition int_or (x : option Z) (default : Z) : Z :=
  match x with
  | Some v => if v =? 0 then default else v
  | None => default
  end.

(** [l[-1]]: the last element, [IndexError] on the empty list. *)
Definition index_last {A} (l : list A) : option A := last l.

(** [l[0]]. *)
Definition index_first {A} (l : list A) : option A := head l.

(** *** Text *)

(** [len(s)]. *)
Definition len (s : string) : Z := Z.of_nat (String.length s).

(** [ch.isspace()]: tab to carriage return, the four separators 0x1c
    to 0x1f, the space, the next-line control U+0085 and the no-break
    space U+00A0. *)
Definition isspace (a : ascii) : bool :=
  let n := nat_of_ascii a in
  ((9 <=? n) && (n <=? 13) || (28 <=? n) && (n <=? 32)
   || (n =? 133) || (n =? 160))%nat.

(** [s.split()]: the maximal runs of characters that are not white
    space. [word] is the run being read, if any. *)
Fixpoint split_from (word : option string) (s : string) : list string :=
  match s with
  | EmptyString => match word with Some w => [w] | None => [] end
  | String a s' =>
      if isspace a
      then match word with
           | Some w => w :: split_from None s'
           | None => split_from None s'
           end
      else split_from (Some (default EmptyString word +:+ String a EmptyString)) s'
  end.

Definition split (s : string) : list string := split_from None s.

(** [ch.isupper()]: the letters A to Z, and the capital letters U+00C0
    to U+00DE, of which U+00D7, the multiplication sign, is not one. *)
Definition is_upper_letter (a : ascii) : bool :=
  let n := nat_of_ascii a in
  ((65 <=? n) && (n <=? 90)
   || (192 <=? n) && (n <=? 222) && negb (n =? 215))%nat.

(** [s.lower()]: each capital letter has its small letter 32 code
    points further. *)
Definition lower_char (a : ascii) : ascii :=
  if is_upper_letter a then ascii_of_nat (nat_of_ascii a + 32) else a.

Fixpoint lower (s : string) : string :=
  match s with
  | EmptyString => EmptyString
  | String a s' => String (lower_char a) (lower s')
  end.

(** [s.startswith(p)]. *)
Fixpoint startswith (p s : string) : bool :=
  match p, s with
  | EmptyString, _ => true
  | String a p', String b s' => Ascii.eqb a b && startswith p' s'
  | String _ _, EmptyString => false
  end.

(** [p in s] for strings. *)
Fixpoint contains (p s : string) : bool :=
  startswith p s ||
  match s with
  | EmptyString => false
  | String _ s' => contains p s'
  end.

(** [s.endswith(ch)] for a one-character suffix. *)
Fixpoint endswith_char (ch : ascii) (s : string) : bool :=
  match s with
  | EmptyString => false
  | String a EmptyString => Ascii.eqb a ch
  | String _ s' => endswith_char ch s'
  end.

(** [w in words] for a list of strings. *)
Definition in_list (w : string) (words : list string) : bool :=
  existsb (String.eqb w) words.

(** [s and s[0].isupper()]. *)
Definition first_isupper (s : string) : bool :=
  match s with
  | EmptyString => false
  | String a _ => is_upper_letter a
  end.

(** *** Floats *)

(** [min(a, b)] and [max(a, b)]: the first argument is kept unless the
    second is strictly smaller (greater). *)
Definition min (a b : float) : float := if (b <? a)%float then b else a.
Definition max (a b : float) : float := if (a <? b)%float then b else a.

(** The integer nearest to [num / den] for [den > 0], halves to even. *)
Definition div_half_even (num den : Z) : Z :=
  let q := num / den in
  match 2 * (num mod den) ?= den with
  | Lt => q
  | Gt => q + 1
  | Eq => if Z.even q then q else q + 1
  end.

(** [round(x, 2)]: the exact binary value of [x] is rounded to two
    decimals, halves to even, and the decimal [n/100] is read back as the
    nearest float (a correctly rounded division, [n] and [100] being
    exact). Written for the magnitudes below [2^53 / 100] that scores
    have; zeros, infinities and NaN are returned as they are. *)
Definition round2 (x : float) : float :=
  match Prim2SF x with
  | S754_finite sign m e =>
      let n := if 0 <=? e then 100 * Z.pos m * 2 ^ e
               else div_half_even (100 * Z.pos m) (2 ^ (- e)) in
      let y := (PrimFloat.of_uint63 (Uint63.of_Z n) / 100)%float in
      if sign then (- y)%float else y
  | _ => x
  end.

(** [s.split(sep)] for a one-character separator: the pieces between the
    separators, empty ones included. *)
Fixpoint split_on (sep : ascii) (s : string) : list string :=
  match s with
  | EmptyString => [EmptyString]
  | String a s' =>
      if Ascii.eqb a sep then EmptyString :: split_on sep s'
      else match split_on sep s' with
           | w :: ws => String a w :: ws
           | [] => [String a EmptyString]
           end
  end.

(** *** Formatting *)

(** [str(n)], also what an f-string writes for an int. *)
Definition str_int (n : Z) : string := NilZero.string_of_int (Z.to_int n).

(** [sep.join(parts)]. *)
Definition join (sep : string) (parts : list string) : string :=
  match parts with
  | [] => EmptyString
  | p :: ps => foldl (λ acc q, acc +:+ sep +:+ q) p ps
  end.

End Py.

(** ** [config.py] *)

Module Config.

Record t := {
  ANTHROPIC_API_KEY : option string;
  SESSION_GAP_HOURS : Z;
  CACHE_ENABLED : bool;
  CACHE_MAX_AGE_HOURS : Z;
  CACHE_MAX_AGE_DAYS : Z;
  QUALITY_THRESHOLD_LOW : float;
  QUALITY_THRESHOLD_HIGH : float;
  SIZE_SMALL : Z;
  SIZE_MEDIUM : Z;
  SIZE_LARGE : Z
}.

(** The class attributes when the environment sets only the API key. *)
Definition defaults (key : option string) : t := {|
  ANTHROPIC_API_KEY := key;
  SESSION_GAP_HOURS := 3;
  CACHE_ENABLED := true;
  CACHE_MAX_AGE_HOURS := 24;
  CACHE_MAX_AGE_DAYS := 7;
  QUALITY_THRESHOLD_LOW := 0.6%float;
  QUALITY_THRESHOLD_HIGH := 0.8%float;
  SIZE_SMALL := 50;
  SIZE_MEDIUM := 200;
  SIZE_LARGE := 500
|}.

(** [Config.validate]: only the API key is inspected ([not key] is true
    for [None] and for the empty string). *)
Definition validate (cfg : t) : bool :=
  match ANTHROPIC_API_KEY cfg with
  | None => false
  | Some k => negb (String.eqb k "")
  end.

End Config.

(** ** Commit records *)

Record commit := {
  hash : string;
  message : string;
  timestamp : Z;
  files_changed : Z;
  insertions : Z;
  deletions : Z;
  files : list string
}.

(** ** [git_parser.py]: session segmentation *)

Module GitParser.

(** [sorted(commits, key=lambda x: x['timestamp'])]: the stable sort by
    timestamp, as a right fold of a stable insertion. *)
Fixpoint insert_by_timestamp (c : commit) (l : list commit) : list commit :=
  match l with
  | [] => [c]
  | d :: l' =>
      if timestamp c <=? timestamp d then c :: d :: l'
      else d :: insert_by_timestamp c l'
  end.

Definition sorted_by_timestamp (commits : list commit) : list commit :=
  foldr insert_by_timestamp [] commits.

(** The body of the [for i in range(1, len(sorted_commits))] loop, run
    over the commits [sorted_commits[1:]] that remain. *)
Fixpoint walk (gap_hours : Z) (sessions : list (list commit))
    (current_session : list commit) (rest : list commit)
    : result (list (list commit)) :=
  match rest with
  | [] => Return (sessions ++ [current_session])
  | c :: rest' =>
      match Py.index_last current_session with
      | None => Raise IndexError
      | Some prev =>
          let time_gap := timestamp c - timestamp prev in
          match Py.timedelta_hours gap_hours with
          | None => Raise OverflowError
          | Some threshold =>
              if threshold <? time_gap
              then walk gap_hours (sessions ++ [current_session]) [c] rest'
              else walk gap_hours sessions (current_session ++ [c]) rest'
          end
      end
  end.

(** [group_into_sessions]. The threshold [timedelta(hours=gap_hours)] is
    built inside the loop, at each comparison. *)
Definition group_into_sessions (commits : list commit) (gap_hours : Z)
    : result (list (list commit)) :=
  match commits with
  | [] => Return []
  | _ =>
      let sorted_commits := sorted_by_timestamp commits in
      match Py.index_first sorted_commits with
      | None => Raise IndexError
      | Some first =>
          match walk gap_hours [] [first] (tail sorted_commits) with
          | Raise e => Raise e
          | Return sessions => Return (rev sessions)
          end
      end
  end.

(** *** Temporal patterns *)

(** [timestamp.hour]. *)
Definition hour (ts : Z) : Z := (ts / 3600000000) mod 24.

(** [timestamp.date()], as a day number. *)
Definition date (ts : Z) : Z := ts / 86400000000.

(** [timestamp.strftime('%A')]; day 0 (1970-01-01) was a Thursday. *)
Definition weekday_names : list string :=
  ["Monday"; "Tuesday"; "Wednesday"; "Thursday"; "Friday"; "Saturday";
   "Sunday"]%string.

Definition weekday (ts : Z) : string :=
  default ""%string (weekday_names !! Z.to_nat ((date ts + 3) mod 7)).

(** A [defaultdict(int)]: keys in insertion order, as the interpreter
    iterates them. [incr k d] is [d[k] += 1]. *)
Fixpoint incr {K} `{EqDecision K} (k : K) (d : list (K * Z)) : list (K * Z) :=
  match d with
  | [] => [(k, 0 + 1)]
  | (k', v) :: d' =>
      if decide (k = k') then (k', v + 1) :: d' else (k', v) :: incr k d'
  end.

(** The counting loop, for one of the dictionaries. *)
Definition count_by {K} `{EqDecision K} (key : commit → K)
    (commits : list commit) : list (K * Z) :=
  foldl (λ d c, incr (key c) d) [] commits.

(** [max(d.items(), key=lambda x: x[1])]: the running maximum is replaced
    only by a strictly greater item, so the first maximal item in
    iteration order wins. [None] is the [ValueError] on an empty dict. *)
Definition max_by_value {K} (items : list (K * Z)) : option (K * Z) :=
  match items with
  | [] => None
  | first :: others =>
      Some (foldl (λ best item, if snd best <? snd item then item else best)
                  first others)
  end.

(** [max(...)[0] if d else fallback]. *)
Definition peak {K} (d : list (K * Z)) (fallback : K) : K :=
  match d with
  | [] => fallback
  | _ => from_option fst fallback (max_by_value d)
  end.

(** [sum(v for h, v in hours.items() if p h)]. *)
Definition sum_where (p : Z → bool) (hours : list (Z * Z)) : Z :=
  foldr (λ '(h, v) acc, if p h then v + acc else acc) 0 hours.

(** The result dictionary, without [by_month] and [productivity_rate]. *)
Record temporal := {
  by_hour : list (Z * Z);
  by_day : list (string * Z);
  peak_hour : Z;
  peak_day : string;
  morning_commits : Z;
  afternoon_commits : Z;
  evening_commits : Z;
  night_commits : Z;
  active_days : nat;
  total_commits : nat
}.

(** [analyze_temporal_patterns]; [None] is the empty dictionary returned
    for an empty commit list. *)
Definition analyze_temporal_patterns (commits : list commit) : option temporal :=
  match commits with
  | [] => None
  | _ =>
      let hours := count_by (λ c, hour (timestamp c)) commits in
      let days := count_by (λ c, weekday (timestamp c)) commits in
      Some {|
        by_hour := hours;
        by_day := days;
        peak_hour := peak hours 0;
        peak_day := peak days "Unknown"%string;
        morning_commits := sum_where (λ h, (6 <=? h) && (h <? 12)) hours;
        afternoon_commits := sum_where (λ h, (12 <=? h) && (h <? 18)) hours;
        evening_commits := sum_where (λ h, (18 <=? h) && (h <? 24)) hours;
        night_commits := sum_where (λ h, h <? 6) hours;
        active_days :=
          size (list_to_set ((λ c, date (timestamp c)) <$> commits) : gset Z);
        total_commits := length commits
      |}
  end.

(** *** Session summaries *)

(** [_format_duration]. [int(td.total_seconds())] truncates towards zero;
    the quotient below is what it yields for durations under [2^53]
    microseconds, where the float division is exact enough. *)
Definition _format_duration (td : Z) : string :=
  let total_seconds := Z.quot td 1000000 in
  let hours := total_seconds / 3600 in
  let minutes := (total_seconds mod 3600) / 60 in
  let parts := [] in
  let parts :=
    if 0 <? hours
    then parts ++ [Py.str_int hours +:+ " hour"
                   +:+ (if negb (hours =? 1)%Z then "s" else "")%string]
    else parts in
  let parts :=
    if 0 <? minutes
    then parts ++ [Py.str_int minutes +:+ " minute"
                   +:+ (if negb (minutes =? 1)%Z then "s" else "")%string]
    else parts in
  match parts with
  | [] => "Less than a minute"%string
  | _ => Py.join " " parts
  end.

(** The summary dictionary, without [authors]; the set of files stands for
    the list made from it. *)
Record session_summary := {
  start_time : Z;
  end_time : Z;
  duration : Z;
  duration_formatted : string;
  commit_count : nat;
  total_files_changed : nat;
  total_insertions : Z;
  total_deletions : Z;
  session_commits : list commit;
  unique_files : gset string
}.

(** What [get_session_summary] gives: a summary, the empty dictionary, or
    an [IndexError]. *)
Inductive summary_result :=
| Summary (s : session_summary)
| NoSummary
| SummaryIndexError.

Definition get_session_summary (session : list commit) : summary_result :=
  match session with
  | [] => NoSummary
  | _ =>
      let sorted_session := sorted_by_timestamp session in
      match Py.index_last sorted_session, Py.index_first sorted_session with
      | Some latest, Some earliest =>
          let duration := timestamp latest - timestamp earliest in
          let all_files : gset string :=
            foldl (λ acc c, acc ∪ list_to_set (files c)) ∅ session in
          Summary {|
            start_time := timestamp earliest;
            end_time := timestamp latest;
            duration := duration;
            duration_formatted := _format_duration duration;
            commit_count := length session;
            total_files_changed := size all_files;
            total_insertions := foldl (λ acc c, acc + insertions c) 0 session;
            total_deletions := foldl (λ acc c, acc + deletions c) 0 session;
            session_commits := session;
            unique_files := all_files
          |}
      | _, _ => SummaryIndexError
      end
  end.

(** *** File change patterns *)

(** [sorted(items, key=lambda x: x[1], reverse=True)]: the stable sort by
    descending count; items of equal count keep their order. *)
Fixpoint insert_by_count_desc {K} (x : K * Z) (l : list (K * Z)) : list (K * Z) :=
  match l with
  | [] => [x]
  | y :: l' =>
      if snd y <=? snd x then x :: y :: l' else y :: insert_by_count_desc x l'
  end.

Definition sorted_by_count_desc {K} (items : list (K * Z)) : list (K * Z) :=
  foldr insert_by_count_desc [] items.

(** ['/'.join(file.split('/')[:-1])]: the path without its last component. *)
Definition directory_of (file : string) : string :=
  Py.join "/" (removelast (Py.split_on "/" file)).

(** The files of all commits, in the order the two nested loops visit
    them. *)
Definition visited_files (commits : list commit) : list string :=
  concat (files <$> commits).

Record file_patterns := {
  top_files : list (string * Z);
  top_directories : list (string * Z);
  total_unique_files : nat;
  total_directories : nat
}.

Definition get_file_change_patterns (commits : list commit) : file_patterns :=
  let file_changes :=
    foldl (λ d file, incr file d) [] (visited_files commits) in
  let directory_changes :=
    foldl (λ d file,
             if Py.contains "/" file then incr (directory_of file) d else d)
          [] (visited_files commits) in
  {|
    top_files := take 10 (sorted_by_count_desc file_changes);
    top_directories := take 10 (sorted_by_count_desc directory_changes);
    total_unique_files := length file_changes;
    total_directories := length directory_changes
  |}.

(** *** Author statistics *)

(** A commit dictionary with its ['author'] entry. *)
Record authored := {
  written : commit;
  author : string
}.

(** [d[k].append(v)] on a [defaultdict(list)]: a new key is added after
    the existing ones, with the empty list as its default. *)
Fixpoint append_to {K V} `{EqDecision K} (k : K) (v : V)
    (d : list (K * list V)) : list (K * list V) :=
  match d with
  | [] => [(k, [] ++ [v])]
  | (k', vs) :: d' =>
      if decide (k = k') then (k', vs ++ [v]) :: d'
      else (k', vs) :: append_to k v d'
  end.

(** [sum(c[field] for c in author_commit_list)]. *)
Definition sum_field (field : commit → Z) (author_commit_list : list authored)
    : Z :=
  foldl (λ acc c, acc + field (written c)) 0 author_commit_list.

Module AuthorStats.
Record t := {
  commits : nat;
  files_changed : Z;
  insertions : Z;
  deletions : Z
}.
End AuthorStats.

(** [get_author_stats]: the authors in the order of their first commit,
    each with the statistics of their commits. *)
Definition get_author_stats (commits : list authored)
    : list (string * AuthorStats.t) :=
  let author_commits :=
    foldl (λ d commit, append_to (author commit) commit d) [] commits in
  (λ '(author, author_commit_list),
     (author,
      {| AuthorStats.commits := length author_commit_list;
         AuthorStats.files_changed := sum_field files_changed author_commit_list;
         AuthorStats.insertions := sum_field insertions author_commit_list;
         AuthorStats.deletions := sum_field deletions author_commit_list |}))
  <$> author_commits.

End GitParser.

(** ** [quality_scorer.py] *)

Module QualityScorer.

Local Open Scope float_scope.

Definition imperative_verbs : list string :=
  ["add"; "fix"; "update"; "remove"; "refactor"; "implement";
   "create"; "delete"; "modify"; "improve"; "optimize";
   "enhance"; "resolve"; "correct"; "adjust"; "integrate"]%string.

Definition generic_messages : list string :=
  ["update"; "fix stuff"; "changes"; "wip"; "work in progress";
   "misc"; "various"; "stuff"; "things"; "quick fix"]%string.

(** [message.split()[0].lower() if message else ""]; [None] is the
    [IndexError] raised for a non-empty message of white space only. *)
Definition first_word (message : string) : option string :=
  match message with
  | EmptyString => Some EmptyString
  | _ => w ← Py.index_first (Py.split message); Some (Py.lower w)
  end.

(** [any(generic in message.lower() for generic in generic_messages)]. *)
Definition is_generic (message : string) : bool :=
  existsb (λ generic, Py.contains generic (Py.lower message)) generic_messages.

Definition _score_message_quality (message : string) : option float :=
  let score := 0.5 in
  let msg_length := Py.len message in
  let score :=
    if ((10 <? msg_length) && (msg_length <? 100))%Z then score + 0.15
    else if (msg_length <? 10)%Z then score - 0.2
    else if (150 <? msg_length)%Z then score - 0.1
    else score in
  first_word ← first_word message;
  let score :=
    if Py.in_list first_word imperative_verbs then score + 0.20 else score in
  let score := if negb (is_generic message) then score + 0.15 else score - 0.15 in
  let score := if Py.first_isupper message then score + 0.05 else score in
  let score := if negb (Py.endswith_char "." message) then score + 0.05 else score in
  Some (Py.max 0.0 (Py.min 1.0 score)).

(** The tier score of [total_changes], before the file-count penalty. *)
Definition size_tier (cfg : Config.t) (total_changes : Z) : float :=
  if (total_changes <? Config.SIZE_SMALL cfg)%Z then 1.0
  else if (total_changes <? Config.SIZE_MEDIUM cfg)%Z then 0.85
  else if (total_changes <? Config.SIZE_LARGE cfg)%Z then 0.65
  else 0.35.

Definition _score_size_appropriateness (cfg : Config.t) (c : commit) : float :=
  let total_changes := (insertions c + deletions c)%Z in
  let files_changed := files_changed c in
  let size_score := size_tier cfg total_changes in
  let size_score :=
    if (10 <? files_changed)%Z then size_score * 0.8
    else if (20 <? files_changed)%Z then size_score * 0.6
    else size_score in
  size_score.

(** [f.split('/')[0] if '/' in f else '']. *)
Fixpoint before_slash (f : string) : string :=
  match f with
  | EmptyString => EmptyString
  | String a f' =>
      if Ascii.eqb a "/" then EmptyString else String a (before_slash f')
  end.

Definition top_directory (f : string) : string :=
  if Py.contains "/" f then before_slash f else EmptyString.

Definition _score_focus (c : commit) : float :=
  match files c with
  | [] => 0.5
  | fs =>
      let directories : gset string := list_to_set (top_directory <$> fs) in
      if (size directories =? 1)%nat then 1.0
      else if (size directories <=? 3)%nat then 0.75
      else if (size directories <=? 5)%nat then 0.5
      else 0.3
  end.

(** The mean of the three sub-scores, as computed before any rounding. *)
Definition mean3 (message_score size_score focus_score : float) : float :=
  (message_score + size_score + focus_score) / 3.

Definition grade_of (cfg : Config.t) (overall : float) : string :=
  if Config.QUALITY_THRESHOLD_HIGH cfg <=? overall then "A"%string
  else if Config.QUALITY_THRESHOLD_LOW cfg <=? overall then "B"%string
  else "C"%string.

(** The result dictionary, without the [suggestions] list. *)
Record quality_score := {
  message_quality : float;
  size_appropriateness : float;
  focus : float;
  overall : float;
  grade : string
}.

Definition _score_single_commit (cfg : Config.t) (c : commit)
    : option quality_score :=
  message_score ← _score_message_quality (message c);
  let size_score := _score_size_appropriateness cfg c in
  let focus_score := _score_focus c in
  let overall := mean3 message_score size_score focus_score in
  let grade := grade_of cfg overall in
  Some {|
    message_quality := Py.round2 message_score;
    size_appropriateness := Py.round2 size_score;
    focus := Py.round2 focus_score;
    overall := Py.round2 overall;
    grade := grade
  |}.

(** *** Suggestions and summaries *)

Definition suggest_detail : string := "Add more detail to commit message".
Definition suggest_verb : string :=
  "Start with imperative verb (add, fix, update, etc.)".
Definition suggest_specific : string := "Be more specific - avoid generic terms".
Definition suggest_split (total_changes : Z) : string :=
  ("Split into smaller commits (current: " +:+ Py.str_int total_changes
   +:+ " lines)")%string.
Definition suggest_fewer_files (files_changed : Z) : string :=
  ("Commit touches many files (" +:+ Py.str_int files_changed
   +:+ ") - consider splitting")%string.

(** [_generate_suggestions]; [None] is the [IndexError] of
    [message.split()[0]]. *)
Definition _generate_suggestions (cfg : Config.t) (c : commit)
    (msg_score size_score focus_score : float) : option (list string) :=
  let suggestions := [] in
  let message := message c in
  suggestions ←
    (if msg_score <? 0.6 then
       let suggestions :=
         if (Py.len message <? 10)%Z then suggestions ++ [suggest_detail]
         else suggestions in
       first_word ← first_word message;
       let suggestions :=
         if negb (Py.in_list first_word imperative_verbs)
         then suggestions ++ [suggest_verb] else suggestions in
       let suggestions :=
         if is_generic message then suggestions ++ [suggest_specific]
         else suggestions in
       Some suggestions
     else Some suggestions);
  let suggestions :=
    if size_score <? 0.6 then
      let total_changes := (insertions c + deletions c)%Z in
      if (Config.SIZE_LARGE cfg <? total_changes)%Z
      then suggestions ++ [suggest_split total_changes] else suggestions
    else suggestions in
  let suggestions :=
    if focus_score <? 0.6 then
      let files_changed := files_changed c in
      if (10 <? files_changed)%Z
      then suggestions ++ [suggest_fewer_files files_changed] else suggestions
    else suggestions in
  Some suggestions.

(** The ['suggestions'] entry of the dictionary that
    [_score_single_commit] returns. *)
Definition suggestions_of (cfg : Config.t) (c : commit) : option (list string) :=
  message_score ← _score_message_quality (message c);
  _generate_suggestions cfg c message_score
    (_score_size_appropriateness cfg c) (_score_focus c).

(** A commit with its ['quality_score'] entry; the suggestions of that
    entry are kept beside the scores. *)
Record scored_commit := {
  scored : commit;
  score : quality_score;
  suggestions : list string
}.

(** The body of the loop of [score_commits]. *)
Definition score_one (cfg : Config.t) (c : commit) : option scored_commit :=
  score_details ← _score_single_commit cfg c;
  suggestions ← suggestions_of cfg c;
  Some {| scored := c; score := score_details; suggestions := suggestions |}.

(** [score_commits]: the commits in order, each with its score; the
    first exception ends the loop. *)
Definition score_commits (cfg : Config.t) (commits : list commit)
    : option (list scored_commit) :=
  mapM (score_one cfg) commits.

(** The statistics dictionary, without [average_score]. *)
Record summary_stats := {
  total_commits : nat;
  high_quality : nat;
  medium_quality : nat;
  low_quality : nat;
  needs_improvement : nat
}.

Definition is_high (cfg : Config.t) (sc : scored_commit) : bool :=
  Config.QUALITY_THRESHOLD_HIGH cfg <=? overall (score sc).
Definition is_medium (cfg : Config.t) (sc : scored_commit) : bool :=
  (Config.QUALITY_THRESHOLD_LOW cfg <=? overall (score sc))
  && (overall (score sc) <? Config.QUALITY_THRESHOLD_HIGH cfg).
Definition is_low (cfg : Config.t) (sc : scored_commit) : bool :=
  overall (score sc) <? Config.QUALITY_THRESHOLD_LOW cfg.
Definition has_suggestions (sc : scored_commit) : bool :=
  match suggestions sc with [] => false | _ => true end.

(** [get_summary_stats]; [None] is the empty dictionary. *)
Definition get_summary_stats (cfg : Config.t)
    (scored_commits : list scored_commit) : option summary_stats :=
  match scored_commits with
  | [] => None
  | _ =>
      Some {|
        total_commits := length scored_commits;
        high_quality := length (List.filter (is_high cfg) scored_commits);
        medium_quality := length (List.filter (is_medium cfg) scored_commits);
        low_quality := length (List.filter (is_low cfg) scored_commits);
        needs_improvement := length (List.filter has_suggestions scored_commits)
      |}
  end.

End QualityScorer.

(** ** [cache_manager.py] *)

Module CacheManager.

(** The values [json.load] produces and [json.dump] accepts. A dictionary
    has unique string keys. *)
Inductive json :=
| JNull
| JBool (b : bool)
| JInt (n : Z)
| JFloat (x : float)
| JStr (s : string)
| JList (l : list json)
| JDict (d : gmap string json).

(** The content of a cache file, as [json.load] sees it: text that does
    not parse, or the text of a document. [json.dump] followed by
    [json.load] gives the document back. *)
Inductive file :=
| Malformed
| Document (j : json).

(** [except (json.JSONDecodeError, KeyError, ValueError)]. *)
Definition handled (e : exn) : bool :=
  match e with
  | JSONDecodeError | KeyError | ValueError => true
  | TypeError | IndexError | OverflowError | OSError => false
  end.

(** Library functions the module calls: [hashlib.sha256(..).hexdigest()]
    on the encoded text, [json.dumps(.., sort_keys=True)],
    [datetime.isoformat] of a naive [datetime] and
    [datetime.fromisoformat] ([None] is its [ValueError]; a text with a
    UTC offset reads as an aware [datetime]). [object] stands for the
    Python objects that do not have the shape of a [json] value (a
    tuple, a dictionary with a key that is not a string, a set, ...), and
    [json_image o] is what [json.load] reads back from what [json.dump]
    wrote for [o], [None] when [json.dump] raises. *)
Class Library := {
  sha256_hexdigest : string → string;
  json_dumps_sorted : gmap string json → string;
  isoformat : Z → string;
  fromisoformat : string → option Py.datetime;
  object : Type;
  json_image : object → option json
}.

(** What a caller passes as [response: Any]: a value of the shape of a
    [json] value, which [json.dump] followed by [json.load] gives back
    as it is, or another object. *)
Inductive any `{Library} :=
| Shaped (j : json)
| Foreign (o : object).

(** What [json.load] reads back from what [json.dump] wrote. *)
Definition read_back `{Library} (response : any) : option json :=
  match response with
  | Shaped j => Some j
  | Foreign o => json_image o
  end.

(** The manager: its directory (file name without [.json] to content) and
    its attributes. *)
Record t := {
  cache_dir : gmap string file;
  enabled : bool;
  hits : Z;
  misses : Z
}.

Definition with_dir (self : t) (d : gmap string file) : t :=
  {| cache_dir := d; enabled := enabled self;
     hits := hits self; misses := misses self |}.
Definition count_hit (self : t) : t :=
  {| cache_dir := cache_dir self; enabled := enabled self;
     hits := hits self + 1; misses := misses self |}.
Definition count_miss (self : t) : t :=
  {| cache_dir := cache_dir self; enabled := enabled self;
     hits := hits self; misses := misses self + 1 |}.

(** [CacheManager(cache_dir)] over an existing directory. *)
Definition init (cfg : Config.t) (dir : gmap string file) : t :=
  {| cache_dir := dir; enabled := Config.CACHE_ENABLED cfg;
     hits := 0; misses := 0 |}.

(** [if params:] is false for [None] and for the empty dictionary. *)
Definition truthy_params (params : option (gmap string json)) : bool :=
  match params with
  | Some d => negb (bool_decide (d = ∅))
  | None => false
  end.

Definition _generate_cache_key `{Library} (prompt model : string)
    (params : option (gmap string json)) : string :=
  let key_components := (model +:+ ":" +:+ prompt)%string in
  let key_components :=
    if truthy_params params
    then (key_components +:+ ":" +:+ json_dumps_sorted (default ∅ params))%string
    else key_components in
  sha256_hexdigest key_components.

(** [json.load(f)]. *)
Definition json_load (f : file) : exn + json :=
  match f with
  | Malformed => inl JSONDecodeError
  | Document j => inr j
  end.

(** [data[k]] for a string [k]: a missing key of a dictionary is a
    [KeyError], any other value cannot be indexed by a string. *)
Definition subscript (data : json) (k : string) : exn + json :=
  match data with
  | JDict d => match d !! k with Some v => inr v | None => inl KeyError end
  | _ => inl TypeError
  end.

(** [datetime.fromisoformat(v)]: only strings are accepted. *)
Definition parse_time `{Library} (v : json) : exn + Py.datetime :=
  match v with
  | JStr s => match fromisoformat s with Some t => inr t | None => inl ValueError end
  | _ => inl TypeError
  end.

(** The [try] block of [get] on an existing file, up to its first
    exception or [return]. [open_ok] is false when
    [open(cache_file, 'r')] raises an [OSError]. *)
Definition get_try `{Library} (cfg : Config.t) (self : t) (now : Z)
    (open_ok : bool) (f : file) (max_age_hours : option Z)
    : (exn + json) * t :=
  if negb open_ok then (inl OSError, self)
  else
    match json_load f with
    | inl e => (inl e, self)
    | inr cache_data =>
        let max_age :=
          Py.int_or max_age_hours (Config.CACHE_MAX_AGE_HOURS cfg) in
        match subscript cache_data "timestamp" with
        | inl e => (inl e, self)
        | inr stamp =>
            match parse_time stamp with
            | inl e => (inl e, self)
            | inr cached_time =>
                match Py.datetime_sub now cached_time with
                | Raise e => (inl e, self)
                | Return age =>
                    match Py.timedelta_hours max_age with
                    | None => (inl OverflowError, self)
                    | Some limit =>
                        if limit <? age
                        then (inr JNull, count_miss self)
                        else
                          let self := count_hit self in
                          match subscript cache_data "response" with
                          | inl e => (inl e, self)
                          | inr response => (inr response, self)
                          end
                    end
                end
            end
        end
    end.

(** [get]; [now] is what [datetime.now()] returns during the call, and
    the returned [JNull] is Python's [None]. [unlink_ok] is false when
    [cache_file.unlink(missing_ok=True)] raises an [OSError], which
    leaves the [except] block before the miss is counted. *)
Definition get `{Library} (cfg : Config.t) (self : t) (now : Z)
    (open_ok unlink_ok : bool)
    (prompt model : string) (params : option (gmap string json))
    (max_age_hours : option Z) : result json * t :=
  if negb (enabled self) then (Return JNull, self)
  else
    let key := _generate_cache_key prompt model params in
    match cache_dir self !! key with
    | None => (Return JNull, count_miss self)
    | Some f =>
        match get_try cfg self now open_ok f max_age_hours with
        | (inr v, self) => (Return v, self)
        | (inl e, self) =>
            if handled e
            then
              if unlink_ok
              then (Return JNull,
                    count_miss (with_dir self (delete key (cache_dir self))))
              else (Raise OSError, self)
            else (Raise e, self)
        end
    end.

(** [set]; [open_ok] is false when [open(cache_file, 'w')] raises, which
    the [except Exception] swallows. When [json.dump] raises on the
    response, the exception is swallowed as well and the file, already
    truncated by [open] and written up to the response, is left as text
    that is not JSON. *)
Definition set `{Library} (self : t) (now : Z) (open_ok : bool)
    (prompt model : string) (response : any)
    (params : option (gmap string json)) : t :=
  if negb (enabled self) then self
  else
    let key := _generate_cache_key prompt model params in
    let cache_data (response : json) : gmap string json :=
      <["timestamp" := JStr (isoformat now)]>
      (<["model" := JStr model]>
      (<["prompt_preview" := JStr (String.substring 0 200 prompt)]>
      (<["params" := from_option JDict JNull params]>
      (<["response" := response]> ∅)))) in
    if open_ok
    then
      let written :=
        match read_back response with
        | Some response => Document (JDict (cache_data response))
        | None => Malformed
        end in
      with_dir self (<[key := written]> (cache_dir self))
    else self.

(** [clear]. [mtime name] is the modification time of a file as
    [datetime.fromtimestamp(cache_file.stat().st_mtime)] gives it, [None]
    when that raises, and [unlink_ok name] is false when
    [cache_file.unlink()] raises; [except Exception: pass] swallows both.
    The cutoff is computed outside the [try]: [None] is the
    [OverflowError] of [timedelta(days=max_age)] or of the subtraction.
    The number returned is [removed_count]. *)
Definition clear (cfg : Config.t) (self : t) (now : Z)
    (mtime : string → option Z) (unlink_ok : string → bool)
    (max_age_days : option Z) : option (Z * t) :=
  let max_age := Py.int_or max_age_days (Config.CACHE_MAX_AGE_DAYS cfg) in
  if negb (Z.abs max_age <=? Py.timedelta_max_days) then None
  else
    let cutoff := now - Py.timedelta_days max_age in
    if negb ((Py.datetime_min <=? cutoff) && (cutoff <=? Py.datetime_max))
    then None
    else
      let unlinked (name : string) : bool :=
        match mtime name with
        | Some file_time => (file_time <? cutoff) && unlink_ok name
        | None => false
        end in
      let removed := filter (λ kv, unlinked kv.1 = true) (cache_dir self) in
      let kept := filter (λ kv, unlinked kv.1 = false) (cache_dir self) in
      Some (Z.of_nat (size removed), with_dir self kept).

(** [clear_all]: every file of the directory is unlinked and the
    counters are reset, on an enabled and on a disabled cache alike.
    [unlink_ok name] is false when [cache_file.unlink()] raises for that
    file, which [except Exception: pass] swallows; the number returned is
    the count that is printed. *)
Definition clear_all (self : t) (unlink_ok : string → bool) : Z * t :=
  let removed := filter (λ kv, unlink_ok kv.1 = true) (cache_dir self) in
  let kept := filter (λ kv, unlink_ok kv.1 = false) (cache_dir self) in
  (Z.of_nat (size removed),
   {| cache_dir := kept; enabled := enabled self; hits := 0; misses := 0 |}).

End CacheManager.

(** ** [claude_analyzer.py]: the cached call *)

Module ClaudeAnalyzer.
Import CacheManager.

(** The attributes [_call_claude] reads: the model name and the cache
    manager, [None] for [use_cache=False]. *)
Record t := {
  model : string;
  cache : option CacheManager.t
}.

Definition with_cache (self : t) (c : option CacheManager.t) : t :=
  {| model := model self; cache := c |}.

(** [if cached:] on a value read from a cache file. *)
Definition truthy (v : json) : bool :=
  match v with
  | JNull => false
  | JBool b => b
  | JInt n => negb (n =? 0)
  | JFloat x => negb (x =? 0)%float
  | JStr s => negb (String.eqb s "")
  | JList l => match l with [] => false | _ => true end
  | JDict d => negb (bool_decide (d = ∅))
  end.

(** What a call yields: the returned value, the [Exception] raised for a
    failure of the API call, or an exception that [cache.get] lets
    through. *)
Inductive outcome :=
| Returned (v : json)
| ClaudeAPIError
| CacheError (e : exn).

(** The [try] block of [_call_claude]. [api model max_tokens prompt] is
    the text [message.content[0].text] of the answer, [None] when the
    request or the access to the text raises. *)
Definition call_api `{Library} (api : string → Z → string → option string)
    (self : t) (now : Z) (open_ok : bool) (prompt : string) (max_tokens : Z)
    : outcome * t :=
  match api (model self) max_tokens prompt with
  | Some response =>
      let cache :=
        match cache self with
        | Some c =>
            Some (CacheManager.set c now open_ok prompt (model self)
                    (Shaped (JStr response)) None)
        | None => None
        end in
      (Returned (JStr response), with_cache self cache)
  | None => (ClaudeAPIError, self)
  end.

(** [_call_claude]; [now] is the clock during the lookup and [later] the
    clock when the answer is stored. [read_ok] and [unlink_ok] tell
    whether the lookup can open and unlink the cache file, [open_ok]
    whether the answer's file can be opened for writing. The lookup is
    made before the [try], so that its exceptions are not turned into
    the API error. *)
Definition _call_claude `{Library} (cfg : Config.t)
    (api : string → Z → string → option string) (self : t) (now later : Z)
    (read_ok unlink_ok open_ok : bool) (prompt : string) (max_tokens : Z)
    : outcome * t :=
  match cache self with
  | Some c =>
      match CacheManager.get cfg c now read_ok unlink_ok prompt (model self)
              None None with
      | (Return cached, c) =>
          let self := with_cache self (Some c) in
          if truthy cached then (Returned cached, self)
          else call_api api self later open_ok prompt max_tokens
      | (Raise e, c) => (CacheError e, with_cache self (Some c))
      end
  | None => call_api api self later open_ok prompt max_tokens
  end.

End ClaudeAnalyzer.

(** ** Vocabulary of the statements *)

(** *** Sessions *)

(** [a] is immediately followed by [b] somewhere in [l]. *)
Definition adjacent_in {A} (a b : A) (l : list A) : Prop :=
  ∃ l1 l2, l = l1 ++ a :: b :: l2.

(** The time from commit [a] to commit [b]. *)
Definition gap (a b : commit) : Z := timestamp b - timestamp a.

(** Ascending timestamps. *)
Definition by_time (a b : commit) : Prop := timestamp a ≤ timestamp b.

(** The length of [gap_hours] hours, in microseconds. *)
Definition hours_long (gap_hours : Z) : Z := gap_hours * 3600000000.

(** The gap thresholds that [timedelta(hours=gap_hours)] accepts. *)
Definition representable_hours (gap_hours : Z) : Prop :=
  -23999999976 ≤ gap_hours ≤ 23999999999.

(** Adjacent commits of a session are at most the threshold apart. *)
Definition close_knit (threshold : Z) (s : list commit) : Prop :=
  ∀ a b, adjacent_in a b s → gap a b ≤ threshold.

(** Consecutive sessions, oldest first, are more than the threshold apart. *)
Definition far_apart (threshold : Z) (ss : list (list commit)) : Prop :=
  ∀ s1 s2 a b, adjacent_in s1 s2 ss →
    last s1 = Some a → head s2 = Some b →
    threshold < gap a b.

(** *** Counting *)

(** The number of times [k] occurs in [keys]. *)
Definition occurrences {K} `{EqDecision K} (k : K) (keys : list K) : Z :=
  Z.of_nat (length (filter (λ x, x = k) keys)).

(** The distinct keys in the order in which they first occur. *)
Definition first_seen {K} `{EqDecision K} (keys : list K) : list K :=
  foldl (λ seen k, if decide (k ∈ seen) then seen else seen ++ [k]) [] keys.

(** [h] occurs at least as often as any key, and strictly more often than
    every key that occurs before the first occurrence of [h]. *)
Definition first_maximal {K} `{EqDecision K} (keys : list K) (h : K) : Prop :=
  (∀ k, occurrences k keys ≤ occurrences h keys)
  ∧ ∃ before after,
      keys = before ++ h :: after
      ∧ (h ∉ before)
      ∧ ∀ k, k ∈ before → occurrences k keys < occurrences h keys.

(** The value stored under [k], 0 when the key is absent. *)
Fixpoint value_of {K} `{EqDecision K} (k : K) (d : list (K * Z)) : Z :=
  match d with
  | [] => 0
  | (k', v) :: d' => if decide (k = k') then v else value_of k d'
  end.

(** The list stored under [k], empty when the key is absent. *)
Fixpoint group_of {K V} `{EqDecision K} (k : K) (d : list (K * list V))
    : list V :=
  match d with
  | [] => []
  | (k', vs) :: d' => if decide (k = k') then vs else group_of k d'
  end.

(** The commits of one author, in input order. *)
Definition commits_of (a : string) (commits : list GitParser.authored)
    : list GitParser.authored :=
  filter (λ c, GitParser.author c = a) commits.

(** The sum of a field over commits. *)
Definition total_of (field : commit → Z) (commits : list GitParser.authored)
    : Z :=
  foldr (λ c acc, field (GitParser.written c) + acc) 0 commits.

(** The sum of the values of a counting dictionary. *)
Definition sum_values {K} (d : list (K * Z)) : Z :=
  foldr (λ item acc, snd item + acc) 0 d.

(** Counts in descending order. *)
Definition count_desc {K} (x y : K * Z) : Prop := snd y ≤ snd x.

(** [top] lists the most frequent of [keys], by descending number of
    occurrences: at most [n] distinct keys with their true counts, and
    no key left out occurs more often than a listed one. *)
Definition most_frequent {K} `{EqDecision K} (n : nat) (keys : list K)
    (top : list (K * Z)) : Prop :=
  length top = Nat.min n (length (first_seen keys))
  ∧ NoDup top.*1
  ∧ Sorted count_desc top
  ∧ (∀ k v, (k, v) ∈ top → k ∈ keys ∧ v = occurrences k keys)
  ∧ (∀ k, k ∈ keys → k ∉ top.*1 →
       ∀ k' v, (k', v) ∈ top → occurrences k keys ≤ v).

(** *** Scores *)

(** [0 <= x <= 1] on floats. *)
Definition in_unit (x : float) : bool := ((0 <=? x) && (x <=? 1))%float.

(** The values the three sub-scores can take. *)
Definition message_scores : list float :=
  [0.15; 0.2; 0.25; 0.3; 0.35; 0.39999999999999997; 0.44999999999999996;
   0.45000000000000007; 0.49999999999999994; 0.5; 0.5000000000000001;
   0.5499999999999999; 0.55; 0.5500000000000002; 0.6; 0.6000000000000001;
   0.65; 0.6500000000000001; 0.7000000000000001; 0.7500000000000001; 0.8;
   0.8000000000000002; 0.85; 0.8500000000000001; 0.8500000000000002; 0.9;
   0.9000000000000001; 0.9500000000000001; 1.0]%float.

Definition size_scores : list float :=
  [1.0; 0.85; 0.65; 0.35; 1.0 * 0.8; 0.85 * 0.8; 0.65 * 0.8; 0.35 * 0.8]%float.

Definition focus_scores : list float := [0.5; 1.0; 0.75; 0.3]%float.

(** The three sub-scores and their mean lie in [0,1], before and after
    rounding to two decimals. *)
Definition scores_in_unit (m s f : float) : bool :=
  in_unit m && in_unit s && in_unit f
  && in_unit (QualityScorer.mean3 m s f)
  && in_unit (Py.round2 m) && in_unit (Py.round2 s) && in_unit (Py.round2 f)
  && in_unit (Py.round2 (QualityScorer.mean3 m s f)).

(** For one triple of sub-scores, with the thresholds 0.6 and 0.8: the
    reported overall score falls in exactly one of the three quality
    classes, a mean graded 'A' is reported in the high class, and the mean
    is graded 'C' exactly when it is reported in the low class. *)
Definition classes_agree (m s f : float) : bool :=
  let mean := QualityScorer.mean3 m s f in
  let o := Py.round2 mean in
  (Nat.b2n (0.8 <=? o)%float
   + Nat.b2n ((0.6 <=? o) && (o <? 0.8))%float
   + Nat.b2n (o <? 0.6)%float =? 1)%nat
  && implb (0.8 <=? mean)%float (0.8 <=? o)%float
  && Bool.eqb (negb (0.8 <=? mean)%float && negb (0.6 <=? mean)%float)
              (o <? 0.6)%float.

(** The scored commit carries the grade [g]. *)
Definition graded (g : string) (sc : QualityScorer.scored_commit) : bool :=
  String.eqb (QualityScorer.grade (QualityScorer.score sc)) g.

(** The three suggestions about the message. *)
Definition message_suggestions : list string :=
  [QualityScorer.suggest_detail; QualityScorer.suggest_verb;
   QualityScorer.suggest_specific].

(** *** Cache entries *)

Module CacheProps.
Import CacheManager.

(** A payload the [try] block of [get] rejects with one of the
    exceptions it handles: text that is not JSON, a dictionary without a
    ["timestamp"], or a time stamp that is not an ISO date. *)
Definition corrupt `{Library} (f : file) : Prop :=
  f = Malformed
  ∨ ∃ d, f = Document (JDict d)
      ∧ (d !! "timestamp"%string = None
         ∨ ∃ s, d !! "timestamp"%string = Some (JStr s)
             ∧ fromisoformat s = None).

(** A dictionary [d] whose time stamp reads as the naive time
    [created]. *)
Definition readable `{Library} (f : file) (created : Z)
    (d : gmap string json) : Prop :=
  f = Document (JDict d)
  ∧ ∃ s, d !! "timestamp"%string = Some (JStr s)
      ∧ fromisoformat s = Some (Py.Naive created).

Definition is_dict (j : json) : bool :=
  match j with JDict _ => true | _ => false end.

Definition is_str (j : json) : bool :=
  match j with JStr _ => true | _ => false end.

(** A document that is valid JSON of the wrong shape: not a dictionary,
    a dictionary whose ["timestamp"] is not a string, or one whose time
    stamp carries a UTC offset. Reading it raises a [TypeError], which
    [get] does not handle. *)
Definition mistyped `{Library} (f : file) : Prop :=
  ∃ j, f = Document j
    ∧ (is_dict j = false
       ∨ ∃ d v, j = JDict d ∧ d !! "timestamp"%string = Some v
           ∧ (is_str v = false
              ∨ ∃ s t utcoffset, v = JStr s
                  ∧ fromisoformat s = Some (Py.Aware t utcoffset))).

(** The number of hours that a read takes as its maximum age. *)
Definition max_age_hours_of (cfg : Config.t) (max_age_hours : option Z) : Z :=
  Py.int_or max_age_hours (Config.CACHE_MAX_AGE_HOURS cfg).

(** The maximum age of a read in microseconds, when [timedelta] accepts
    its number of hours. *)
Definition max_age_of (cfg : Config.t) (max_age_hours : option Z)
    : option Z :=
  Py.timedelta_hours (max_age_hours_of cfg max_age_hours).

End CacheProps.

(** ** Sample data *)

Module Sample.

Definition commit_at (name : string) (ts : Z) : commit := {|
  hash := name; message := "Add parser"; timestamp := ts;
  files_changed := 1; insertions := 10; deletions := 0;
  files := ["src/parser.py"%string]
|}.

Definition hours (h : Z) : Z := h * 3600000000.

(** Commits at 09:00, 09:30 and 13:00 of the first day, a Thursday, and
    at 08:00 of the Friday after it. *)
Definition nine : commit := commit_at "aaaaaaa" (hours 9).
Definition half_past_nine : commit := commit_at "bbbbbbb" (hours 9 + 1800000000).
Definition thirteen : commit := commit_at "ccccccc" (hours 13).
Definition friday_eight : commit := commit_at "ddddddd" (hours 32).

(** A configuration with a key and a negative session gap. *)
Definition negative_gap : Config.t := {|
  Config.ANTHROPIC_API_KEY := Some "sk-test"%string;
  Config.SESSION_GAP_HOURS := -1;
  Config.CACHE_ENABLED := true;
  Config.CACHE_MAX_AGE_HOURS := 24;
  Config.CACHE_MAX_AGE_DAYS := 7;
  Config.QUALITY_THRESHOLD_LOW := 0.6%float;
  Config.QUALITY_THRESHOLD_HIGH := 0.8%float;
  Config.SIZE_SMALL := 50;
  Config.SIZE_MEDIUM := 200;
  Config.SIZE_LARGE := 500
|}.

Definition retry_message : string :=
  "Add retry logic with exponential backoff for flaky network calls".

(** A well-described commit of 200 changed lines in two directories. *)
Definition borderline : commit := {|
  hash := "eeeeeee"; message := retry_message; timestamp := 0;
  files_changed := 2; insertions := 200; deletions := 0;
  files := ["src/retry.py"; "docs/retry.md"]%string
|}.

(** A small commit that touches 25 files. *)
Definition sweeping : commit := {|
  hash := "fffffff"; message := "Rename helper"; timestamp := 0;
  files_changed := 25; insertions := 10; deletions := 0;
  files := ["src/a.py"%string]
|}.

(** A vague commit of 600 changed lines over twelve files in four
    directories. *)
Definition vague : commit := {|
  hash := "9999999"; message := "wip"; timestamp := 0;
  files_changed := 12; insertions := 400; deletions := 200;
  files := ["src/a.py"; "src/b.py"; "src/c.py"; "docs/a.md"; "docs/b.md";
            "tests/a.py"; "tests/b.py"; "tests/c.py"; "ci/a.yml"; "ci/b.yml";
            "ci/c.yml"; "README.md"]%string
|}.

End Sample.

Module SampleCache.
Import CacheManager.

(** The objects of the sample library: tuples of JSON values, which
    [json.dump] writes as lists, and an object it cannot write. *)
Inductive sample_object :=
| Tuple (items : list json)
| Unserialisable.

(** Stand-ins for the library: the digest is the text itself, a date is
    written as its decimal count of microseconds, and a count after a
    plus sign reads as a date with the UTC offset 0. *)
Definition library : Library := {|
  sha256_hexdigest := λ s, s;
  json_dumps_sorted := λ _, "{}"%string;
  isoformat := λ t, NilZero.string_of_int (Z.to_int t);
  fromisoformat := λ s,
    match s with
    | String "+" s' =>
        (λ t, Py.Aware (Z.of_int t) 0) <$> NilZero.int_of_string s'
    | _ => (λ t, Py.Naive (Z.of_int t)) <$> NilZero.int_of_string s
    end;
  object := sample_object;
  json_image := λ o,
    match o with
    | Tuple items => Some (JList items)
    | Unserialisable => None
    end
|}.

Definition entry (created : string) (response : json) : file :=
  Document (JDict (<["timestamp"%string := JStr created]>
                  (<["response"%string := response]> ∅))).

(** A manager whose directory holds one entry for the prompt ["p"] and
    the model ["m"], created at time 0. *)
Definition one_entry : t := {|
  cache_dir := {[ "m:p"%string := entry "0" (JStr "answer") ]};
  enabled := true; hits := 0; misses := 0
|}.

Definition empty : t :=
  {| cache_dir := ∅; enabled := true; hits := 0; misses := 0 |}.

Definition hour : Z := 3600000000.

(** The same entry in a manager whose [enabled] flag is off. *)
Definition disabled : t := {|
  cache_dir := {[ "m:p"%string := entry "0" (JStr "answer") ]};
  enabled := false; hits := 0; misses := 0
|}.

(** A manager whose only file does not parse. *)
Definition broken : t := {|
  cache_dir := {[ "m:p"%string := Malformed ]};
  enabled := true; hits := 0; misses := 0
|}.

End SampleCache.

Module SampleAnalyzer.

(** An analyzer for the model ["m"] over the empty cache. *)
Definition analyzer : ClaudeAnalyzer.t := {|
  ClaudeAnalyzer.model := "m";
  ClaudeAnalyzer.cache := Some SampleCache.empty
|}.

(** An analyzer over the disabled cache. *)
Definition uncached : ClaudeAnalyzer.t := {|
  ClaudeAnalyzer.model := "m";
  ClaudeAnalyzer.cache := Some SampleCache.disabled
|}.

(** An API that answers every request with [text], and one that fails. *)
Definition answers (text : string) : string → Z → string → option string :=
  λ _ _ _, Some text.
Definition fails : string → Z → string → option string :=
  λ _ _ _, None.

End SampleAnalyzer.

(** * Session segmentation *)

Section adjacency.
Context {A : Type}.
Implicit Types (a b x : A) (l s t : list A).

Lemma adjacent_in_cons a b x l :
  adjacent_in a b (x :: l) →
  (a = x ∧ head l = Some b) ∨ adjacent_in a b l.
Proof.
  intros ([|y l1] & l2 & E); simplify_eq/=.
  - by left.
  - right. by exists l1, l2.
Qed.

Lemma adjacent_in_cons_r a b x l : adjacent_in a b l → adjacent_in a b (x :: l).
Proof. intros (l1 & l2 & ->). by exists (x :: l1), l2. Qed.

Lemma adjacent_in_app_l a b s t : adjacent_in a b s → adjacent_in a b (s ++ t).
Proof.
  intros (l1 & l2 & ->). exists l1, (l2 ++ t). by rewrite <- !app_assoc.
Qed.

Lemma adjacent_in_app_r a b s t : adjacent_in a b t → adjacent_in a b (s ++ t).
Proof.
  intros (l1 & l2 & ->). exists (s ++ l1), l2. by rewrite <- app_assoc.
Qed.

Lemma adjacent_in_app a b s t :
  adjacent_in a b (s ++ t) →
  adjacent_in a b s ∨ (last s = Some a ∧ head t = Some b) ∨ adjacent_in a b t.
Proof.
  induction s as [|x s IH]; simpl; intros H.
  - by right; right.
  - apply adjacent_in_cons in H as [[-> Hh]|H].
    + destruct s as [|y s]; simpl in *.
      * by right; left.
      * left. simplify_eq. by exists [], s.
    + destruct (IH H) as [H1|[[H1 H2]|H1]].
      * left. by apply adjacent_in_cons_r.
      * right; left. split; [|done].
        destruct s; [by rewrite last_nil in H1|by rewrite last_cons_cons].
      * by right; right.
Qed.

Lemma adjacent_in_snoc a b x l :
  adjacent_in a b (l ++ [x]) → adjacent_in a b l ∨ (last l = Some a ∧ b = x).
Proof.
  intros H. apply adjacent_in_app in H as [H|[[H1 H2]|H]]; [by left| |].
  - right. by simplify_eq/=.
  - destruct H as ([|? [|? ?]] & l2 & E); simplify_eq/=.
Qed.

Lemma adjacent_in_rev a b l : adjacent_in a b (rev l) → adjacent_in b a l.
Proof.
  intros (l1 & l2 & E). exists (rev l2), (rev l1).
  rewrite <- (rev_involutive l), E, rev_app_distr. simpl.
  by rewrite <- !app_assoc.
Qed.
End adjacency.

Section sorting.
Import GitParser.

Lemma insert_by_timestamp_perm c l : insert_by_timestamp c l ≡ₚ c :: l.
Proof.
  induction l as [|d l IH]; simpl; [done|].
  case_match; [done|]. rewrite IH. apply Permutation_swap.
Qed.

Lemma sorted_by_timestamp_perm commits : sorted_by_timestamp commits ≡ₚ commits.
Proof.
  induction commits as [|c l IH]; simpl; [done|].
  by rewrite insert_by_timestamp_perm, IH.
Qed.

Lemma insert_by_timestamp_sorted c l :
  Sorted by_time l → Sorted by_time (insert_by_timestamp c l).
Proof.
  induction 1 as [|d l Hl IH Hd]; simpl.
  - by repeat constructor.
  - case_match eqn:E.
    + apply Z.leb_le in E. by repeat constructor.
    + apply Z.leb_gt in E. constructor; [done|].
      destruct Hd as [|e l Hde]; simpl in *.
      * constructor. unfold by_time. lia.
      * case_match; constructor; unfold by_time in *; lia.
Qed.

Lemma sorted_by_timestamp_sorted commits :
  Sorted by_time (sorted_by_timestamp commits).
Proof.
  induction commits; simpl; [constructor|].
  by apply insert_by_timestamp_sorted.
Qed.

Lemma sorted_by_timestamp_nonempty c l : sorted_by_timestamp (c :: l) ≠ [].
Proof.
  intros E. pose proof (sorted_by_timestamp_perm (c :: l)) as H.
  rewrite E in H. by apply Permutation_nil_cons in H.
Qed.
End sorting.

Section timedeltas.

Lemma timedelta_hours_Some h t :
  Py.timedelta_hours h = Some t ↔ representable_hours h ∧ t = hours_long h.
Proof.
  unfold Py.timedelta_hours, representable_hours, hours_long,
    Py.timedelta_max_days. cbv zeta.
  pose proof (Z.div_mod h 24). pose proof (Z.mod_pos_bound h 24).
  destruct (_ <=? h / 24) eqn:E1; destruct (h / 24 <=? _) eqn:E2;
    cbn [andb];
    first [apply Z.leb_le in E1|apply Z.leb_gt in E1];
    first [apply Z.leb_le in E2|apply Z.leb_gt in E2].
  - split; [intros Heq; injection Heq as <-; lia|].
    intros [_ ->]. done.
  - split; [done|lia].
  - split; [done|lia].
  - split; [done|lia].
Qed.

Lemma timedelta_hours_None h :
  Py.timedelta_hours h = None ↔ ¬ representable_hours h.
Proof.
  destruct (Py.timedelta_hours h) as [t|] eqn:E.
  - apply timedelta_hours_Some in E as [? _]. split; [done|tauto].
  - split; [|done]. intros _ Hr.
    assert (Py.timedelta_hours h = Some (hours_long h)) as E'
      by by apply timedelta_hours_Some.
    congruence.
Qed.

Lemma representable_hours_dec h :
  representable_hours h ∨ ¬ representable_hours h.
Proof. unfold representable_hours. lia. Qed.
End timedeltas.

Section walk.
Import GitParser.
Variables (gap_hours threshold : Z).
Hypothesis Hthreshold : Py.timedelta_hours gap_hours = Some threshold.

Abbreviation close_knit := (close_knit threshold).
Abbreviation far_apart := (far_apart threshold).

Lemma close_knit_singleton c : close_knit [c].
Proof. intros a b ([|? [|? ?]] & l2 & E); simplify_eq/=. Qed.

Lemma far_apart_singleton s : far_apart [s].
Proof. intros s1 s2 a b ([|? [|? ?]] & l2 & E); simplify_eq/=. Qed.

(** The loop closes sessions exactly at the gaps above the threshold:
    started on a current session, it extends that session by some [s]
    and appends later sessions [later]. *)
Lemma walk_spec rest : ∀ sessions current,
  current ≠ [] → close_knit current →
  ∃ s later,
    walk gap_hours sessions current rest
      = Return (sessions ++ (current ++ s) :: later)
    ∧ concat ((current ++ s) :: later) = current ++ rest
    ∧ Forall (λ x, x ≠ []) later
    ∧ Forall close_knit ((current ++ s) :: later)
    ∧ far_apart ((current ++ s) :: later).
Proof.
  induction rest as [|c rest IH]; intros sessions current Hne Hck.
  - exists [], []. rewrite !app_nil_r. simpl. rewrite app_nil_r.
    repeat split; auto using far_apart_singleton.
  - simpl. unfold Py.index_last.
    destruct (last current) as [prev|] eqn:Hlast;
      [|by apply last_None in Hlast].
    rewrite Hthreshold.
    case_match eqn:Hgap.
    + apply Z.ltb_lt in Hgap.
      destruct (IH (sessions ++ [current]) [c]) as (s & later & Hw & Hc & Hn & Hk & Hf);
        [done|apply close_knit_singleton|].
      exists [], (([c] ++ s) :: later). rewrite app_nil_r.
      rewrite Hw, <- app_assoc. simpl in *.
      repeat split; auto.
      * by rewrite Hc.
      * intros s1 s2 a b Hadj Ha Hb.
        apply adjacent_in_cons in Hadj as [[-> Hh]|Hadj]; [|by eapply Hf].
        simplify_eq/=. done.
    + apply Z.ltb_ge in Hgap.
      destruct (IH sessions (current ++ [c])) as (s & later & Hw & Hc & Hn & Hk & Hf).
      { by destruct current. }
      { intros a b Hadj. apply adjacent_in_snoc in Hadj as [Hadj|[Ha ->]].
        - by apply Hck.
        - unfold gap. by simplify_eq. }
      exists (c :: s), later.
      replace (current ++ c :: s) with ((current ++ [c]) ++ s)
        by by rewrite <- app_assoc.
      rewrite Hw. repeat split; auto.
      simpl in Hc. rewrite Hc. by rewrite <- app_assoc.
Qed.

(** An adjacent pair of the concatenation lies inside one session or
    straddles two consecutive ones. *)
Lemma adjacent_in_concat {A} (a b : A) (ss : list (list A)) :
  Forall (λ x, x ≠ []) ss →
  adjacent_in a b (concat ss) →
  (∃ s, s ∈ ss ∧ adjacent_in a b s)
  ∨ (∃ s1 s2, adjacent_in s1 s2 ss ∧ last s1 = Some a ∧ head s2 = Some b).
Proof.
  induction 1 as [|s ss Hs Hss IH]; simpl; intros Hadj.
  - destruct Hadj as ([|? ?] & ? & ?); simplify_eq.
  - apply adjacent_in_app in Hadj as [Hadj|[[Ha Hb]|Hadj]].
    + left. exists s. split; [left|done].
    + right. destruct ss as [|s2 ss]; [done|].
      exists s, s2. split; [by exists [], ss|]. split; [done|].
      inversion Hss; subst. destruct s2; simplify_eq/=. done.
    + destruct (IH Hadj) as [(s' & Hin & H')|(s1 & s2 & H' & ?)].
      * left. exists s'. split; [by right|done].
      * right. exists s1, s2. split; [by apply adjacent_in_cons_r|done].
Qed.

(** With a negative threshold every commit of a time-ordered list opens
    a session of its own. *)
Lemma walk_negative rest : ∀ sessions prev,
  gap_hours < 0 → Sorted by_time (prev :: rest) →
  walk gap_hours sessions [prev] rest
    = Return (sessions ++ ((λ c, [c]) <$> prev :: rest)).
Proof.
  apply timedelta_hours_Some in Hthreshold as Hth. destruct Hth as [_ Hth].
  unfold hours_long in Hth.
  induction rest as [|c rest IH]; intros sessions prev Hneg Hs; simpl; [done|].
  inversion Hs as [|? ? Hrest Hhd]; subst. inversion Hhd; subst.
  rewrite Hthreshold. unfold by_time in *.
  case_match eqn:Hgap; [|apply Z.ltb_ge in Hgap; lia].
  rewrite IH by done. by rewrite <- app_assoc.
Qed.
End walk.

Section sessions.
Import GitParser.
Implicit Types (commits : list commit) (gap_hours : Z).

Lemma Sorted_adjacent_in {A} (R : relation A) (l : list A) a b :
  Sorted R l → adjacent_in a b l → R a b.
Proof.
  induction 1 as [|x l Hl IH Hx]; intros Hadj.
  - destruct Hadj as ([|? ?] & ? & ?); simplify_eq.
  - apply adjacent_in_cons in Hadj as [[-> Hh]|Hadj]; [|by apply IH].
    destruct Hx; by simplify_eq/=.
Qed.

Lemma concat_rev_perm {A} (ss : list (list A)) : concat (rev ss) ≡ₚ concat ss.
Proof.
  induction ss as [|s ss IH]; simpl; [done|].
  rewrite concat_app. simpl. rewrite app_nil_r, IH. apply Permutation_app_comm.
Qed.

Lemma NoDup_concat_unique {A} (ss : list (list A)) i j s1 s2 x :
  NoDup (concat ss) →
  ss !! i = Some s1 → ss !! j = Some s2 → x ∈ s1 → x ∈ s2 → i = j.
Proof.
  revert i j. induction ss as [|s ss IH]; intros i j Hnd Hi Hj H1 H2; [done|].
  simpl in Hnd. apply NoDup_app in Hnd as (_ & Hdisj & Hnd).
  assert (∀ k t, ss !! k = Some t → x ∈ t → x ∈ concat ss) as Hin.
  { intros k t Hk Ht. apply list_elem_of_In, in_concat. exists t.
    split; apply list_elem_of_In; [by eapply list_elem_of_lookup_2|done]. }
  destruct i as [|i], j as [|j]; simplify_eq/=.
  - done.
  - exfalso. eapply Hdisj; eauto.
  - exfalso. eapply Hdisj; eauto.
  - f_equal. by apply IH.
Qed.

(** A threshold that [timedelta] rejects stops the loop at its first
    comparison. *)
Lemma walk_overflow gap_hours sessions prev c rest :
  Py.timedelta_hours gap_hours = None →
  walk gap_hours sessions [prev] (c :: rest) = Raise OverflowError.
Proof. intros Hnone. simpl. by rewrite Hnone. Qed.

Lemma sorted_by_timestamp_length commits :
  length (sorted_by_timestamp commits) = length commits.
Proof. by rewrite sorted_by_timestamp_perm. Qed.

(** The two ways a call ends. It returns when the list has fewer than
    two commits or the threshold is one [timedelta] accepts: [built] are
    the sessions in the order the loop builds them, oldest first.
    Otherwise the first comparison raises. *)
Lemma group_into_sessions_built commits gap_hours :
  (((length commits < 2)%nat ∨ representable_hours gap_hours)
   ∧ ∃ built,
       group_into_sessions commits gap_hours = Return (rev built)
       ∧ concat built = sorted_by_timestamp commits
       ∧ Forall (λ s, s ≠ []) built
       ∧ Forall (close_knit (hours_long gap_hours)) built
       ∧ far_apart (hours_long gap_hours) built)
  ∨ ((2 ≤ length commits)%nat ∧ ¬ representable_hours gap_hours
     ∧ group_into_sessions commits gap_hours = Raise OverflowError).
Proof.
  destruct commits as [|c0 commits].
  { left. split; [left; simpl; lia|]. exists []. repeat split; auto.
    intros ? ? ? ? ([|? ?] & ? & ?); simplify_eq. }
  unfold group_into_sessions.
  pose proof (sorted_by_timestamp_length (c0 :: commits)) as Hlen.
  destruct (sorted_by_timestamp (c0 :: commits)) as [|first rest] eqn:E;
    [by apply sorted_by_timestamp_nonempty in E|].
  cbn [Py.index_first head tail].
  destruct (Py.timedelta_hours gap_hours) as [threshold|] eqn:Hth.
  - apply timedelta_hours_Some in Hth as Hth'. destruct Hth' as [Hr ->].
    left. split; [by right|].
    destruct (walk_spec gap_hours _ Hth rest [] [first])
      as (s & later & Hw & Hc & Hn & Hk & Hf);
      [done|apply close_knit_singleton|].
    rewrite Hw. exists (([first] ++ s) :: later).
    repeat split; auto.
  - apply timedelta_hours_None in Hth as Hr.
    destruct rest as [|c rest].
    + left. split; [left; simpl in *; lia|]. exists [[first]].
      repeat split; auto using close_knit_singleton, far_apart_singleton.
    + right. split; [simpl in *; lia|]. split; [done|].
      by rewrite walk_overflow.
Qed.
End sessions.

Section session_claims.
Import GitParser.
Implicit Types (commits : list commit) (gap_hours : Z).

(** C1, as the code has it. [group_into_sessions] returns whenever the
    list has fewer than two commits or the gap threshold is one that
    [timedelta(hours=gap_hours)] accepts, and the sessions it returns
    hold exactly the input commits with their multiplicities: their
    concatenation is a permutation of the input, a commit belongs to
    some session if and only if it is in the input, no session is empty,
    and when the input has no repeated commit no commit occurs twice,
    neither inside a session nor in two sessions. For two or more commits
    and a threshold outside that range the call raises an
    [OverflowError]. *)
Theorem group_into_sessions_partition commits gap_hours :
  match group_into_sessions commits gap_hours with
  | Return sessions =>
      ((length commits < 2)%nat ∨ representable_hours gap_hours)
      ∧ concat sessions ≡ₚ commits
      ∧ Forall (λ s, s ≠ []) sessions
      ∧ (∀ c, c ∈ commits ↔ ∃ s, s ∈ sessions ∧ c ∈ s)
      ∧ (NoDup commits →
           NoDup (concat sessions)
           ∧ ∀ i j s1 s2 c, sessions !! i = Some s1 → sessions !! j = Some s2 →
               c ∈ s1 → c ∈ s2 → i = j)
  | Raise e =>
      e = OverflowError ∧ (2 ≤ length commits)%nat
      ∧ ¬ representable_hours gap_hours
  end.
Proof.
  destruct (group_into_sessions_built commits gap_hours)
    as [(Hdom & built & -> & Hc & Hn & _ & _)|(Hlen & Hr & ->)]; [|done].
  split; [done|].
  assert (concat (rev built) ≡ₚ commits) as Hperm.
  { by rewrite concat_rev_perm, Hc, sorted_by_timestamp_perm. }
  split; [done|]. split; [|split].
  - apply Forall_forall. intros s Hs%list_elem_of_In%in_rev%list_elem_of_In.
    revert s Hs. by apply Forall_forall.
  - intros c. rewrite <- Hperm, !list_elem_of_In, in_concat.
    by setoid_rewrite list_elem_of_In.
  - intros Hnd. assert (NoDup (concat (rev built))) by by rewrite Hperm.
    split; [done|]. intros i j s1 s2 c. by apply NoDup_concat_unique.
Qed.

(** C1, refuted as stated: with a gap of 24000000000 hours, which is one
    day more than [timedelta] can hold, two commits are not segmented:
    the call raises an [OverflowError]. One commit is returned as one
    session, the threshold never being built. *)
Lemma gap_beyond_timedelta_raises :
  group_into_sessions [Sample.nine; Sample.thirteen] 24000000000
    = Raise OverflowError
  ∧ group_into_sessions [Sample.nine] 24000000000 = Return [[Sample.nine]].
Proof. by vm_compute. Qed.

(** C2. For every commit list and gap threshold, the sessions returned
    by [group_into_sessions], read oldest first, concatenate to the
    input commits in time order; two commits adjacent inside a
    session are at most the threshold apart; the last commit of a
    session and the first commit of the next session in time are
    strictly more than the threshold apart; every pair of
    chronologically adjacent commits is of one of these two kinds; and a
    pair exactly the threshold apart (more generally, at most the
    threshold apart) is adjacent inside one session. There is no output
    exactly when the list has two or more commits and [timedelta]
    rejects the threshold, the call then raising an [OverflowError]. *)
Theorem group_into_sessions_gaps commits gap_hours :
  let threshold := hours_long gap_hours in
  match group_into_sessions commits gap_hours with
  | Return sessions =>
      let in_time_order := concat (rev sessions) in
      ((length commits < 2)%nat ∨ representable_hours gap_hours)
      ∧ in_time_order ≡ₚ commits
      ∧ Sorted by_time in_time_order
      ∧ Forall (λ s, s ≠ []) sessions
      ∧ (∀ s a b, s ∈ sessions → adjacent_in a b s → 0 ≤ gap a b ≤ threshold)
      ∧ (∀ newer older a b, adjacent_in newer older sessions →
           last older = Some a → head newer = Some b → threshold < gap a b)
      ∧ (∀ a b, adjacent_in a b in_time_order →
           (∃ s, s ∈ sessions ∧ adjacent_in a b s)
           ∨ (∃ newer older, adjacent_in newer older sessions
                ∧ last older = Some a ∧ head newer = Some b))
      ∧ (∀ a b, adjacent_in a b in_time_order → gap a b = threshold →
           ∃ s, s ∈ sessions ∧ adjacent_in a b s)
      ∧ (∀ a b, adjacent_in a b in_time_order → gap a b ≤ threshold →
           ∃ s, s ∈ sessions ∧ adjacent_in a b s)
  | Raise e =>
      e = OverflowError ∧ (2 ≤ length commits)%nat
      ∧ ¬ representable_hours gap_hours
  end.
Proof.
  intros threshold.
  destruct (group_into_sessions_built commits gap_hours)
    as [(Hdom & built & -> & Hc & Hn & Hk & Hf)|(Hlen & Hr & ->)]; [|done].
  cbv zeta. rewrite rev_involutive.
  set (in_time_order := concat built).
  pose proof (sorted_by_timestamp_sorted commits) as Hsorted.
  rewrite <- Hc in Hsorted. fold in_time_order in Hsorted.
  assert (∀ s, s ∈ rev built → s ∈ built) as Hin.
  { by intros s ?%list_elem_of_In%in_rev%list_elem_of_In. }
  assert (∀ s, s ∈ built → s ∈ rev built) as Hin'.
  { intros s ?. apply list_elem_of_In. rewrite <- in_rev.
    by apply list_elem_of_In. }
  assert (∀ a b, adjacent_in a b in_time_order →
            (∃ s, s ∈ rev built ∧ adjacent_in a b s)
            ∨ (∃ newer older, adjacent_in newer older (rev built)
                 ∧ last older = Some a ∧ head newer = Some b)) as Hcases.
  { intros a b Hadj.
    destruct (adjacent_in_concat a b built Hn Hadj)
      as [(s & Hs & H')|(s1 & s2 & H' & Ha & Hb)].
    - left. exists s. auto.
    - right. exists s2, s1. split; [|done].
      apply adjacent_in_rev. by rewrite rev_involutive. }
  assert (∀ newer older a b, adjacent_in newer older (rev built) →
            last older = Some a → head newer = Some b → threshold < gap a b)
    as Hfar.
  { intros newer older a b Hadj%adjacent_in_rev. by apply Hf. }
  assert (∀ a b, adjacent_in a b in_time_order → gap a b ≤ threshold →
            ∃ s, s ∈ rev built ∧ adjacent_in a b s) as Hsame.
  { intros a b Hadj Hle.
    destruct (Hcases a b Hadj) as [?|(newer & older & H' & Ha & Hb)]; [done|].
    pose proof (Hfar _ _ _ _ H' Ha Hb). lia. }
  split; [done|]. split.
  { subst in_time_order. by rewrite Hc, sorted_by_timestamp_perm. }
  split; [done|]. split.
  { apply Forall_forall. intros s Hs%Hin. revert s Hs. by apply Forall_forall. }
  split.
  { intros s a b Hs Hadj. split.
    - assert (adjacent_in a b in_time_order) as Hadj'.
      { subst in_time_order.
        apply Hin, list_elem_of_In, in_split in Hs as (l1 & l2 & ->).
        rewrite concat_app. simpl.
        by apply adjacent_in_app_r, adjacent_in_app_l. }
      pose proof (Sorted_adjacent_in _ _ _ _ Hsorted Hadj') as Hle.
      unfold by_time, gap in *. lia.
    - rewrite Forall_forall in Hk. apply (Hk s); [by apply Hin|done]. }
  split; [done|]. split; [done|]. split; [|done].
  intros a b Hadj Heq. apply Hsame; [done|lia].
Qed.

(** The scenario of the specification: commits at 09:00, 09:30 and 13:00
    with a gap of three hours form two sessions, the later one first. *)
Example morning_and_afternoon :
  group_into_sessions [Sample.thirteen; Sample.nine; Sample.half_past_nine] 3
    = Return [[Sample.thirteen]; [Sample.nine; Sample.half_past_nine]].
Proof. reflexivity. Qed.

(** A gap of exactly three hours does not open a session. *)
Example gap_equal_to_threshold :
  group_into_sessions
      [Sample.commit_at "a" (Sample.hours 9); Sample.commit_at "b" (Sample.hours 12)] 3
    = Return [[Sample.commit_at "a" (Sample.hours 9);
               Sample.commit_at "b" (Sample.hours 12)]].
Proof. reflexivity. Qed.

(** C9, as the code has it. Nothing rejects a negative gap threshold.
    For every negative threshold that [timedelta] accepts, and for every
    negative threshold when there are fewer than two commits,
    [group_into_sessions] returns a segmentation: every input commit is a
    session of its own, most recent first. A negative threshold below
    the range of [timedelta] raises an [OverflowError] at the first
    comparison of two commits. *)
Theorem group_into_sessions_negative_gap commits gap_hours :
  gap_hours < 0 →
  match group_into_sessions commits gap_hours with
  | Return sessions =>
      ((length commits < 2)%nat ∨ -23999999976 ≤ gap_hours)
      ∧ ∃ in_time_order,
          in_time_order ≡ₚ commits
          ∧ Sorted by_time in_time_order
          ∧ sessions = rev ((λ c, [c]) <$> in_time_order)
  | Raise e =>
      e = OverflowError ∧ (2 ≤ length commits)%nat
      ∧ gap_hours < -23999999976
  end.
Proof.
  intros Hneg.
  destruct (group_into_sessions_built commits gap_hours)
    as [(Hdom & _)|(Hlen & Hr & ->)]; last first.
  { unfold representable_hours in Hr. repeat split; [done|lia]. }
  pose proof (sorted_by_timestamp_sorted commits) as Hsorted.
  pose proof (sorted_by_timestamp_perm commits) as Hperm.
  pose proof (sorted_by_timestamp_length commits) as Hlen.
  assert (group_into_sessions commits gap_hours
          = Return (rev ((λ c, [c]) <$> sorted_by_timestamp commits)))
    as ->.
  { destruct commits as [|c0 commits]; [done|].
    unfold group_into_sessions.
    destruct (sorted_by_timestamp (c0 :: commits)) as [|first rest] eqn:E;
      [by apply sorted_by_timestamp_nonempty in E|].
    cbn [Py.index_first head tail].
    destruct Hdom as [Hshort|Hr].
    - destruct rest as [|c rest]; [done|]. simpl in *. lia.
    - assert (Py.timedelta_hours gap_hours = Some (hours_long gap_hours))
        as Hth by by apply timedelta_hours_Some.
      by rewrite (walk_negative gap_hours _ Hth). }
  split.
  - destruct Hdom as [?|Hr]; [by left|right].
    unfold representable_hours in Hr. lia.
  - by exists (sorted_by_timestamp commits).
Qed.

(** With a gap of -1 hour, two commits four hours apart are two sessions. *)
Lemma group_into_sessions_negative_gap_witness :
  -1 < 0
  ∧ match group_into_sessions [Sample.thirteen; Sample.nine] (-1) with
    | Return sessions =>
        ((length [Sample.thirteen; Sample.nine] < 2)%nat ∨ -23999999976 ≤ -1)
        ∧ ∃ in_time_order,
            in_time_order ≡ₚ [Sample.thirteen; Sample.nine]
            ∧ Sorted by_time in_time_order
            ∧ sessions = rev ((λ c, [c]) <$> in_time_order)
    | Raise e =>
        e = OverflowError
        ∧ (2 ≤ length [Sample.thirteen; Sample.nine])%nat
        ∧ -1 < -23999999976
    end.
Proof.
  split; [lia|].
  apply (group_into_sessions_negative_gap [Sample.thirteen; Sample.nine] (-1)).
  lia.
Defined.

(** C9, refuted as stated: a configuration whose session gap is negative
    passes [Config.validate], and segmentation with that gap returns a
    result instead of failing. *)
Lemma negative_gap_is_accepted :
  Config.SESSION_GAP_HOURS Sample.negative_gap < 0
  ∧ Config.validate Sample.negative_gap = true
  ∧ group_into_sessions [Sample.nine; Sample.half_past_nine]
      (Config.SESSION_GAP_HOURS Sample.negative_gap)
    = Return [[Sample.half_past_nine]; [Sample.nine]].
Proof. by vm_compute. Qed.
End session_claims.

(** * Temporal patterns *)

Section counting.
Import GitParser.
Context {K : Type} `{EqDecision K}.
Implicit Types (k h : K) (keys : list K) (d : list (K * Z)).

Lemma incr_keys k d :
  (incr k d).*1 = if decide (k ∈ d.*1) then d.*1 else d.*1 ++ [k].
Proof.
  induction d as [|[k' v] d IH]; [done|].
  cbn [incr]. destruct (decide (k = k')) as [->|Hne]; rewrite !fmap_cons.
  - by rewrite decide_True by left.
  - rewrite IH. cbn [fst]. repeat case_decide; set_solver.
Qed.

Lemma value_of_incr k k' d :
  value_of k' (incr k d) = if decide (k' = k) then value_of k' d + 1 else value_of k' d.
Proof.
  induction d as [|[k0 v] d IH]; simpl.
  - by repeat case_decide.
  - repeat (case_decide; simplify_eq/=); try done; try lia.
    all: rewrite IH; by repeat case_decide.
Qed.

Lemma value_of_elem_of k v d : NoDup d.*1 → (k, v) ∈ d → value_of k d = v.
Proof.
  induction d as [|[k0 v0] d IH]; simpl; intros Hnd Hin; [by inversion Hin|].
  apply NoDup_cons in Hnd as [Hk0 Hnd].
  apply elem_of_cons in Hin as [?|Hin]; simplify_eq.
  - by rewrite decide_True.
  - rewrite decide_False; [by apply IH|].
    intros ->. apply Hk0. apply list_elem_of_fmap. by exists (k0, v).
Qed.

Lemma count_keys {C} (key : C → K) (l : list C) (d0 : list (K * Z)) :
  (foldl (λ d c, incr (key c) d) d0 l).*1
  = foldl (λ seen k, if decide (k ∈ seen) then seen else seen ++ [k])
      d0.*1 (key <$> l).
Proof.
  revert d0. induction l as [|c l IH]; intros d0; simpl; [done|].
  by rewrite IH, incr_keys.
Qed.

Lemma count_values {C} (key : C → K) (l : list C) k :
  value_of k (foldl (λ d c, incr (key c) d) [] l) = occurrences k (key <$> l).
Proof.
  induction l as [|c l IH] using rev_ind; [done|].
  rewrite foldl_snoc, value_of_incr, IH. unfold occurrences.
  rewrite fmap_app, filter_app, length_app. simpl.
  rewrite filter_cons, filter_nil.
  repeat case_decide; simplify_eq/=; lia.
Qed.

Lemma occurrences_absent k keys : k ∉ keys → occurrences k keys = 0.
Proof.
  unfold occurrences. induction keys as [|x keys IH]; [done|].
  intros [Hx Hk]%not_elem_of_cons. rewrite filter_cons.
  rewrite decide_False by done. by apply IH.
Qed.

Lemma first_seen_elem_of keys k : k ∈ first_seen keys ↔ k ∈ keys.
Proof.
  unfold first_seen. induction keys as [|x keys IH] using rev_ind; [done|].
  rewrite foldl_snoc. case_decide; set_solver.
Qed.

Lemma first_seen_NoDup keys : NoDup (first_seen keys).
Proof.
  unfold first_seen. induction keys as [|x keys IH] using rev_ind;
    [constructor|].
  rewrite foldl_snoc. case_decide; [done|].
  apply NoDup_app. repeat split; [done| |apply NoDup_singleton].
  intros y Hy ->%list_elem_of_singleton. done.
Qed.

(** A key of [first_seen] splits the input at its first occurrence; what
    comes before it in the input is seen before it. *)
Lemma first_seen_split keys f1 h f2 :
  first_seen keys = f1 ++ h :: f2 →
  ∃ before after, keys = before ++ h :: after ∧ ∀ k, k ∈ before → k ∈ f1.
Proof.
  revert f1 f2. induction keys as [|x keys IH] using rev_ind; intros f1 f2.
  - by destruct f1.
  - unfold first_seen. rewrite foldl_snoc. fold (first_seen keys).
    case_decide as Hx.
    + intros (before & after & -> & Hb)%IH.
      exists before, (after ++ [x]). by rewrite <- app_assoc.
    + destruct f2 as [|y f2 _] using rev_ind.
      * intros [E ->]%app_inj_tail. exists keys, []. split; [done|].
        intros k. by rewrite <- E, first_seen_elem_of.
      * rewrite app_comm_cons, app_assoc.
        intros [(before & after & -> & Hb)%IH ->]%app_inj_tail.
        exists before, (after ++ [y]). by rewrite <- app_assoc.
Qed.

(** [max] keeps the first item whose value is maximal. *)
Lemma max_fold_first (items : list (K * Z)) : ∀ best h v,
  foldl (λ best item, if snd best <? snd item then item else best) best items
    = (h, v) →
  (best = (h, v) ∧ ∀ k' v', (k', v') ∈ items → v' ≤ v)
  ∨ ∃ i1 i2, items = i1 ++ (h, v) :: i2
      ∧ snd best < v
      ∧ (∀ k' v', (k', v') ∈ i1 → v' < v)
      ∧ (∀ k' v', (k', v') ∈ i2 → v' ≤ v).
Proof.
  induction items as [|[k0 v0] items IH]; intros best h v; simpl.
  - intros ->. left. split; [done|]. intros ? ? Hin. inversion Hin.
  - case_match eqn:Hlt; [apply Z.ltb_lt in Hlt|apply Z.ltb_ge in Hlt];
      simpl in Hlt; intros [[E Hall]|(i1 & i2 & -> & Hb & H1 & H2)]%IH.
    + simplify_eq. right. exists [], items. repeat split; auto.
      intros ? ? Hin. inversion Hin.
    + right. exists ((k0, v0) :: i1), i2. simpl in *. repeat split; auto; [lia|].
      intros k' v' [?|?]%elem_of_cons; simplify_eq; eauto.
    + left. split; [done|]. subst best. simpl in *.
      intros k' v' [?|?]%elem_of_cons; simplify_eq; eauto.
    + right. exists ((k0, v0) :: i1), i2. repeat split; auto.
      intros k' v' [?|?]%elem_of_cons; simplify_eq; eauto. lia.
Qed.

Lemma max_by_value_first (items : list (K * Z)) h v :
  max_by_value items = Some (h, v) →
  ∃ i1 i2, items = i1 ++ (h, v) :: i2
    ∧ (∀ k' v', (k', v') ∈ i1 → v' < v)
    ∧ (∀ k' v', (k', v') ∈ i2 → v' ≤ v).
Proof.
  destruct items as [|first others]; simpl; [done|].
  intros [= [[-> Hall]|(i1 & i2 & -> & Hb & H1 & H2)]%max_fold_first].
  - exists [], others. repeat split; auto. intros ? ? Hin. inversion Hin.
  - exists (first :: i1), i2. repeat split; auto.
    intros k' v' [?|?]%elem_of_cons; simplify_eq; eauto.
Qed.

(** The peak of a counting dictionary is the first maximal key of the
    input, whatever the fallback. *)
Lemma peak_count_by (key : commit → K) (l : list commit) fallback :
  l ≠ [] → first_maximal (key <$> l) (peak (count_by key l) fallback).
Proof.
  intros Hne. set (keys := key <$> l). set (d := count_by key l).
  assert (d.*1 = first_seen keys) as Hkeys by apply (count_keys key l []).
  assert (NoDup d.*1) as Hnd by (rewrite Hkeys; apply first_seen_NoDup).
  assert (∀ k v, (k, v) ∈ d → v = occurrences k keys) as Hval.
  { intros k v Hin. rewrite <- (value_of_elem_of k v d) by done.
    apply count_values. }
  assert (d ≠ []) as Hd.
  { intros E. destruct l as [|c l]; [done|].
    assert (key c ∈ first_seen keys) as Hin
      by (apply first_seen_elem_of; left).
    rewrite <- Hkeys, E in Hin. inversion Hin. }
  unfold peak. destruct d as [|item d'] eqn:Ed; [done|]. rewrite <- Ed in *.
  destruct (max_by_value d) as [[h v]|] eqn:Hmax; [|by rewrite Ed in Hmax].
  simpl. apply max_by_value_first in Hmax as (i1 & i2 & Hsplit & H1 & H2).
  assert (v = occurrences h keys) as Hv.
  { apply Hval. rewrite Hsplit. set_solver. }
  pose proof Hkeys as Hkeys0.
  rewrite Hsplit, fmap_app in Hkeys. simpl in Hkeys. symmetry in Hkeys.
  apply first_seen_split in Hkeys as (before & after & Hk & Hb).
  assert (∀ k, k ∈ before → occurrences k keys < occurrences h keys) as Hlt.
  { intros k [[k' v'] [-> Hin]]%Hb%list_elem_of_fmap. simpl.
    rewrite <- Hv, <- (Hval k' v'); [by eapply H1|].
    rewrite Hsplit. set_solver. }
  split.
  - intros k. destruct (decide (k ∈ keys)) as [Hin|Hnot].
    + apply first_seen_elem_of in Hin.
      rewrite <- Hkeys0 in Hin.
      apply list_elem_of_fmap in Hin as [[k' v'] [-> Hin]].
      simpl. rewrite <- (Hval _ _ Hin), <- Hv. rewrite Hsplit in Hin.
      apply elem_of_app in Hin as [Hin|[?|Hin]%elem_of_cons];
        simplify_eq; [apply H1 in Hin; lia|lia|by eapply H2].
    + rewrite (occurrences_absent k keys Hnot). unfold occurrences. lia.
  - exists before, after. split; [done|]. split; [|done].
    intros Hin%Hlt. lia.
Qed.
End counting.

Section temporal_claims.
Import GitParser.

(** C5, as the code has it. For every non-empty commit list,
    [analyze_temporal_patterns] selects as [peak_hour] ([peak_day]) an
    hour (weekday) of maximal commit count, and among the hours (days)
    that tie for the maximum the one whose first commit comes first in
    the input list: every hour (day) met in the input before the first
    commit of the peak has a strictly smaller count. *)
Theorem analyze_temporal_patterns_peak (commits : list commit) :
  commits ≠ [] →
  ∃ r, analyze_temporal_patterns commits = Some r
    ∧ first_maximal ((λ c, hour (timestamp c)) <$> commits) (peak_hour r)
    ∧ first_maximal ((λ c, weekday (timestamp c)) <$> commits) (peak_day r).
Proof.
  intros Hne. unfold analyze_temporal_patterns.
  destruct commits as [|c rest] eqn:E; [done|]. rewrite <- E.
  eexists. split; [done|]. simpl. split; by apply peak_count_by; rewrite E.
Qed.

(** The statement at a Thursday commit followed by a Friday commit. *)
Lemma analyze_temporal_patterns_peak_witness :
  ∃ r, analyze_temporal_patterns
         [Sample.thirteen; Sample.friday_eight] = Some r
    ∧ first_maximal
        ((λ c, hour (timestamp c)) <$>
           [Sample.thirteen; Sample.friday_eight])
        (peak_hour r)
    ∧ first_maximal
        ((λ c, weekday (timestamp c)) <$>
           [Sample.thirteen; Sample.friday_eight])
        (peak_day r).
Proof.
  apply (analyze_temporal_patterns_peak
           [Sample.thirteen; Sample.friday_eight]).
  discriminate.
Defined.

(** C5, refuted as stated: with one commit on Thursday at 13:00 and one
    on Friday at 08:00 the hours 8 and 13 tie and the days tie. Listed
    Thursday first, the peak hour is 13 although 8 comes first in
    ascending order; listed Friday first, the peak hour becomes 8 and the
    peak day is Friday although Thursday comes first in the week. *)
Lemma peak_follows_input_order :
  (by_hour <$> analyze_temporal_patterns
     [Sample.thirteen; Sample.friday_eight])
    = Some [(13, 1); (8, 1)]
  ∧ (peak_hour <$> analyze_temporal_patterns
       [Sample.thirteen; Sample.friday_eight]) = Some 13
  ∧ (peak_hour <$> analyze_temporal_patterns
       [Sample.friday_eight; Sample.thirteen]) = Some 8
  ∧ (by_day <$> analyze_temporal_patterns
       [Sample.friday_eight; Sample.thirteen])
    = Some [("Friday"%string, 1); ("Thursday"%string, 1)]
  ∧ (peak_day <$> analyze_temporal_patterns
       [Sample.friday_eight; Sample.thirteen])
    = Some "Friday"%string
  ∧ (peak_day <$> analyze_temporal_patterns
       [Sample.thirteen; Sample.friday_eight])
    = Some "Thursday"%string.
Proof. by vm_compute. Qed.
End temporal_claims.

(** * Quality scores *)

Section quality.
Import QualityScorer.
Local Open Scope float_scope.

Ltac in_values := vm_compute; repeat (first [left; reflexivity | right]).

(** On floats, [x < y] excludes [y <= x]. *)
Lemma SFcompare_Lt_flip x y : SFcompare x y = Some Lt → SFcompare y x = Some Gt.
Proof.
  destruct x as [s1|s1| |s1 m1 e1], y as [s2|s2| |s2 m2 e2];
    cbn [SFcompare];
    try destruct s1; try destruct s2; try done.
  all: change (Pos.compare_cont Eq m2 m1)
         with (Pos.compare_cont (CompOpp Eq) m2 m1).
  all: rewrite (Z.compare_antisym e1 e2), <- (Pos.compare_cont_antisym m1 m2 Eq).
  all: destruct (e1 ?= e2)%Z; cbn [CompOpp]; try done.
  all: by destruct (Pos.compare_cont Eq m1 m2).
Qed.

Lemma ltb_excludes_leb x y : (x <? y) = true → (y <=? x) = false.
Proof.
  rewrite ltb_spec, leb_spec. unfold SFltb, SFleb.
  destruct (SFcompare (Prim2SF x) (Prim2SF y)) as [[]|] eqn:E; try done.
  by rewrite (SFcompare_Lt_flip _ _ E).
Qed.

Lemma first_word_None message :
  first_word message = None ↔ message ≠ EmptyString ∧ Py.split message = [].
Proof.
  unfold first_word, Py.index_first. destruct message as [|a s]; [by split; [|intros []]|].
  destruct (Py.split (String a s)) as [|w ws]; simpl; split; try done.
  by intros [_ ?].
Qed.

Lemma message_quality_values message x :
  _score_message_quality message = Some x → In x message_scores.
Proof.
  unfold _score_message_quality.
  destruct (first_word message) as [w|]; [|done]. cbn [mbind option_bind].
  repeat case_match; intros [= <-]; in_values.
Qed.

Lemma message_quality_None message :
  _score_message_quality message = None ↔ first_word message = None.
Proof.
  unfold _score_message_quality.
  by destruct (first_word message) as [w|].
Qed.

Lemma size_values cfg c : In (_score_size_appropriateness cfg c) size_scores.
Proof.
  unfold _score_size_appropriateness, size_tier.
  destruct (10 <? files_changed c)%Z eqn:H10;
    [|destruct (20 <? files_changed c)%Z eqn:H20;
       [apply Z.ltb_ge in H10; apply Z.ltb_lt in H20; lia|]];
    repeat case_match; in_values.
Qed.

Lemma focus_values c : In (_score_focus c) focus_scores.
Proof. unfold _score_focus. repeat case_match; in_values. Qed.

Lemma all_scores_in_unit m s f :
  In m message_scores → In s size_scores → In f focus_scores →
  scores_in_unit m s f = true.
Proof.
  assert (forallb (λ m, forallb (λ s, forallb (scores_in_unit m s)
            focus_scores) size_scores) message_scores = true) as Hall
    by (vm_compute; reflexivity).
  intros Hm Hs Hf.
  rewrite forallb_forall in Hall. specialize (Hall m Hm).
  rewrite forallb_forall in Hall. specialize (Hall s Hs).
  rewrite forallb_forall in Hall. by apply Hall.
Qed.
End quality.

Section quality_claims.
Import QualityScorer.
Local Open Scope float_scope.

(** The scores of a commit. For every configuration and commit,
    [_score_single_commit] fails only on a non-empty message made of
    white space alone; otherwise the three sub-scores and their mean lie
    in [0,1] both as computed and as reported after rounding to two
    decimals, the reported overall is the rounded mean, and the grade is
    read off the mean before rounding: 'A' when the mean is at least the
    high threshold, 'B' when it is at least the low threshold and below
    the high one, 'C' when it is below both. *)
Theorem score_single_commit_bounds (cfg : Config.t) (c : commit) :
  match _score_single_commit cfg c with
  | None => message c ≠ EmptyString ∧ Py.split (message c) = []
  | Some r =>
      ∃ m, _score_message_quality (message c) = Some m
        ∧ let s := _score_size_appropriateness cfg c in
          let f := _score_focus c in
          let mean := mean3 m s f in
          in_unit m = true ∧ in_unit s = true ∧ in_unit f = true
          ∧ in_unit mean = true
          ∧ in_unit (message_quality r) = true
          ∧ in_unit (size_appropriateness r) = true
          ∧ in_unit (focus r) = true
          ∧ in_unit (overall r) = true
          ∧ overall r = Py.round2 mean
          ∧ grade r = grade_of cfg mean
          ∧ ((Config.QUALITY_THRESHOLD_HIGH cfg <=? mean) = true →
               grade r = "A"%string)
          ∧ ((Config.QUALITY_THRESHOLD_LOW cfg <=? mean) = true →
             (mean <? Config.QUALITY_THRESHOLD_HIGH cfg) = true →
               grade r = "B"%string)
          ∧ ((mean <? Config.QUALITY_THRESHOLD_LOW cfg) = true →
             (mean <? Config.QUALITY_THRESHOLD_HIGH cfg) = true →
               grade r = "C"%string)
  end.
Proof.
  unfold _score_single_commit.
  destruct (_score_message_quality (message c)) as [m|] eqn:Hm;
    cbn [mbind option_bind].
  - exists m. split; [done|]. cbn zeta.
    pose proof (all_scores_in_unit m _ _
      (message_quality_values _ _ Hm) (size_values cfg c) (focus_values c))
      as Hall.
    unfold scores_in_unit in Hall.
    repeat (apply andb_prop in Hall as [Hall ?]).
    cbn [message_quality size_appropriateness focus overall grade].
    unfold grade_of.
    repeat apply conj; try done.
    + by apply andb_true_intro.
    + by intros ->.
    + intros -> Hhigh%ltb_excludes_leb. by rewrite Hhigh.
    + intros Hlow%ltb_excludes_leb Hhigh%ltb_excludes_leb.
      by rewrite Hlow, Hhigh.
  - by apply first_word_None, message_quality_None.
Qed.

(** C4, what the code does at the failing input. For a commit with a
    full message score, 200 changed lines and two directories, the mean
    of the sub-scores 1.0, 0.65 and 0.75 is computed as
    0.7999999999999999. The grade is read off that mean and is 'B',
    while the overall score reported beside it is the mean rounded to
    two decimals, 0.8, which reaches the high threshold 0.8.
    [get_summary_stats], which reads the reported score, counts the same
    commit as high quality and not as medium quality. *)
Theorem grade_disagrees_with_reported_overall :
  let cfg := Config.defaults None in
  mean3 1.0 0.65 0.75 = 0.7999999999999999
  ∧ (mean3 1.0 0.65 0.75 <? Config.QUALITY_THRESHOLD_HIGH cfg) = true
  ∧ _score_single_commit cfg Sample.borderline
    = Some {| message_quality := 1.0; size_appropriateness := 0.65;
              focus := 0.75; overall := 0.8; grade := "B" |}
  ∧ (Config.QUALITY_THRESHOLD_HIGH cfg <=? 0.8) = true
  ∧ ∃ scored_list stats,
      score_commits cfg [Sample.borderline] = Some scored_list
      ∧ grade ∘ score <$> scored_list = ["B"%string]
      ∧ get_summary_stats cfg scored_list = Some stats
      ∧ high_quality stats = 1%nat ∧ medium_quality stats = 0%nat.
Proof.
  cbv zeta. split; [by vm_compute|]. split; [by vm_compute|].
  split; [by vm_compute|]. split; [by vm_compute|].
  eexists _, _. split; [by vm_compute|]. by vm_compute.
Qed.

(** The scenario of the specification: one file in one directory and 30
    changed lines score 1.0 for size and 1.0 for focus. *)
Example small_focused_commit :
  let c := {| hash := "abcdef0"; message := "Add parser"; timestamp := 0;
              files_changed := 1; insertions := 20; deletions := 10;
              files := ["src/parser.py"%string] |} in
  _score_size_appropriateness (Config.defaults None) c = 1.0
  ∧ _score_focus c = 1.0.
Proof. by vm_compute. Qed.

(** C6, what the code does. For every commit that changes more than 20
    files, the size sub-score is the tier score times the milder
    multiplier 0.8; the test for more than 20 files is only reached
    when the count is at most 10. *)
Theorem size_penalty_above_both_tiers (cfg : Config.t) (c : commit) :
  (20 < files_changed c)%Z →
  _score_size_appropriateness cfg c
    = size_tier cfg (insertions c + deletions c) * 0.8.
Proof.
  intros Hfiles. unfold _score_size_appropriateness.
  destruct (10 <? files_changed c)%Z eqn:H10; [done|].
  apply Z.ltb_ge in H10. lia.
Qed.

(** At 25 files and 10 changed lines the sub-score is 0.8, not the 0.6 of
    the stricter multiplier. *)
Lemma size_penalty_above_both_tiers_witness :
  (20 < files_changed Sample.sweeping)%Z
  ∧ _score_size_appropriateness (Config.defaults None) Sample.sweeping
    = 0.8.
Proof.
  split; [by vm_compute|].
  rewrite (size_penalty_above_both_tiers (Config.defaults None)
             Sample.sweeping); by vm_compute.
Defined.

(** C7, as the code has it. The message "fix" receives the
    message-quality sub-score 0.7000000000000001, which is not below 0.5
    (its imperative verb and its non-generic wording outweigh its
    length), and the retry message receives 1.0, above 0.85. *)
Theorem message_quality_examples :
  _score_message_quality "fix" = Some 0.7000000000000001
  ∧ (0.7000000000000001 <? 0.5) = false
  ∧ (0.5 <=? 0.7000000000000001) = true
  ∧ _score_message_quality Sample.retry_message = Some 1.0
  ∧ (0.85 <? 1.0) = true.
Proof. by vm_compute. Qed.

(** C7, refuted as stated: the sub-score of "fix" is at least 0.5. *)
Lemma fix_scores_at_least_half :
  ∃ x, _score_message_quality "fix" = Some x
    ∧ (x <? 0.5) = false ∧ (0.5 <=? x) = true.
Proof. eexists. by vm_compute. Qed.
End quality_claims.

(** * The response cache *)

Section cache.
Import CacheManager CacheProps.
Context `{Library}.
Implicit Types (cfg : Config.t) (self : t) (now : Z) (f : file)
  (open_ok unlink_ok : bool)
  (prompt model : string) (params : option (gmap string json))
  (max_age_hours : option Z).

Lemma get_absent cfg self now open_ok unlink_ok prompt model params
    max_age_hours :
  enabled self = true →
  cache_dir self !! _generate_cache_key prompt model params = None →
  get cfg self now open_ok unlink_ok prompt model params max_age_hours
    = (Return JNull, count_miss self).
Proof. intros He Hk. unfold get. by rewrite He, Hk. Qed.

Lemma get_unopened cfg self now unlink_ok prompt model params max_age_hours f :
  enabled self = true →
  cache_dir self !! _generate_cache_key prompt model params = Some f →
  get cfg self now false unlink_ok prompt model params max_age_hours
    = (Raise OSError, self).
Proof. intros He Hk. unfold get. by rewrite He, Hk. Qed.

Lemma get_try_corrupt cfg self now f max_age_hours :
  corrupt f →
  ∃ e, get_try cfg self now true f max_age_hours = (inl e, self)
     ∧ handled e = true.
Proof.
  intros [->|(d & -> & [Hd|(s & Hd & Hs)])]; unfold get_try; simpl;
    rewrite ?Hd; simpl; rewrite ?Hs; eauto.
Qed.

Lemma get_corrupt cfg self now unlink_ok prompt model params max_age_hours f :
  enabled self = true →
  cache_dir self !! _generate_cache_key prompt model params = Some f →
  corrupt f →
  get cfg self now true unlink_ok prompt model params max_age_hours
  = if unlink_ok
    then (Return JNull,
          count_miss (with_dir self
            (delete (_generate_cache_key prompt model params)
               (cache_dir self))))
    else (Raise OSError, self).
Proof.
  intros He Hk Hc. unfold get. rewrite He, Hk. cbn [negb].
  destruct (get_try_corrupt cfg self now f max_age_hours Hc) as (e & -> & ->).
  done.
Qed.

Lemma get_try_readable cfg self now f max_age_hours created d :
  readable f created d →
  get_try cfg self now true f max_age_hours
  = match max_age_of cfg max_age_hours with
    | None => (inl OverflowError, self)
    | Some limit =>
        if limit <? now - created then (inr JNull, count_miss self)
        else match d !! "response"%string with
             | Some response => (inr response, count_hit self)
             | None => (inl KeyError, count_hit self)
             end
    end.
Proof.
  intros (-> & s & Hd & Hs). unfold get_try, max_age_of, max_age_hours_of.
  simpl. rewrite Hd. simpl. rewrite Hs. simpl.
  destruct (Py.timedelta_hours _) as [limit|]; [|done].
  destruct (limit <? now - created); [done|].
  by destruct (d !! "response"%string).
Qed.

Lemma get_overflow cfg self now unlink_ok prompt model params max_age_hours
    f created d :
  enabled self = true →
  cache_dir self !! _generate_cache_key prompt model params = Some f →
  readable f created d →
  max_age_of cfg max_age_hours = None →
  get cfg self now true unlink_ok prompt model params max_age_hours
    = (Raise OverflowError, self).
Proof.
  intros He Hk Hr Hage. unfold get. rewrite He, Hk. cbn [negb].
  by rewrite (get_try_readable _ _ _ _ _ created d Hr), Hage.
Qed.

Lemma get_stale cfg self now unlink_ok prompt model params max_age_hours
    f created d max_age :
  enabled self = true →
  cache_dir self !! _generate_cache_key prompt model params = Some f →
  readable f created d →
  max_age_of cfg max_age_hours = Some max_age →
  max_age < now - created →
  get cfg self now true unlink_ok prompt model params max_age_hours
    = (Return JNull, count_miss self).
Proof.
  intros He Hk Hr Hage Hlt%Z.ltb_lt. unfold get. rewrite He, Hk. cbn [negb].
  by rewrite (get_try_readable _ _ _ _ _ created d Hr), Hage, Hlt.
Qed.

Lemma get_fresh cfg self now unlink_ok prompt model params max_age_hours
    f created d max_age r :
  enabled self = true →
  cache_dir self !! _generate_cache_key prompt model params = Some f →
  readable f created d →
  max_age_of cfg max_age_hours = Some max_age →
  now - created ≤ max_age →
  d !! "response"%string = Some r →
  get cfg self now true unlink_ok prompt model params max_age_hours
    = (Return r, count_hit self).
Proof.
  intros He Hk Hr Hage Hle%Z.ltb_ge Hresp. unfold get.
  rewrite He, Hk. cbn [negb].
  by rewrite (get_try_readable _ _ _ _ _ created d Hr), Hage, Hle, Hresp.
Qed.

Lemma get_fresh_no_response cfg self now unlink_ok prompt model params
    max_age_hours f created d max_age :
  enabled self = true →
  cache_dir self !! _generate_cache_key prompt model params = Some f →
  readable f created d →
  max_age_of cfg max_age_hours = Some max_age →
  now - created ≤ max_age →
  d !! "response"%string = None →
  get cfg self now true unlink_ok prompt model params max_age_hours
  = if unlink_ok
    then (Return JNull,
          count_miss (with_dir (count_hit self)
            (delete (_generate_cache_key prompt model params)
               (cache_dir self))))
    else (Raise OSError, count_hit self).
Proof.
  intros He Hk Hr Hage Hle%Z.ltb_ge Hresp. unfold get.
  rewrite He, Hk. cbn [negb].
  by rewrite (get_try_readable _ _ _ _ _ created d Hr), Hage, Hle, Hresp.
Qed.

Lemma get_mistyped cfg self now unlink_ok prompt model params max_age_hours f :
  enabled self = true →
  cache_dir self !! _generate_cache_key prompt model params = Some f →
  mistyped f →
  get cfg self now true unlink_ok prompt model params max_age_hours
    = (Raise TypeError, self).
Proof.
  intros He Hk (j & -> & Hj). unfold get. rewrite He, Hk.
  unfold get_try. simpl.
  destruct Hj as [Hj|(d & v & -> & Hd & Hv)].
  - by destruct j.
  - simpl. rewrite Hd.
    destruct Hv as [Hv|(s & t & utcoffset & -> & Hs)].
    + by destruct v.
    + simpl. by rewrite Hs.
Qed.

(** Every file falls under one of the three descriptions. *)
Lemma file_cases f :
  corrupt f ∨ mistyped f ∨ ∃ created d, readable f created d.
Proof.
  destruct f as [|j]; [by left; left|].
  destruct (is_dict j) eqn:Hj; [|right; left; exists j; auto].
  destruct j as [| | | | | |d]; try done.
  destruct (d !! "timestamp"%string) as [v|] eqn:Hd;
    [|left; right; exists d; auto].
  destruct (is_str v) eqn:Hv;
    [|right; left; exists (JDict d); split; [done|]; right; exists d, v; auto].
  destruct v as [| | | |s| |]; try done.
  destruct (fromisoformat s) as [[created|t utcoffset]|] eqn:Hs.
  - right; right. exists created, d. split; [done|]. by exists s.
  - right; left. exists (JDict d). split; [done|]. right. exists d, (JStr s).
    split; [done|]. split; [done|]. right. by exists s, t, utcoffset.
  - left; right. exists d. split; [done|]. right. by exists s.
Qed.

(** The three descriptions exclude one another. *)
Lemma readable_not_corrupt f created d : readable f created d → ¬ corrupt f.
Proof.
  intros (-> & s & Hd & Hs) [?|(d' & [= <-] & [Hd'|(s' & Hd' & Hs')])];
    [done|congruence|]. rewrite Hd in Hd'. injection Hd' as <-. congruence.
Qed.

Lemma readable_not_mistyped f created d : readable f created d → ¬ mistyped f.
Proof.
  intros (-> & s & Hd & Hs) (j & [= <-] & [?|(d' & v & [= <-] & Hd' & Hv)]);
    [done|]. rewrite Hd in Hd'. injection Hd' as <-.
  destruct Hv as [?|(s' & t & o & [= <-] & Hs')]; [done|congruence].
Qed.

Lemma get_value_inv cfg self now open_ok unlink_ok prompt model params
    max_age_hours v self' :
  enabled self = true →
  get cfg self now open_ok unlink_ok prompt model params max_age_hours
    = (Return v, self') →
  v ≠ JNull →
  ∃ f created d max_age,
    cache_dir self !! _generate_cache_key prompt model params = Some f
    ∧ open_ok = true
    ∧ readable f created d
    ∧ max_age_of cfg max_age_hours = Some max_age
    ∧ now - created ≤ max_age
    ∧ d !! "response"%string = Some v
    ∧ self' = count_hit self.
Proof.
  intros He Hget Hv.
  destruct (cache_dir self !! _generate_cache_key prompt model params)
    as [f|] eqn:Hk; last first.
  { rewrite get_absent in Hget by done. by injection Hget as <- <-. }
  destruct open_ok; last first.
  { by rewrite (get_unopened _ _ _ _ _ _ _ _ f) in Hget. }
  destruct (file_cases f) as [Hc|[Hm|(created & d & Hr)]].
  - rewrite (get_corrupt _ _ _ _ _ _ _ _ f) in Hget by done.
    destruct unlink_ok; [by injection Hget as <- <-|done].
  - by rewrite (get_mistyped _ _ _ _ _ _ _ _ f) in Hget.
  - destruct (max_age_of cfg max_age_hours) as [max_age|] eqn:Hage; last first.
    { by rewrite (get_overflow _ _ _ _ _ _ _ _ f created d) in Hget. }
    destruct (Z.lt_ge_cases max_age (now - created)) as [Hlt|Hle].
    { rewrite (get_stale _ _ _ _ _ _ _ _ f created d max_age) in Hget by done.
      by injection Hget as <- <-. }
    destruct (d !! "response"%string) as [r|] eqn:Hresp.
    + rewrite (get_fresh _ _ _ _ _ _ _ _ f created d max_age r) in Hget
        by done.
      injection Hget as <- <-. by exists f, created, d, max_age.
    + rewrite (get_fresh_no_response _ _ _ _ _ _ _ _ f created d max_age)
        in Hget by done.
      destruct unlink_ok; [by injection Hget as <- <-|done].
Qed.
End cache.

Section cache_claims.
Import CacheManager CacheProps.
Implicit Types (cfg : Config.t) (self : t) (now : Z) (f : file)
  (open_ok unlink_ok : bool)
  (prompt model : string) (params : option (gmap string json))
  (max_age_hours : option Z).

(** C3, as the code has it. On an enabled cache, [get] returns [None]
    and counts a miss when there is no entry, when the entry is corrupt,
    and when the entry is older than the maximum age; a corrupt entry's
    file is deleted by the read, a stale entry's file is left in place.
    An entry whose age is at most the maximum age (equality included)
    counts a hit and its stored response is returned. A value other than
    [None] is returned only in that last case. A fresh entry without a
    ["response"] is deleted after the hit was counted, and counts a miss
    as well. The remaining reads raise: an [OSError] when the file cannot
    be opened, or cannot be unlinked where it would be deleted; a
    [TypeError] for a document of the wrong shape or a time stamp with a
    UTC offset; an [OverflowError] when [timedelta] does not accept the
    maximum age. A read that raises counts no miss and keeps the file.
    Every file is corrupt, of the wrong shape, or readable. *)
Theorem get_outcomes `{Library} cfg self now open_ok unlink_ok prompt model
    params max_age_hours :
  enabled self = true →
  let key := _generate_cache_key prompt model params in
  let read :=
    get cfg self now open_ok unlink_ok prompt model params max_age_hours in
  (cache_dir self !! key = None → read = (Return JNull, count_miss self))
  ∧ (∀ f, cache_dir self !! key = Some f → open_ok = true → corrupt f →
       unlink_ok = true →
       read = (Return JNull,
               count_miss (with_dir self (delete key (cache_dir self))))
       ∧ cache_dir (snd read) !! key = None)
  ∧ (∀ f created d max_age,
       cache_dir self !! key = Some f → open_ok = true →
       readable f created d →
       max_age_of cfg max_age_hours = Some max_age →
       max_age < now - created →
       read = (Return JNull, count_miss self)
       ∧ cache_dir (snd read) !! key = Some f)
  ∧ (∀ f created d max_age r,
       cache_dir self !! key = Some f → open_ok = true →
       readable f created d →
       max_age_of cfg max_age_hours = Some max_age →
       now - created ≤ max_age → d !! "response"%string = Some r →
       read = (Return r, count_hit self))
  ∧ (∀ v self', read = (Return v, self') → v ≠ JNull →
       ∃ f created d max_age,
         cache_dir self !! key = Some f ∧ open_ok = true
         ∧ readable f created d
         ∧ max_age_of cfg max_age_hours = Some max_age
         ∧ now - created ≤ max_age ∧ d !! "response"%string = Some v
         ∧ self' = count_hit self)
  ∧ (∀ f created d max_age,
       cache_dir self !! key = Some f → open_ok = true →
       readable f created d →
       max_age_of cfg max_age_hours = Some max_age →
       now - created ≤ max_age → d !! "response"%string = None →
       read = if unlink_ok
              then (Return JNull,
                    count_miss (with_dir (count_hit self)
                      (delete key (cache_dir self))))
              else (Raise OSError, count_hit self))
  ∧ (∀ f, cache_dir self !! key = Some f → open_ok = false →
       read = (Raise OSError, self))
  ∧ (∀ f, cache_dir self !! key = Some f → open_ok = true → corrupt f →
       unlink_ok = false → read = (Raise OSError, self))
  ∧ (∀ f, cache_dir self !! key = Some f → open_ok = true → mistyped f →
       read = (Raise TypeError, self))
  ∧ (∀ f created d,
       cache_dir self !! key = Some f → open_ok = true →
       readable f created d → max_age_of cfg max_age_hours = None →
       read = (Raise OverflowError, self))
  ∧ (∀ f, corrupt f ∨ mistyped f ∨ ∃ created d, readable f created d).
Proof.
  intros He key read. subst read. repeat apply conj.
  - by apply get_absent.
  - intros f Hk -> Hc ->. rewrite (get_corrupt _ _ _ _ _ _ _ _ f) by done.
    split; [done|]. simpl. apply lookup_delete_eq.
  - intros f created d max_age Hk -> Hr Hage Hlt.
    by rewrite (get_stale _ _ _ _ _ _ _ _ f created d max_age).
  - intros f created d max_age r Hk ->. by apply get_fresh.
  - intros v self'. by apply get_value_inv.
  - intros f created d max_age Hk ->. by apply get_fresh_no_response.
  - intros f Hk ->. by apply (get_unopened _ _ _ _ _ _ _ _ f).
  - intros f Hk -> Hc ->. by rewrite (get_corrupt _ _ _ _ _ _ _ _ f).
  - intros f Hk ->. by apply get_mistyped.
  - intros f created d Hk ->. by apply get_overflow.
  - apply file_cases.
Qed.


(** C10. On an enabled cache, for every readable entry whose age is at
    most the configured default maximum age (24 hours by default, and a
    number of hours that [timedelta] accepts), [get] with
    [max_age_hours = 0] returns the stored response as a hit, exactly as
    a [get] without the argument does: the zero is replaced by the
    default and is not enforced as a maximum age. *)
Theorem get_zero_max_age_is_default `{Library} cfg self now unlink_ok prompt
    model params f created d r default_age :
  enabled self = true →
  cache_dir self !! _generate_cache_key prompt model params = Some f →
  readable f created d →
  d !! "response"%string = Some r →
  Py.timedelta_hours (Config.CACHE_MAX_AGE_HOURS cfg) = Some default_age →
  now - created ≤ default_age →
  get cfg self now true unlink_ok prompt model params (Some 0)
    = (Return r, count_hit self)
  ∧ get cfg self now true unlink_ok prompt model params (Some 0)
    = get cfg self now true unlink_ok prompt model params None.
Proof.
  intros He Hk Hr Hresp Hdefault Hage.
  rewrite (get_fresh cfg self now unlink_ok prompt model params (Some 0)
             f created d default_age r),
    (get_fresh cfg self now unlink_ok prompt model params None
       f created d default_age r); done.
Qed.

End cache_claims.

Section cache_samples.
Import CacheManager CacheProps.
#[local] Existing Instance SampleCache.library.

(** An entry exactly 24 hours old is still fresh under the default
    maximum age. *)
Lemma get_outcomes_witness :
  enabled SampleCache.one_entry = true
  ∧ get (Config.defaults None) SampleCache.one_entry (24 * SampleCache.hour)
      true true "p" "m" None None
    = (Return (JStr "answer"), count_hit SampleCache.one_entry).
Proof.
  split; [reflexivity|].
  destruct (get_outcomes (Config.defaults None) SampleCache.one_entry
              (24 * SampleCache.hour) true true "p" "m" None None eq_refl)
    as (_ & _ & _ & Hfresh & _).
  apply (Hfresh (SampleCache.entry "0" (JStr "answer")) 0
           (<["timestamp"%string := JStr "0"]>
              (<["response"%string := JStr "answer"]> ∅))
           (24 * SampleCache.hour)).
  - by vm_compute.
  - reflexivity.
  - split; [reflexivity|]. exists "0"%string. by vm_compute.
  - by vm_compute.
  - by vm_compute.
  - by vm_compute.
Defined.

(** C3, refuted as stated: an entry created 25 hours before a read with
    the default maximum age of 24 hours is a miss, and its file is still
    in the cache directory after the read. *)
Lemma stale_entry_is_kept :
  let read := get (Config.defaults None) SampleCache.one_entry
                (25 * SampleCache.hour) true true "p" "m" None None in
  fst read = Return JNull
  ∧ misses (snd read) = 1
  ∧ cache_dir (snd read) !! "m:p"%string
    = Some (SampleCache.entry "0" (JStr "answer")).
Proof. by vm_compute. Qed.

(** A time stamp with a UTC offset: the read raises a [TypeError],
    counts neither a hit nor a miss and keeps the file. So does, with an
    [OSError], the read of a file that cannot be opened. *)
Example aware_stamp_raises :
  let aware := {| cache_dir := {[ "m:p"%string :=
                                    SampleCache.entry "+0" (JStr "answer") ]};
                  enabled := true; hits := 0; misses := 0 |} in
  get (Config.defaults None) aware SampleCache.hour true true "p" "m" None None
    = (Raise TypeError, aware)
  ∧ get (Config.defaults None) SampleCache.one_entry SampleCache.hour
      false true "p" "m" None None
    = (Raise OSError, SampleCache.one_entry).
Proof. by vm_compute. Qed.



(** An entry one hour old is a hit for [max_age_hours = 0]. *)
Lemma get_zero_max_age_is_default_witness :
  get (Config.defaults None) SampleCache.one_entry SampleCache.hour
      true true "p" "m" None (Some 0)
    = (Return (JStr "answer"), count_hit SampleCache.one_entry)
  ∧ get (Config.defaults None) SampleCache.one_entry SampleCache.hour
      true true "p" "m" None (Some 0)
    = get (Config.defaults None) SampleCache.one_entry SampleCache.hour
        true true "p" "m" None None.
Proof.
  apply (get_zero_max_age_is_default (Config.defaults None)
           SampleCache.one_entry SampleCache.hour true "p" "m" None
           (SampleCache.entry "0" (JStr "answer")) 0
           (<["timestamp"%string := JStr "0"]>
              (<["response"%string := JStr "answer"]> ∅))
           (JStr "answer") (24 * SampleCache.hour)).
  - reflexivity.
  - by vm_compute.
  - split; [reflexivity|]. exists "0"%string. by vm_compute.
  - by vm_compute.
  - by vm_compute.
  - by vm_compute.
Defined.
End cache_samples.

(** * More on temporal patterns *)

Section temporal_totals.
Import GitParser.

Lemma sum_values_incr {K} `{EqDecision K} (k : K) (d : list (K * Z)) :
  sum_values (incr k d) = sum_values d + 1.
Proof.
  induction d as [|[k' v] d IH]; simpl; [done|].
  case_decide; simpl; [unfold sum_values; simpl; lia|]. rewrite IH. lia.
Qed.

Lemma sum_values_count_by {K} `{EqDecision K} (key : commit → K)
    (commits : list commit) :
  sum_values (count_by key commits) = Z.of_nat (length commits).
Proof.
  unfold count_by. induction commits as [|c l IH] using rev_ind; [done|].
  rewrite foldl_snoc, sum_values_incr, IH, length_app. simpl. lia.
Qed.

Lemma count_by_fst {K} `{EqDecision K} (key : commit → K)
    (commits : list commit) :
  (count_by key commits).*1 = first_seen (key <$> commits).
Proof. apply (count_keys key commits []). Qed.

Lemma count_by_NoDup {K} `{EqDecision K} (key : commit → K)
    (commits : list commit) : NoDup (count_by key commits).*1.
Proof.
  rewrite count_by_fst. apply first_seen_NoDup.
Qed.

Lemma count_by_keys {K} `{EqDecision K} (key : commit → K)
    (commits : list commit) k v :
  (k, v) ∈ count_by key commits →
  k ∈ key <$> commits ∧ v = occurrences k (key <$> commits).
Proof.
  intros Hin.
  pose proof (count_by_fst key commits) as Hkeys.
  split.
  - apply first_seen_elem_of. rewrite <- Hkeys.
    apply list_elem_of_fmap. by exists (k, v).
  - rewrite <- (count_values key commits k). symmetry.
    apply value_of_elem_of; [apply (count_by_NoDup key commits)|done].
Qed.

Lemma count_by_complete {K} `{EqDecision K} (key : commit → K)
    (commits : list commit) k :
  k ∈ key <$> commits →
  (k, occurrences k (key <$> commits)) ∈ count_by key commits.
Proof.
  intros Hin%first_seen_elem_of.
  pose proof (count_by_fst key commits) as Hkeys.
  rewrite <- Hkeys in Hin. apply list_elem_of_fmap in Hin as [[k' v] [-> Hin]].
  simpl. by destruct (count_by_keys key commits k' v Hin) as [_ <-].
Qed.

Lemma hour_range ts : 0 ≤ hour ts < 24.
Proof. unfold hour. apply Z.mod_pos_bound. lia. Qed.

(** The four times of day split the hours 0 to 23. *)
Lemma buckets_split (hours : list (Z * Z)) :
  Forall (λ item, 0 ≤ fst item < 24) hours →
  sum_where (λ h, (6 <=? h) && (h <? 12)) hours
  + sum_where (λ h, (12 <=? h) && (h <? 18)) hours
  + sum_where (λ h, (18 <=? h) && (h <? 24)) hours
  + sum_where (λ h, h <? 6) hours
  = sum_values hours.
Proof.
  induction 1 as [|[h v] hours Hh _ IH]; [done|].
  simpl in *. rewrite <- IH.
  destruct (6 <=? h) eqn:H6, (h <? 12) eqn:H12, (12 <=? h) eqn:H12',
    (h <? 18) eqn:H18, (18 <=? h) eqn:H18', (h <? 24) eqn:H24,
    (h <? 6) eqn:H6'; simpl; lia.
Qed.
End temporal_totals.

Section temporal_extras.
Import GitParser.

Lemma size_list_to_set_le (l : list Z) :
  (size (list_to_set l : gset Z) ≤ length l)%nat.
Proof.
  induction l as [|x l IH].
  { change (size (∅ : gset Z) ≤ 0)%nat. by rewrite size_empty. }
  rewrite list_to_set_cons, size_union_alt, size_singleton. simpl.
  assert (list_to_set l ∖ {[x]} ⊆ (list_to_set l : gset Z)) as Hsub
    by set_solver.
  apply subseteq_size in Hsub. lia.
Qed.

Lemma occurrences_pos {K} `{EqDecision K} (k : K) (keys : list K) :
  k ∈ keys → 1 ≤ occurrences k keys.
Proof.
  unfold occurrences. induction keys as [|x keys IH]; [by intros ?%elem_of_nil|].
  rewrite filter_cons. intros [->|Hin]%elem_of_cons.
  - rewrite decide_True by done. simpl. lia.
  - case_decide; simpl; [lia|by apply IH].
Qed.

Lemma weekday_is_a_name ts : weekday ts ∈ weekday_names.
Proof.
  unfold weekday. pose proof (Z.mod_pos_bound (date ts + 3) 7) as Hb.
  assert (Z.to_nat ((date ts + 3) mod 7) < 7)%nat as Hlt by lia.
  destruct (Z.to_nat ((date ts + 3) mod 7)) as [|[|[|[|[|[|[|n]]]]]]];
    simpl; [set_solver..|lia].
Qed.

(** For every non-empty commit list the totals of
    [analyze_temporal_patterns] agree: the hour counts, the weekday counts
    and the four times of day each add up to the number of commits, and
    the number of active days lies between 1 and the number of commits.
    The empty dictionary is returned only for the empty list. *)
Theorem analyze_temporal_patterns_totals (commits : list commit) :
  match analyze_temporal_patterns commits with
  | None => commits = []
  | Some r =>
      total_commits r = length commits
      ∧ sum_values (by_hour r) = Z.of_nat (length commits)
      ∧ sum_values (by_day r) = Z.of_nat (length commits)
      ∧ morning_commits r + afternoon_commits r + evening_commits r
        + night_commits r = Z.of_nat (length commits)
      ∧ (1 ≤ active_days r ≤ length commits)%nat
  end.
Proof.
  unfold analyze_temporal_patterns.
  destruct commits as [|c rest] eqn:E; [done|]. rewrite <- E.
  cbn [total_commits by_hour by_day morning_commits afternoon_commits
       evening_commits night_commits active_days].
  split; [done|]. rewrite !sum_values_count_by.
  split; [done|]. split; [done|]. split.
  - rewrite buckets_split; [apply sum_values_count_by|].
    apply Forall_forall. intros [h v] [Hin _]%count_by_keys.
    apply list_elem_of_fmap in Hin as (c' & -> & _). apply hour_range.
  - split.
    + rewrite E, fmap_cons, list_to_set_cons, size_union_alt, size_singleton.
      lia.
    + etrans; [apply size_list_to_set_le|]. by rewrite length_fmap.
Qed.

(** The histograms of [analyze_temporal_patterns] are exact: each hour
    and each weekday that occurs among the commits has one entry, whose
    value is the number of commits in that hour or on that weekday;
    nothing else has an entry, so every listed hour is between 0 and 23,
    every listed day is a weekday name and every count is at least 1. *)
Theorem analyze_temporal_patterns_histograms (commits : list commit) :
  match analyze_temporal_patterns commits with
  | None => commits = []
  | Some r =>
      let hours := (λ c, hour (timestamp c)) <$> commits in
      let days := (λ c, weekday (timestamp c)) <$> commits in
      NoDup (by_hour r).*1 ∧ NoDup (by_day r).*1
      ∧ (∀ h v, (h, v) ∈ by_hour r ↔ h ∈ hours ∧ v = occurrences h hours)
      ∧ (∀ d v, (d, v) ∈ by_day r ↔ d ∈ days ∧ v = occurrences d days)
      ∧ (∀ h v, (h, v) ∈ by_hour r → 0 ≤ h < 24 ∧ 1 ≤ v)
      ∧ (∀ d v, (d, v) ∈ by_day r → d ∈ weekday_names ∧ 1 ≤ v)
  end.
Proof.
  unfold analyze_temporal_patterns.
  destruct commits as [|c rest] eqn:E; [done|]. rewrite <- E.
  cbn [by_hour by_day]. cbn zeta.
  assert (∀ {K} `{EqDecision K} (key : commit → K) k v,
            (k, v) ∈ count_by key commits ↔
            k ∈ key <$> commits ∧ v = occurrences k (key <$> commits)) as Hiff.
  { intros K ? key k v. split; [apply count_by_keys|].
    intros [Hin ->]. by apply count_by_complete. }
  split; [apply count_by_NoDup|]. split; [apply count_by_NoDup|].
  split; [apply Hiff|]. split; [apply Hiff|]. split.
  - intros h v [Hin ->]%Hiff. split; [|by apply occurrences_pos].
    apply list_elem_of_fmap in Hin as (c' & -> & _). apply hour_range.
  - intros d v [Hin ->]%Hiff. split; [|by apply occurrences_pos].
    apply list_elem_of_fmap in Hin as (c' & -> & _). apply weekday_is_a_name.
Qed.
End temporal_extras.

(** * Session summaries *)

Section summaries.
Import GitParser.
Implicit Types (session commits : list commit) (gap_hours : Z).

#[local] Instance by_time_transitive : Transitive by_time.
Proof. unfold by_time. intros a b c. lia. Qed.

Lemma sorted_by_timestamp_strongly commits :
  StronglySorted by_time (sorted_by_timestamp commits).
Proof.
  apply Sorted.Sorted_StronglySorted; [apply by_time_transitive|].
  apply sorted_by_timestamp_sorted.
Qed.

(** The first commit in time order is the earliest, the last the latest. *)
Lemma sorted_by_timestamp_extremes commits earliest latest :
  head (sorted_by_timestamp commits) = Some earliest →
  last (sorted_by_timestamp commits) = Some latest →
  ∀ c, c ∈ commits → timestamp earliest ≤ timestamp c ≤ timestamp latest.
Proof.
  intros Hhead Hlast c Hin.
  rewrite <- (sorted_by_timestamp_perm commits) in Hin.
  pose proof (sorted_by_timestamp_strongly commits) as Hs.
  split.
  - destruct (sorted_by_timestamp commits) as [|x l]; simplify_eq/=.
    apply StronglySorted_cons in Hs as [Hall _].
    apply elem_of_cons in Hin as [->|Hin]; [done|].
    rewrite Forall_forall in Hall. by apply Hall.
  - apply last_Some in Hlast as [l' Hl']. rewrite Hl' in Hs, Hin.
    apply elem_of_app in Hin as [Hin|Hin%list_elem_of_singleton];
      [|by subst].
    change (by_time c latest).
    eapply (StronglySorted_app_1_elem_of _ l' [latest]); [done..|left].
Qed.

(** Sorting leaves a list in time order as it is. *)
Lemma sorted_by_timestamp_fixed commits :
  Sorted by_time commits → sorted_by_timestamp commits = commits.
Proof.
  induction 1 as [|c l Hl IH Hc]; [done|]. simpl. rewrite IH.
  destruct Hc as [|d l Hcd]; [done|]. simpl.
  unfold by_time in Hcd. by rewrite (proj2 (Z.leb_le _ _) Hcd).
Qed.

Lemma fold_files_elem session (acc : gset string) f :
  f ∈ foldl (λ acc c, acc ∪ list_to_set (files c)) acc session
  ↔ f ∈ acc ∨ ∃ c, c ∈ session ∧ f ∈ files c.
Proof.
  revert acc. induction session as [|c l IH]; intros acc; simpl.
  - split; [by left|]. intros [?|(c & Hin & _)]; [done|by inversion Hin].
  - rewrite IH, elem_of_union, elem_of_list_to_set. split.
    + intros [[?|?]|(c' & Hin & Hf)]; [by left| |].
      * right. exists c. split; [left|done].
      * right. exists c'. split; [by right|done].
    + intros [?|(c' & [->|Hin]%elem_of_cons & Hf)]; [by left; left|by left; right|].
      right. by exists c'.
Qed.

(** [get_session_summary] gives the empty dictionary exactly for the
    empty session and never fails. For a non-empty session the summary
    spans it: every commit lies between the start and the end time, both
    times are those of commits of the session, the duration is their
    non-negative difference, the commit count is the length of the
    session, and the unique files are exactly the files of its commits. *)
Theorem get_session_summary_spans session :
  match get_session_summary session with
  | NoSummary => session = []
  | SummaryIndexError => False
  | Summary s =>
      session ≠ []
      ∧ session_commits s = session
      ∧ commit_count s = length session
      ∧ (∀ c, c ∈ session → start_time s ≤ timestamp c ≤ end_time s)
      ∧ (∃ c, c ∈ session ∧ timestamp c = start_time s)
      ∧ (∃ c, c ∈ session ∧ timestamp c = end_time s)
      ∧ duration s = end_time s - start_time s
      ∧ 0 ≤ duration s
      ∧ (∀ f, f ∈ unique_files s ↔ ∃ c, c ∈ session ∧ f ∈ files c)
      ∧ total_files_changed s = size (unique_files s)
  end.
Proof.
  unfold get_session_summary.
  destruct session as [|c0 rest] eqn:E; [done|]. rewrite <- E.
  assert (session ≠ []) as Hne by by rewrite E.
  unfold Py.index_last, Py.index_first.
  destruct (last (sorted_by_timestamp session)) as [latest|] eqn:Hlast; last first.
  { apply last_None in Hlast. rewrite E in Hlast.
    by apply sorted_by_timestamp_nonempty in Hlast. }
  destruct (head (sorted_by_timestamp session)) as [earliest|] eqn:Hhead; last first.
  { apply head_None in Hhead. rewrite E in Hhead.
    by apply sorted_by_timestamp_nonempty in Hhead. }
  cbn [session_commits commit_count start_time end_time duration
       unique_files total_files_changed].
  pose proof (sorted_by_timestamp_extremes session earliest latest Hhead Hlast)
    as Hext.
  assert (earliest ∈ session) as Hin_e.
  { rewrite <- (sorted_by_timestamp_perm session).
    by apply head_Some_elem_of. }
  assert (latest ∈ session) as Hin_l.
  { rewrite <- (sorted_by_timestamp_perm session).
    by apply last_Some_elem_of. }
  repeat apply conj; try done.
  - by exists earliest.
  - by exists latest.
  - destruct (Hext latest Hin_l). lia.
  - intros f. rewrite fold_files_elem. set_solver.
Qed.

(** The first and last commits of a close-knit session are at most one
    threshold per step apart. *)
Lemma close_knit_span threshold session first latest :
  close_knit threshold session →
  head session = Some first → last session = Some latest →
  gap first latest ≤ (Z.of_nat (length session) - 1) * threshold.
Proof.
  revert first. induction session as [|a [|b l] IH]; intros first Hck Hh Hl.
  - done.
  - simplify_eq/=. unfold gap. lia.
  - simplify_eq/=.
    assert (gap first b ≤ threshold) as H1
      by (apply Hck; by exists [], l).
    assert (gap b latest ≤ (Z.of_nat (length (b :: l)) - 1) * threshold)
      as H2.
    { apply IH; [|done|done].
      intros x y Hadj. by apply Hck, adjacent_in_cons_r. }
    simpl length in *. unfold gap in *. lia.
Qed.

Lemma StronglySorted_concat_elem {A} (R : relation A) (ss : list (list A)) s :
  StronglySorted R (concat ss) → s ∈ ss → StronglySorted R s.
Proof.
  induction ss as [|t ss IH]; simpl; intros Hs Hin; [by inversion Hin|].
  apply StronglySorted_app in Hs as (_ & Ht & Hss).
  apply elem_of_cons in Hin as [->|Hin]; auto.
Qed.

(** The summary of a session that [group_into_sessions] returned starts
    at the session's first commit and ends at its last one, and its
    duration is at most the gap threshold times the number of steps
    between its commits; a session of one commit has duration 0. *)
Theorem session_summary_of_group commits gap_hours sessions session :
  group_into_sessions commits gap_hours = Return sessions →
  session ∈ sessions →
  ∃ s first latest,
    get_session_summary session = Summary s
    ∧ head session = Some first ∧ last session = Some latest
    ∧ start_time s = timestamp first ∧ end_time s = timestamp latest
    ∧ 0 ≤ duration s
    ∧ duration s ≤ (Z.of_nat (commit_count s) - 1) * hours_long gap_hours.
Proof.
  intros Hg Hin.
  destruct (group_into_sessions_built commits gap_hours)
    as [(_ & built & Hg' & Hc & Hn & Hk & _)|(_ & _ & Hg')];
    [|congruence].
  rewrite Hg in Hg'. injection Hg' as ->.
  apply list_elem_of_In, in_rev, list_elem_of_In in Hin.
  rewrite Forall_forall in Hn, Hk.
  assert (session ≠ []) as Hne by by apply Hn.
  assert (StronglySorted by_time session) as Hs.
  { apply (StronglySorted_concat_elem _ built); [|done].
    rewrite Hc. apply sorted_by_timestamp_strongly. }
  pose proof (sorted_by_timestamp_fixed session
                (StronglySorted_Sorted Hs)) as Hfix.
  pose proof (sorted_by_timestamp_extremes session) as Hext.
  unfold get_session_summary, Py.index_last, Py.index_first in *.
  destruct session as [|c0 rest] eqn:E; [done|]. rewrite <- E in *.
  rewrite Hfix in *.
  destruct (last session) as [latest|] eqn:Hlast; [|by apply last_None in Hlast].
  destruct (head session) as [first|] eqn:Hhead; [|by apply head_None in Hhead].
  eexists _, first, latest. split; [done|].
  cbn [start_time end_time duration commit_count].
  assert (0 ≤ timestamp latest - timestamp first) as Hpos.
  { destruct (Hext first latest eq_refl eq_refl latest
                (last_Some_elem_of _ _ Hlast)). lia. }
  repeat split; try done.
  by apply (close_knit_span (hours_long gap_hours) session); [apply Hk|..].
Qed.

(** The morning session of the sample day: two commits, half an hour
    from the first to the last, under the bound of three hours. *)
Lemma session_summary_of_group_witness :
  ∃ s first latest,
    get_session_summary [Sample.nine; Sample.half_past_nine] = Summary s
    ∧ head [Sample.nine; Sample.half_past_nine] = Some first
    ∧ last [Sample.nine; Sample.half_past_nine] = Some latest
    ∧ start_time s = timestamp first ∧ end_time s = timestamp latest
    ∧ 0 ≤ duration s
    ∧ duration s ≤ (Z.of_nat (commit_count s) - 1) * hours_long 3.
Proof.
  apply (session_summary_of_group
           [Sample.thirteen; Sample.nine; Sample.half_past_nine] 3
           [[Sample.thirteen]; [Sample.nine; Sample.half_past_nine]]).
  - reflexivity.
  - right. left.
Defined.

Example morning_session_summary :
  match get_session_summary [Sample.nine; Sample.half_past_nine] with
  | Summary s =>
      start_time s = Sample.hours 9
      ∧ end_time s = Sample.hours 9 + 1800000000
      ∧ duration s = 1800000000
      ∧ commit_count s = 2%nat
      ∧ (Z.of_nat (commit_count s) - 1) * hours_long 3 = 10800000000
  | _ => False
  end.
Proof. by vm_compute. Qed.

(** For a non-empty commit list [group_into_sessions] returns at least one
    session, and the first one is the most recent: its last commit is an
    input commit with the greatest timestamp of the input, and no commit
    of a later-listed session is later than any of its commits. It
    returns unless there are two or more commits and [timedelta] rejects
    the threshold, when it raises an [OverflowError]. *)
Theorem group_into_sessions_most_recent_first commits gap_hours :
  commits ≠ [] →
  match group_into_sessions commits gap_hours with
  | Return sessions =>
      ((length commits < 2)%nat ∨ representable_hours gap_hours)
      ∧ ∃ recent older latest,
          sessions = recent :: older
          ∧ last recent = Some latest
          ∧ latest ∈ commits
          ∧ (∀ c, c ∈ commits → timestamp c ≤ timestamp latest)
          ∧ (∀ s a b, s ∈ older → a ∈ s → b ∈ recent →
               timestamp a ≤ timestamp b)
  | Raise e =>
      e = OverflowError ∧ (2 ≤ length commits)%nat
      ∧ ¬ representable_hours gap_hours
  end.
Proof.
  intros Hne.
  destruct (group_into_sessions_built commits gap_hours)
    as [(Hdom & built & -> & Hc & Hn & _ & _)|(Hlen & Hr & ->)]; [|done].
  split; [done|].
  destruct built as [|recent older _] using rev_ind.
  { simpl in Hc. destruct commits as [|c l]; [done|].
    symmetry in Hc. by apply sorted_by_timestamp_nonempty in Hc. }
  rewrite rev_app_distr. simpl.
  apply Forall_app in Hn as [_ Hn]. apply Forall_inv in Hn.
  rewrite concat_app in Hc. simpl in Hc. rewrite app_nil_r in Hc.
  destruct (last recent) as [latest|] eqn:Hlast; last first.
  { by apply last_None in Hlast. }
  pose proof (sorted_by_timestamp_strongly commits) as Hs. rewrite <- Hc in Hs.
  exists recent, (rev older), latest.
  split; [done|]. split; [done|]. split; [|split].
  - rewrite <- (sorted_by_timestamp_perm commits), <- Hc.
    apply elem_of_app. right. by apply last_Some_elem_of.
  - intros c Hin. rewrite <- (sorted_by_timestamp_perm commits), <- Hc in Hin.
    apply last_Some in Hlast as [l' ->]. rewrite app_assoc in Hs.
    rewrite app_assoc in Hin.
    apply elem_of_app in Hin as [Hin|Hin%list_elem_of_singleton];
      [|subst; lia].
    change (by_time c latest).
    eapply (StronglySorted_app_1_elem_of _ _ [latest]); [done..|left].
  - intros s a b Hs_in Ha Hb. change (by_time a b).
    eapply (StronglySorted_app_1_elem_of _ (concat older) recent); [done| |done].
    apply list_elem_of_In, in_concat. exists s.
    split; [|by apply list_elem_of_In].
    by apply in_rev, list_elem_of_In.
Qed.

(** Listed oldest first, the sample commits give the afternoon session
    first. *)
Lemma group_into_sessions_most_recent_first_witness :
  match group_into_sessions
          [Sample.nine; Sample.half_past_nine; Sample.thirteen] 3 with
  | Return sessions =>
      ((length [Sample.nine; Sample.half_past_nine; Sample.thirteen] < 2)%nat
       ∨ representable_hours 3)
      ∧ ∃ recent older latest,
          sessions = recent :: older
          ∧ last recent = Some latest
          ∧ latest ∈ [Sample.nine; Sample.half_past_nine; Sample.thirteen]
          ∧ (∀ c, c ∈ [Sample.nine; Sample.half_past_nine; Sample.thirteen] →
               timestamp c ≤ timestamp latest)
          ∧ (∀ s a b, s ∈ older → a ∈ s → b ∈ recent →
               timestamp a ≤ timestamp b)
  | Raise e =>
      e = OverflowError
      ∧ (2 ≤ length [Sample.nine; Sample.half_past_nine; Sample.thirteen])%nat
      ∧ ¬ representable_hours 3
  end.
Proof.
  apply (group_into_sessions_most_recent_first
           [Sample.nine; Sample.half_past_nine; Sample.thirteen] 3).
  discriminate.
Defined.
End summaries.

Section durations.
Import GitParser.

(** The decimal form of a positive integer starts with a digit. *)
Lemma str_int_pos_head (n : Z) :
  0 < n → ∃ a s, Py.str_int n = String a s ∧ a ≠ "L"%char.
Proof.
  intros Hn. destruct n as [|p|p]; try lia.
  unfold Py.str_int. simpl.
  pose proof (DecimalPos.Unsigned.to_uint_nonnil p) as Hnil.
  destruct (Pos.to_uint p); [done|..]; simpl; by eexists _, _.
Qed.

Example format_duration_samples :
  _format_duration 0 = "Less than a minute"%string
  ∧ _format_duration (59 * 1000000) = "Less than a minute"%string
  ∧ _format_duration (60 * 1000000) = "1 minute"%string
  ∧ _format_duration (3600 * 1000000) = "1 hour"%string
  ∧ _format_duration (7325 * 1000000) = "2 hours 2 minutes"%string.
Proof. by vm_compute. Qed.

Lemma format_duration_less (td : Z) :
  0 ≤ td < 2 ^ 53 →
  _format_duration td = "Less than a minute"%string ↔ td < 60 * 1000000.
Proof.
  intros [Hpos _]. unfold _format_duration.
  set (total_seconds := Z.quot td 1000000).
  assert (0 ≤ total_seconds) as Hts by (apply Z.quot_pos; lia).
  assert (td < 60 * 1000000 ↔ total_seconds < 60) as ->.
  { subst total_seconds. rewrite Z.quot_div_nonneg by lia.
    split; intros Hlt.
    - apply Z.div_lt_upper_bound; lia.
    - pose proof (Z.div_mod td 1000000). pose proof (Z.mod_pos_bound td 1000000).
      lia. }
  set (hours := total_seconds / 3600).
  set (minutes := (total_seconds mod 3600) / 60).
  assert (0 ≤ hours) as Hh by (apply Z.div_pos; lia).
  assert (0 ≤ minutes) as Hm.
  { apply Z.div_pos; [|lia]. apply Z.mod_pos_bound. lia. }
  assert (total_seconds < 60 ↔ hours = 0 ∧ minutes = 0) as ->.
  { subst hours minutes.
    pose proof (Z.div_mod total_seconds 3600).
    pose proof (Z.mod_pos_bound total_seconds 3600).
    pose proof (Z.div_mod (total_seconds mod 3600) 60).
    pose proof (Z.mod_pos_bound (total_seconds mod 3600) 60).
    split.
    - intros Hlt. rewrite (Z.div_small total_seconds 3600) by lia.
      rewrite (Z.mod_small total_seconds 3600) by lia.
      rewrite (Z.div_small total_seconds 60) by lia. done.
    - intros [Eh Em]. rewrite Eh, Em in *. lia. }
  destruct (0 <? hours) eqn:Eh; [apply Z.ltb_lt in Eh|apply Z.ltb_ge in Eh];
    (destruct (0 <? minutes) eqn:Em;
       [apply Z.ltb_lt in Em|apply Z.ltb_ge in Em]); simpl.
  - destruct (str_int_pos_head hours Eh) as (a & s & -> & Ha).
    split; [intros [= ->]; done|lia].
  - destruct (str_int_pos_head hours Eh) as (a & s & -> & Ha).
    split; [intros [= ->]; done|lia].
  - destruct (str_int_pos_head minutes Em) as (a & s & -> & Ha).
    split; [intros [= ->]; done|lia].
  - split; [lia|done].
Qed.

Lemma hours_and_minutes (td : Z) :
  0 ≤ td →
  Z.quot td 1000000 / 3600 = td / 3600000000
  ∧ (Z.quot td 1000000 mod 3600) / 60 = (td / 60000000) mod 60.
Proof.
  intros Hpos. rewrite Z.quot_div_nonneg by lia.
  rewrite !Z.div_div by lia. split; [done|].
  change 3600 with (60 * 60). rewrite Z.rem_mul_r by lia.
  rewrite Z.div_div by lia. change (1000000 * 60) with 60000000.
  rewrite (Z.mul_comm 60), Z.div_add by lia.
  pose proof (Z.mod_pos_bound (td / 1000000) 60).
  rewrite (Z.div_small (td / 1000000 mod 60) 60) by lia. lia.
Qed.

(** For a duration that is not negative (and below [2^53] microseconds),
    [_format_duration] writes the whole hours and the whole minutes
    beyond them, each with its unit in the singular for 1 and in the
    plural otherwise, the hours first and a space between the two;
    a part that is zero is left out, and seconds are never shown. It
    answers "Less than a minute" when both parts are zero, which is
    exactly when the duration is under sixty seconds. *)
Theorem format_duration_rendering (td : Z) :
  0 ≤ td < 2 ^ 53 →
  let hours := td / 3600000000 in
  let minutes := (td / 60000000) mod 60 in
  let unit (n : Z) (name : string) : string :=
    (Py.str_int n +:+ " " +:+ name +:+ (if (n =? 1)%Z then "" else "s"))%string in
  _format_duration td
  = (if 0 <? hours
     then if 0 <? minutes
          then (unit hours "hour" +:+ " " +:+ unit minutes "minute")%string
          else unit hours "hour"
     else if 0 <? minutes then unit minutes "minute"
          else "Less than a minute"%string)
  ∧ (_format_duration td = "Less than a minute"%string ↔ td < 60 * 1000000)
  ∧ (0 ≤ hours ∧ 0 ≤ minutes < 60
     ∧ hours * 3600000000 + minutes * 60000000 ≤ td
       < hours * 3600000000 + minutes * 60000000 + 60000000).
Proof.
  intros Hrange. cbv zeta. split; [|split; [by apply format_duration_less|]].
  - unfold _format_duration. cbv zeta.
    destruct (hours_and_minutes td) as [-> ->]; [lia|].
    destruct (0 <? td / 3600000000), (0 <? td / 60000000 mod 60);
      cbn [app Py.join foldl negb];
      repeat (destruct (_ =? 1); cbn [negb]); done.
  - pose proof (Z.div_mod td 3600000000).
    pose proof (Z.mod_pos_bound td 3600000000).
    pose proof (Z.mod_pos_bound (td / 60000000) 60).
    pose proof (Z.div_mod td 60000000).
    pose proof (Z.mod_pos_bound td 60000000).
    pose proof (Z.div_mod (td / 60000000) 60).
    assert (td / 60000000 / 60 = td / 3600000000) as Hdiv
      by (rewrite Z.div_div by lia; done).
    assert (0 ≤ td / 3600000000) by (apply Z.div_pos; lia).
    lia.
Qed.

(** Two hours, two minutes and five seconds. *)
Lemma format_duration_rendering_witness :
  _format_duration (7325 * 1000000) = "2 hours 2 minutes"%string
  ∧ (_format_duration (7325 * 1000000) = "Less than a minute"%string
     ↔ 7325 * 1000000 < 60 * 1000000).
Proof.
  destruct (format_duration_rendering (7325 * 1000000)) as (Htext & Hless & _).
  - lia.
  - split; [|exact Hless]. rewrite Htext. by vm_compute.
Defined.
End durations.

(** * File change patterns *)

Section top_counts.
Import GitParser.
Context {K : Type} `{EqDecision K}.
Implicit Types (keys : list K) (items : list (K * Z)).

#[local] Instance count_desc_transitive : Transitive (@count_desc K).
Proof. unfold count_desc. intros x y z. lia. Qed.

Lemma insert_by_count_desc_perm x items :
  insert_by_count_desc x items ≡ₚ x :: items.
Proof.
  induction items as [|y l IH]; simpl; [done|].
  case_match; [done|]. rewrite IH. apply Permutation_swap.
Qed.

Lemma sorted_by_count_desc_perm items : sorted_by_count_desc items ≡ₚ items.
Proof.
  induction items as [|x l IH]; simpl; [done|].
  by rewrite insert_by_count_desc_perm, IH.
Qed.

Lemma insert_by_count_desc_sorted x items :
  Sorted count_desc items → Sorted count_desc (insert_by_count_desc x items).
Proof.
  induction 1 as [|y l Hl IH Hy]; simpl.
  - by repeat constructor.
  - case_match eqn:E.
    + apply Z.leb_le in E. by repeat constructor.
    + apply Z.leb_gt in E. constructor; [done|].
      destruct Hy as [|z l Hyz]; simpl in *.
      * constructor. unfold count_desc. lia.
      * case_match; constructor; unfold count_desc in *; lia.
Qed.

Lemma sorted_by_count_desc_sorted items :
  Sorted count_desc (sorted_by_count_desc items).
Proof.
  induction items; simpl; [constructor|].
  by apply insert_by_count_desc_sorted.
Qed.

(** The counting dictionary of a list of keys. *)
Lemma tally_keys keys :
  (foldl (λ d k, incr k d) [] keys).*1 = first_seen keys.
Proof.
  pose proof (count_keys (λ k : K, k) keys []) as Hk.
  by rewrite list_fmap_id in Hk.
Qed.

Lemma tally_elem_of keys k v :
  (k, v) ∈ foldl (λ d k, incr k d) [] keys
  ↔ k ∈ keys ∧ v = occurrences k keys.
Proof.
  pose proof (count_values (λ k : K, k) keys) as Hv.
  rewrite list_fmap_id in Hv.
  assert (NoDup (foldl (λ d k, incr k d) [] keys).*1) as Hnd
    by (rewrite tally_keys; apply first_seen_NoDup).
  split.
  - intros Hin. split.
    + apply first_seen_elem_of. rewrite <- tally_keys.
      apply list_elem_of_fmap. by exists (k, v).
    + rewrite <- Hv. symmetry. by apply value_of_elem_of.
  - intros [Hin%first_seen_elem_of ->]. rewrite <- tally_keys in Hin.
    apply list_elem_of_fmap in Hin as [[k' v'] [-> Hin]]. simpl.
    by rewrite <- Hv, (value_of_elem_of k' v' _ Hnd Hin).
Qed.

(** The first [n] items of the sorted counting dictionary are the most
    frequent keys. *)
Lemma take_sorted_most_frequent n keys :
  most_frequent n keys
    (take n (sorted_by_count_desc (foldl (λ d k, incr k d) [] keys))).
Proof.
  set (d := foldl (λ d k, incr k d) [] keys).
  set (sorted := sorted_by_count_desc d).
  assert (sorted ≡ₚ d) as Hperm by apply sorted_by_count_desc_perm.
  assert (NoDup sorted.*1) as Hnd.
  { rewrite Hperm. subst d. rewrite tally_keys. apply first_seen_NoDup. }
  assert (StronglySorted count_desc sorted) as Hss.
  { apply Sorted.Sorted_StronglySorted; [apply count_desc_transitive|].
    apply sorted_by_count_desc_sorted. }
  rewrite <- (take_drop n sorted) in Hnd, Hss.
  rewrite fmap_app in Hnd. apply NoDup_app in Hnd as (Hnd & _ & _).
  apply StronglySorted_app in Hss as (Hcross & Hss & _).
  assert (∀ k v, (k, v) ∈ sorted ↔ k ∈ keys ∧ v = occurrences k keys) as Hin.
  { intros k v. rewrite Hperm. apply tally_elem_of. }
  repeat apply conj.
  - rewrite length_take. f_equal.
    rewrite <- tally_keys, length_fmap. fold d. by rewrite <- Hperm.
  - done.
  - by apply StronglySorted_Sorted.
  - intros k v Hk. apply Hin. rewrite <- (take_drop n sorted).
    apply elem_of_app. by left.
  - intros k Hk Hout k' v Hk'.
    assert ((k, occurrences k keys) ∈ sorted) as Hmem by by apply Hin.
    rewrite <- (take_drop n sorted) in Hmem.
    apply elem_of_app in Hmem as [Hmem|Hmem].
    + exfalso. apply Hout. apply list_elem_of_fmap. by eexists (_, _).
    + apply (Hcross (k', v) (k, occurrences k keys) Hk' Hmem).
Qed.
End top_counts.

Section file_patterns.
Import GitParser.

Lemma fold_directories (fs : list string) (d : list (string * Z)) :
  foldl (λ d file,
           if Py.contains "/" file then incr (directory_of file) d else d)
        d fs
  = foldl (λ d k, incr k d) d
      (directory_of <$> filter (λ f, Py.contains "/" f = true) fs).
Proof.
  revert d. induction fs as [|f fs IH]; intros d; simpl; [done|].
  rewrite filter_cons. destruct (Py.contains "/" f) eqn:E.
  - rewrite decide_True by done. simpl. apply IH.
  - rewrite decide_False by done. apply IH.
Qed.

Lemma first_seen_size (keys : list string) :
  length (first_seen keys) = size (list_to_set keys : gset string).
Proof.
  rewrite <- (size_list_to_set (C:=gset string) (first_seen keys))
    by apply first_seen_NoDup.
  f_equal. apply set_eq. intros k.
  by rewrite !elem_of_list_to_set, first_seen_elem_of.
Qed.

(** [get_file_change_patterns] lists the most frequently changed files,
    and the most frequently changed directories of the files that have
    one, by descending change count: at most ten distinct entries, each
    with its true count, none left out that was changed more often than
    a listed one. The two totals are the numbers of distinct files and
    of distinct directories. *)
Theorem get_file_change_patterns_top (commits : list commit) :
  let r := get_file_change_patterns commits in
  let changed := visited_files commits in
  let directories :=
    directory_of <$> filter (λ f, Py.contains "/" f = true) changed in
  most_frequent 10 changed (top_files r)
  ∧ most_frequent 10 directories (top_directories r)
  ∧ (length (top_files r) ≤ 10)%nat
  ∧ (length (top_directories r) ≤ 10)%nat
  ∧ total_unique_files r = size (list_to_set changed : gset string)
  ∧ total_directories r = size (list_to_set directories : gset string).
Proof.
  intros r changed directories. subst r. unfold get_file_change_patterns.
  cbn [top_files top_directories total_unique_files total_directories].
  fold changed. rewrite fold_directories. fold directories.
  split; [apply take_sorted_most_frequent|].
  split; [apply take_sorted_most_frequent|].
  split; [rewrite length_take; lia|]. split; [rewrite length_take; lia|].
  split; rewrite <- first_seen_size, <- tally_keys; by rewrite length_fmap.
Qed.
End file_patterns.

(** * Scoring a list of commits *)

Section scoring.
Import QualityScorer.
Local Open Scope float_scope.
Implicit Types (cfg : Config.t) (c : commit) (sc : scored_commit).

Lemma all_classes_agree m s f :
  In m message_scores → In s size_scores → In f focus_scores →
  classes_agree m s f = true.
Proof.
  assert (forallb (λ m, forallb (λ s, forallb (classes_agree m s)
            focus_scores) size_scores) message_scores = true) as Hall
    by (vm_compute; reflexivity).
  intros Hm Hs Hf.
  rewrite forallb_forall in Hall. specialize (Hall m Hm).
  rewrite forallb_forall in Hall. specialize (Hall s Hs).
  rewrite forallb_forall in Hall. by apply Hall.
Qed.

Lemma leb_excludes_ltb x y : (y <=? x) = true → (x <? y) = false.
Proof.
  intros Hle. destruct (x <? y) eqn:Hlt; [|done].
  apply ltb_excludes_leb in Hlt. congruence.
Qed.

Lemma generate_suggestions_Some cfg c m s f :
  first_word (message c) ≠ None →
  is_Some (_generate_suggestions cfg c m s f).
Proof.
  intros Hfw. unfold _generate_suggestions.
  destruct (first_word (message c)) as [w|]; [|done].
  destruct (m <? 0.6); simpl; eauto.
Qed.

Lemma score_one_Some cfg c :
  is_Some (score_one cfg c) ↔ first_word (message c) ≠ None.
Proof.
  unfold score_one, suggestions_of, _score_single_commit.
  pose proof (message_quality_None (message c)) as Hnone.
  destruct (_score_message_quality (message c)) as [m|] eqn:Hm; simpl.
  - assert (first_word (message c) ≠ None) as Hfw.
    { intros E. apply Hnone in E. done. }
    destruct (generate_suggestions_Some cfg c m
                (_score_size_appropriateness cfg c) (_score_focus c) Hfw)
      as [sg ->]. simpl. split; [done|eauto].
  - split; [by intros [? ?]|]. intros Hfw. exfalso. apply Hfw. by apply Hnone.
Qed.

Lemma score_commits_Forall2 cfg commits scored_list :
  score_commits cfg commits = Some scored_list ↔
  Forall2 (λ c sc, score_one cfg c = Some sc) commits scored_list.
Proof. apply mapM_Some. Qed.

Lemma score_one_inv cfg c sc :
  score_one cfg c = Some sc →
  scored sc = c
  ∧ _score_single_commit cfg c = Some (score sc)
  ∧ suggestions_of cfg c = Some (suggestions sc).
Proof.
  unfold score_one.
  destruct (_score_single_commit cfg c) as [r|]; [|done]. simpl.
  destruct (suggestions_of cfg c) as [sg|]; [|done]. simpl.
  by intros [= <-].
Qed.

(** [score_commits] returns one scored commit per input commit, in the
    input order, each carrying the commit unchanged beside the result of
    [_score_single_commit] and its suggestions. One commit whose message
    is not empty and consists of white space makes the whole call fail,
    and nothing else does. *)
Theorem score_commits_in_order cfg commits :
  match score_commits cfg commits with
  | Some scored_list =>
      scored <$> scored_list = commits
      ∧ length scored_list = length commits
      ∧ Forall (λ sc,
          _score_single_commit cfg (scored sc) = Some (score sc)
          ∧ suggestions_of cfg (scored sc) = Some (suggestions sc))
          scored_list
  | None =>
      ∃ c, c ∈ commits ∧ message c ≠ EmptyString ∧ Py.split (message c) = []
  end.
Proof.
  destruct (score_commits cfg commits) as [scored_list|] eqn:E.
  - apply score_commits_Forall2 in E.
    induction E as [|c sc commits scored_list Hone _ IH].
    + done.
    + destruct (score_one_inv _ _ _ Hone) as (Hc & Hs & Hg).
      destruct IH as (IH1 & IH2 & IH3).
      rewrite fmap_cons, Hc, IH1. simpl. rewrite IH2.
      repeat split; try done. constructor; [|done]. by rewrite Hc.
  - destruct (decide (Forall (λ c, first_word (message c) ≠ None) commits))
      as [Hall|Hnot].
    + assert (is_Some (score_commits cfg commits)) as [? Hs].
      { apply mapM_is_Some. eapply Forall_impl; [exact Hall|].
        intros c Hc. by apply score_one_Some. }
      congruence.
    + apply not_Forall_Exists in Hnot; [|apply _].
      apply Exists_exists in Hnot as (c & Hin & Hc).
      exists c. split; [done|]. apply first_word_None.
      simpl in Hc. destruct (first_word (message c)); [|done].
      exfalso. apply Hc. discriminate.
Qed.

Lemma scored_classes cfg c sc :
  Config.QUALITY_THRESHOLD_LOW cfg = 0.6 →
  Config.QUALITY_THRESHOLD_HIGH cfg = 0.8 →
  score_one cfg c = Some sc →
  (Nat.b2n (is_high cfg sc) + Nat.b2n (is_medium cfg sc)
   + Nat.b2n (is_low cfg sc) = 1)%nat
  ∧ (graded "A" sc = true → is_high cfg sc = true)
  ∧ graded "C" sc = is_low cfg sc.
Proof.
  intros Hlow Hhigh (_ & Hs & _)%score_one_inv.
  unfold _score_single_commit in Hs.
  destruct (_score_message_quality (message c)) as [m|] eqn:Hm; [|done].
  simpl in Hs. injection Hs as Hs.
  pose proof (all_classes_agree m _ _
    (message_quality_values _ _ Hm) (size_values cfg c) (focus_values c))
    as Hagree.
  unfold classes_agree in Hagree. cbn zeta in Hagree.
  apply andb_prop in Hagree as [[H1%Nat.eqb_eq H2]%andb_prop H3%eqb_prop].
  unfold is_high, is_medium, is_low, graded. rewrite <- Hs.
  cbn [overall grade]. unfold grade_of. rewrite Hlow, Hhigh.
  split; [done|].
  destruct (0.8 <=? mean3 m (_score_size_appropriateness cfg c) (_score_focus c));
    destruct (0.6 <=? mean3 m (_score_size_appropriateness cfg c) (_score_focus c));
    simpl in *; by rewrite <- ?H3.
Qed.

Lemma filter_classes (h m l : scored_commit → bool) (scs : list scored_commit) :
  Forall (λ sc, (Nat.b2n (h sc) + Nat.b2n (m sc) + Nat.b2n (l sc) = 1)%nat) scs →
  (length (List.filter h scs) + length (List.filter m scs)
   + length (List.filter l scs) = length scs)%nat.
Proof.
  induction 1 as [|sc scs Hsc _ IH]; simpl; [done|].
  destruct (h sc), (m sc), (l sc); simpl in *; lia.
Qed.

Lemma filter_le (p q : scored_commit → bool) (scs : list scored_commit) :
  Forall (λ sc, p sc = true → q sc = true) scs →
  (length (List.filter p scs) ≤ length (List.filter q scs))%nat.
Proof.
  induction 1 as [|sc scs Hsc _ IH]; simpl; [done|].
  destruct (p sc), (q sc); simpl; try lia; by specialize (Hsc eq_refl).
Qed.

(** With the thresholds 0.6 and 0.8 of the configuration, the statistics
    of a list scored by [score_commits] are consistent: the high, medium
    and low classes split the commits, the commits that need improvement
    are at most all of them, the low class counts exactly the commits
    graded 'C', and every commit graded 'A' is in the high class. The
    empty dictionary is returned only for the empty list. *)
Theorem get_summary_stats_classes cfg commits scored_list :
  Config.QUALITY_THRESHOLD_LOW cfg = 0.6 →
  Config.QUALITY_THRESHOLD_HIGH cfg = 0.8 →
  score_commits cfg commits = Some scored_list →
  match get_summary_stats cfg scored_list with
  | None => commits = []
  | Some stats =>
      total_commits stats = length commits
      ∧ (high_quality stats + medium_quality stats + low_quality stats
         = total_commits stats)%nat
      ∧ (needs_improvement stats ≤ total_commits stats)%nat
      ∧ low_quality stats = length (List.filter (graded "C") scored_list)
      ∧ (length (List.filter (graded "A") scored_list)
         ≤ high_quality stats)%nat
  end.
Proof.
  intros Hlow Hhigh Hs.
  apply score_commits_Forall2 in Hs.
  pose proof (Forall2_length _ _ _ Hs) as Hlen. symmetry in Hlen.
  assert (Forall (λ sc,
            (Nat.b2n (is_high cfg sc) + Nat.b2n (is_medium cfg sc)
             + Nat.b2n (is_low cfg sc) = 1)%nat
            ∧ (graded "A" sc = true → is_high cfg sc = true)
            ∧ graded "C" sc = is_low cfg sc) scored_list) as Hall.
  { clear Hlen. induction Hs as [|c sc ? ? Hone _ IH]; constructor; [|done].
    by apply (scored_classes cfg c). }
  unfold get_summary_stats.
  destruct scored_list as [|sc0 rest] eqn:E.
  { by destruct commits. }
  rewrite <- E in *.
  cbn [total_commits high_quality medium_quality low_quality needs_improvement].
  split; [done|]. split; [|split; [|split]].
  - apply filter_classes. eapply Forall_impl; [exact Hall|]. by intros ? (? & _).
  - apply List.filter_length_le.
  - f_equal. apply filter_ext_in. intros sc Hin. rewrite Forall_forall in Hall.
    apply list_elem_of_In in Hin. by destruct (Hall sc Hin) as (_ & _ & ->).
  - apply filter_le. eapply Forall_impl; [exact Hall|]. by intros ? (_ & ? & _).
Qed.

(** Three samples graded 'A', 'B' and 'C'. The one graded 'B' has the
    reported score 0.8 and is counted in the high class with the one
    graded 'A'; the one graded 'C' is the low class and the one that
    needs improvement. *)
Lemma get_summary_stats_classes_witness :
  let cfg := Config.defaults None in
  let commits := [Sample.nine; Sample.borderline; Sample.vague] in
  let scored_list := default [] (score_commits cfg commits) in
  grade ∘ score <$> scored_list = ["A"; "B"; "C"]%string
  ∧ get_summary_stats cfg scored_list
    = Some {| total_commits := 3; high_quality := 2; medium_quality := 0;
              low_quality := 1; needs_improvement := 1 |}
  ∧ match get_summary_stats cfg scored_list with
    | None => commits = []
    | Some stats =>
        total_commits stats = length commits
        ∧ (high_quality stats + medium_quality stats + low_quality stats
           = total_commits stats)%nat
        ∧ (needs_improvement stats ≤ total_commits stats)%nat
        ∧ low_quality stats = length (List.filter (graded "C") scored_list)
        ∧ (length (List.filter (graded "A") scored_list)
           ≤ high_quality stats)%nat
    end.
Proof.
  cbv zeta. split; [by vm_compute|]. split; [by vm_compute|].
  apply (get_summary_stats_classes (Config.defaults None)
           [Sample.nine; Sample.borderline; Sample.vague]).
  - reflexivity.
  - reflexivity.
  - by vm_compute.
Defined.

(** The suggestions are those about the message, then the one about the
    size, then the one about the files. *)
Lemma generate_suggestions_parts cfg c m s f l :
  _generate_suggestions cfg c m s f = Some l →
  ∃ msgs,
    l = msgs
        ++ (if (s <? 0.6) && (Config.SIZE_LARGE cfg <? insertions c + deletions c)%Z
            then [suggest_split (insertions c + deletions c)] else [])
        ++ (if (f <? 0.6) && (10 <? files_changed c)%Z
            then [suggest_fewer_files (files_changed c)] else [])
    ∧ Forall (λ x, x ∈ message_suggestions) msgs
    ∧ ((m <? 0.6) = false → msgs = [])
    ∧ ((m <? 0.6) = true →
         ((Py.len (message c) <? 10)%Z = true
          ∨ (∃ w, first_word (message c) = Some w
                ∧ Py.in_list w imperative_verbs = false)
          ∨ is_generic (message c) = true) →
         msgs ≠ []).
Proof.
  unfold _generate_suggestions, message_suggestions. cbv zeta.
  generalize (suggest_split (insertions c + deletions c)).
  generalize (suggest_fewer_files (files_changed c)).
  intros ff sp.
  assert (∀ msgs : list string,
    (if f <? 0.6
     then if (10 <? files_changed c)%Z
          then (if s <? 0.6
                then if (Config.SIZE_LARGE cfg <? insertions c + deletions c)%Z
                     then msgs ++ [sp] else msgs
                else msgs) ++ [ff]
          else (if s <? 0.6
                then if (Config.SIZE_LARGE cfg <? insertions c + deletions c)%Z
                     then msgs ++ [sp] else msgs
                else msgs)
     else (if s <? 0.6
           then if (Config.SIZE_LARGE cfg <? insertions c + deletions c)%Z
                then msgs ++ [sp] else msgs
           else msgs))
    = msgs
      ++ (if (s <? 0.6) && (Config.SIZE_LARGE cfg <? insertions c + deletions c)%Z
          then [sp] else [])
      ++ (if (f <? 0.6) && (10 <? files_changed c)%Z then [ff] else [])) as Htail.
  { intros msgs.
    destruct (s <? 0.6), (Config.SIZE_LARGE cfg <? _)%Z,
      (f <? 0.6), (10 <? files_changed c)%Z; cbn [andb app];
      rewrite ?app_nil_r, <- ?app_assoc; reflexivity. }
  destruct (m <? 0.6) eqn:Hm.
  - destruct (first_word (message c)) as [w|] eqn:Hw; [|done].
    change (Some ?x ≫= ?g) with (g x). cbv beta.
    intros Hl. apply (inj Some) in Hl. subst l.
    destruct (Py.len (message c) <? 10)%Z eqn:Hlen,
      (Py.in_list w imperative_verbs) eqn:Hv,
      (is_generic (message c)) eqn:Hg; cbn [negb app];
      (match goal with
       | |- ∃ _, (if _ then _ else (if _ then _ else ?msgs)) = _ ∧ _ =>
           exists msgs; split; [exact (Htail msgs)|]
       end);
      (split; [repeat apply Forall_cons_2; try apply Forall_nil_2;
               apply list_elem_of_In; simpl; tauto|]);
      (split; [done|]); intros _ Hwhy; try done.
    destruct Hwhy as [?|[(w' & [= <-] & ?)|?]]; congruence.
  - change (Some ?x ≫= ?g) with (g x). cbv beta.
    intros Hl. apply (inj Some) in Hl. subst l. exists [].
    split; [exact (Htail [])|]. by repeat split.
Qed.

(** A message score below 0.6 has a reason that a suggestion names. *)
Lemma low_message_score_reason message m :
  _score_message_quality message = Some m → (m <? 0.6) = true →
  (Py.len message <? 10)%Z = true
  ∨ (∃ w, first_word message = Some w ∧ Py.in_list w imperative_verbs = false)
  ∨ is_generic message = true.
Proof.
  unfold _score_message_quality.
  destruct (first_word message) as [w|] eqn:Hw; [|done].
  change (Some ?x ≫= ?g) with (g x). cbv beta.
  destruct (is_generic message) eqn:Hg; [by right; right|].
  destruct (Py.in_list w imperative_verbs) eqn:Hv;
    [|right; left; by exists w].
  destruct (Py.len message <? 10)%Z eqn:Hl; [by left|].
  cbn [negb]. repeat case_match; intros Hs Hlt; apply (inj Some) in Hs;
    subst m; by vm_compute in Hlt.
Qed.

(** The suggestions follow the sub-scores. When the message, size and
    focus sub-scores of a commit are all at least 0.6 there is no
    suggestion. When the message sub-score is below 0.6 the list starts
    with a suggestion about the message, and when it is at least 0.6 no
    suggestion about the message is made. *)
Theorem suggestions_follow_scores cfg c m l :
  _score_message_quality (message c) = Some m →
  suggestions_of cfg c = Some l →
  ((0.6 <=? m) = true → (0.6 <=? _score_size_appropriateness cfg c) = true →
   (0.6 <=? _score_focus c) = true → l = [])
  ∧ ((m <? 0.6) = true →
       ∃ first rest, l = first :: rest ∧ first ∈ message_suggestions)
  ∧ ((0.6 <=? m) = true →
       ∀ x, x ∈ l → x ∉ message_suggestions).
Proof.
  intros Hm Hl. unfold suggestions_of in Hl. rewrite Hm in Hl.
  change (Some ?x ≫= ?g) with (g x) in Hl. cbv beta in Hl.
  destruct (generate_suggestions_parts _ _ _ _ _ _ Hl)
    as (msgs & -> & Hmsgs & Hnone & Hsome).
  repeat apply conj.
  - intros Hm6%leb_excludes_ltb Hs6%leb_excludes_ltb Hf6%leb_excludes_ltb.
    rewrite Hs6, Hf6, (Hnone Hm6). done.
  - intros Hlt.
    pose proof (Hsome Hlt (low_message_score_reason _ _ Hm Hlt)) as Hne.
    destruct msgs as [|first rest]; [done|].
    eexists first, _. split; [apply eq_sym, app_comm_cons|]. by inversion Hmsgs.
  - intros Hm6%leb_excludes_ltb x. rewrite (Hnone Hm6).
    unfold message_suggestions, suggest_detail, suggest_verb, suggest_specific,
      suggest_split, suggest_fewer_files.
    destruct (_ && _), (_ && _); cbn [app]; intros Hx Hy;
      repeat (apply elem_of_cons in Hx as [->|Hx]);
      try (by inversion Hx);
      repeat (apply elem_of_cons in Hy as [Hy|Hy]);
      try discriminate; by inversion Hy.
Qed.

(** The vague sample scores 0.2 for its message and gets the three
    suggestions about the message first. *)
Lemma suggestions_follow_scores_witness :
  _score_message_quality (message Sample.vague) = Some 0.20000000000000001
  ∧ ∃ first rest,
      [suggest_detail; suggest_verb; suggest_specific; suggest_split 600;
       suggest_fewer_files 12] = first :: rest
      ∧ first ∈ message_suggestions.
Proof.
  split; [by vm_compute|].
  apply (suggestions_follow_scores (Config.defaults None) Sample.vague
           0.20000000000000001).
  - by vm_compute.
  - by vm_compute.
  - by vm_compute.
Defined.
End scoring.

(** * Size suggestions *)

Section size_suggestions.
Import QualityScorer.
Local Open Scope float_scope.
Implicit Types (cfg : Config.t) (c : commit).

Lemma size_low_above_large cfg c :
  (Config.SIZE_SMALL cfg ≤ Config.SIZE_MEDIUM cfg ≤ Config.SIZE_LARGE cfg)%Z →
  (Config.SIZE_LARGE cfg ≤ insertions c + deletions c)%Z →
  (_score_size_appropriateness cfg c <? 0.6) = true.
Proof.
  intros Hord Hlarge. unfold _score_size_appropriateness, size_tier. cbv zeta.
  destruct (Z.ltb_spec (insertions c + deletions c) (Config.SIZE_SMALL cfg));
    [lia|].
  destruct (Z.ltb_spec (insertions c + deletions c) (Config.SIZE_MEDIUM cfg));
    [lia|].
  destruct (Z.ltb_spec (insertions c + deletions c) (Config.SIZE_LARGE cfg));
    [lia|].
  by destruct (10 <? files_changed c)%Z, (20 <? files_changed c)%Z.
Qed.

Lemma split_not_other (n k : Z) :
  (suggest_split n ∉ message_suggestions)
  ∧ suggest_split n ≠ suggest_fewer_files k.
Proof.
  unfold message_suggestions, suggest_detail, suggest_verb, suggest_specific,
    suggest_split, suggest_fewer_files.
  split; [|discriminate].
  intros Hin. repeat (apply elem_of_cons in Hin as [Hin|Hin]);
    try discriminate. by inversion Hin.
Qed.

(** The size suggestion has its own threshold. With size tiers in
    ascending order, "Split into smaller commits" is suggested exactly
    when the commit changes more than [SIZE_LARGE] lines. A commit of
    exactly [SIZE_LARGE] lines gets the lowest size tier, below 0.6, and
    no size suggestion. *)
Theorem split_suggestion_threshold cfg c l :
  (Config.SIZE_SMALL cfg ≤ Config.SIZE_MEDIUM cfg ≤ Config.SIZE_LARGE cfg)%Z →
  suggestions_of cfg c = Some l →
  let total_changes := (insertions c + deletions c)%Z in
  (suggest_split total_changes ∈ l ↔ (Config.SIZE_LARGE cfg < total_changes)%Z)
  ∧ (total_changes = Config.SIZE_LARGE cfg →
       (_score_size_appropriateness cfg c <? 0.6) = true
       ∧ (suggest_split total_changes ∉ l)).
Proof.
  intros Hord Hl total_changes. unfold suggestions_of in Hl.
  destruct (_score_message_quality (message c)) as [m|]; [|done].
  change (Some ?x ≫= ?g) with (g x) in Hl. cbv beta in Hl.
  destruct (generate_suggestions_parts _ _ _ _ _ _ Hl)
    as (msgs & -> & Hmsgs & _).
  fold total_changes.
  destruct (split_not_other total_changes (files_changed c)) as [Hnm Hnf].
  assert (suggest_split total_changes ∉ msgs) as Hmsg.
  { intros Hin. rewrite Forall_forall in Hmsgs. by apply Hnm, Hmsgs. }
  assert (suggest_split total_changes
          ∈ msgs
            ++ (if (_score_size_appropriateness cfg c <? 0.6)
                   && (Config.SIZE_LARGE cfg <? total_changes)%Z
                then [suggest_split total_changes] else [])
            ++ (if (_score_focus c <? 0.6) && (10 <? files_changed c)%Z
                then [suggest_fewer_files (files_changed c)] else [])
          ↔ (Config.SIZE_LARGE cfg < total_changes)%Z) as Hiff.
  { rewrite !elem_of_app. split.
    - intros [?|[Hin|Hin]]; [done| |].
      + destruct (_ <? 0.6); simpl in Hin; [|by apply elem_of_nil in Hin].
        destruct (Z.ltb_spec (Config.SIZE_LARGE cfg) total_changes);
          [done|by apply elem_of_nil in Hin].
      + destruct ((_score_focus c <? 0.6) && (10 <? files_changed c)%Z);
          [|by apply elem_of_nil in Hin].
        apply list_elem_of_singleton in Hin. done.
    - intros Hlt. right; left.
      rewrite (size_low_above_large cfg c Hord) by (subst total_changes; lia).
      apply Z.ltb_lt in Hlt. rewrite Hlt. simpl. by apply list_elem_of_singleton. }
  split; [done|]. intros Heq. split.
  - apply size_low_above_large; [done|]. subst total_changes. lia.
  - rewrite Hiff. lia.
Qed.

(** The vague sample changes 600 lines and is told to split. *)
Lemma split_suggestion_threshold_witness :
  suggest_split 600
  ∈ [suggest_detail; suggest_verb; suggest_specific; suggest_split 600;
     suggest_fewer_files 12].
Proof.
  destruct (split_suggestion_threshold (Config.defaults None) Sample.vague
              [suggest_detail; suggest_verb; suggest_specific;
               suggest_split 600; suggest_fewer_files 12]) as [Hiff _].
  - by vm_compute.
  - by vm_compute.
  - apply Hiff. by vm_compute.
Defined.
End size_suggestions.

(** * Reads and writes of the cache *)

Section cache_frames.
Import CacheManager CacheProps.
Context `{Library}.
Implicit Types (cfg : Config.t) (self : t) (now : Z) (f : file)
  (open_ok unlink_ok : bool)
  (prompt model : string) (params : option (gmap string json))
  (max_age_hours : option Z).

(** What the [try] block may do to the counters: nothing, one miss, or
    one hit. *)
Lemma get_try_effects cfg self now open_ok f max_age_hours :
  let after := snd (get_try cfg self now open_ok f max_age_hours) in
  enabled after = enabled self ∧ cache_dir after = cache_dir self
  ∧ match fst (get_try cfg self now open_ok f max_age_hours) with
    | inr v =>
        (hits after = hits self + 1 ∧ misses after = misses self)
        ∨ (hits after = hits self ∧ misses after = misses self + 1)
    | inl e =>
        misses after = misses self
        ∧ (hits after = hits self
           ∨ (e = KeyError ∧ hits after = hits self + 1))
    end.
Proof.
  unfold get_try. destruct open_ok; simpl; [|auto].
  destruct (json_load f) as [e|cache_data]; simpl; [auto|].
  destruct cache_data as [| | | | | |d]; simpl; auto.
  destruct (d !! "timestamp"%string) as [stamp|]; simpl; [|auto].
  destruct (parse_time stamp) as [e|cached_time]; simpl; [auto|].
  destruct (Py.datetime_sub now cached_time) as [age|e]; simpl; [|auto].
  destruct (Py.timedelta_hours _) as [limit|]; simpl; [|auto].
  destruct (limit <? age); simpl; [auto|].
  destruct (d !! "response"%string); simpl; [auto|].
  repeat split; auto.
Qed.

(** An exception that the [except] clause does not handle is raised
    before any counter moves. *)
Lemma get_try_raised cfg self now open_ok f max_age_hours e after :
  get_try cfg self now open_ok f max_age_hours = (inl e, after) →
  handled e = false →
  (e = TypeError ∨ e = OverflowError ∨ e = OSError) ∧ after = self.
Proof.
  unfold get_try. destruct open_ok; cbn [negb]; [|intros [= <- <-]; auto].
  destruct f as [|j]; cbn [json_load]; [by intros [= <- <-]|].
  destruct j as [| | | | | |d]; cbn [subscript];
    try (intros [= <- <-]; auto).
  destruct (d !! "timestamp"%string) as [stamp|]; [|by intros [= <- <-]].
  destruct stamp as [| | | |s| |]; cbn [parse_time];
    try (intros [= <- <-]; auto).
  destruct (fromisoformat s) as [[t|t utcoffset]|]; cbn [Py.datetime_sub];
    [|intros [= <- <-]; auto|by intros [= <- <-]].
  destruct (Py.timedelta_hours _) as [limit|]; [|intros [= <- <-]; auto].
  destruct (limit <? now - t); [done|].
  destruct (d !! "response"%string); [done|by intros [= <- <-]].
Qed.

(** What a read may do to the manager. *)
Lemma get_effects cfg self now open_ok unlink_ok prompt model params
    max_age_hours :
  let key := _generate_cache_key prompt model params in
  let read :=
    get cfg self now open_ok unlink_ok prompt model params max_age_hours in
  enabled (snd read) = enabled self
  ∧ hits self ≤ hits (snd read) ≤ hits self + 1
  ∧ misses self ≤ misses (snd read) ≤ misses self + 1
  ∧ match fst read with
    | Return v =>
        (cache_dir (snd read) = cache_dir self
         ∨ cache_dir (snd read) = delete key (cache_dir self))
        ∧ (enabled self = true →
           hits self + misses self < hits (snd read) + misses (snd read))
    | Raise e =>
        (e = TypeError ∨ e = OverflowError ∨ e = OSError)
        ∧ cache_dir (snd read) = cache_dir self
        ∧ misses (snd read) = misses self
        ∧ (e ≠ OSError → snd read = self)
    end.
Proof.
  intros key read. subst read. unfold get.
  destruct (enabled self) eqn:He; cbn [negb]; last first.
  { simpl. rewrite He. repeat split; auto; lia. }
  fold key. destruct (cache_dir self !! key) as [f|] eqn:Hk; last first.
  { simpl. rewrite He. repeat split; auto; lia. }
  pose proof (get_try_effects cfg self now open_ok f max_age_hours) as Htry.
  pose proof (get_try_raised cfg self now open_ok f max_age_hours) as Hraised.
  destruct (get_try cfg self now open_ok f max_age_hours) as [[e|v] after];
    simpl in Htry; destruct Htry as (He' & Hd' & Hcount).
  - destruct (handled e) eqn:Hh.
    + destruct Hcount as (Hmiss & Hhits). destruct unlink_ok; simpl.
      * rewrite He', Hmiss. split; [done|].
        split; [destruct Hhits as [->|[_ ->]]; lia|]. split; [lia|].
        rewrite Hd'. split; [by right|].
        intros _. destruct Hhits as [->|[_ ->]]; lia.
      * rewrite He', Hmiss, Hd'. split; [done|].
        split; [destruct Hhits as [->|[_ ->]]; lia|]. split; [lia|].
        split; [auto|]. split; [done|]. split; [done|]. done.
    + destruct (Hraised e after eq_refl Hh) as [Hwhich ->]. simpl.
      repeat split; auto; lia.
  - simpl. rewrite He', Hd'.
    destruct Hcount as [[-> ->]|[-> ->]]; repeat split; auto; lia.
Qed.

Lemma get_dir_subseteq cfg self now open_ok unlink_ok prompt model params
    max_age_hours :
  cache_dir (snd (get cfg self now open_ok unlink_ok prompt model params
                    max_age_hours))
    ⊆ cache_dir self.
Proof.
  destruct (get_effects cfg self now open_ok unlink_ok prompt model params
              max_age_hours) as (_ & _ & _ & Hcases).
  destruct (fst (get _ _ _ _ _ _ _ _ _)).
  - destruct Hcases as [[->| ->] _]; [done|apply delete_subseteq].
  - by destruct Hcases as (_ & -> & _).
Qed.

Lemma get_keeps_enabled cfg self now open_ok unlink_ok prompt model params
    max_age_hours r after :
  get cfg self now open_ok unlink_ok prompt model params max_age_hours
    = (r, after) →
  enabled after = enabled self.
Proof.
  intros Hget.
  destruct (get_effects cfg self now open_ok unlink_ok prompt model params
              max_age_hours) as (He & _).
  by rewrite Hget in He.
Qed.

Lemma set_effects self now open_ok prompt model (response : any) params :
  let key := _generate_cache_key prompt model params in
  let after := set self now open_ok prompt model response params in
  enabled after = enabled self
  ∧ hits after = hits self
  ∧ misses after = misses self
  ∧ (∀ k, k ≠ key → cache_dir after !! k = cache_dir self !! k)
  ∧ (enabled self && open_ok = false → after = self).
Proof.
  intros key after. subst after. unfold set. fold key.
  destruct (enabled self) eqn:He, open_ok; simpl; repeat split; auto.
  - intros k Hk. by apply lookup_insert_ne.
  - done.
Qed.

(** A read never writes. Whatever is in the directory, [get] leaves the
    files of all other keys as they are and creates no file (the only
    change it makes to the directory is to delete the file of its own
    key); it keeps the [enabled] flag, and each counter stays or grows by
    one. On an enabled cache a read that returns counts at least once.
    The exceptions that escape are a [TypeError], an [OverflowError] and
    an [OSError]; a read that raises deletes nothing and counts no miss,
    and unless it is an [OSError] it leaves the manager as it was. *)
Theorem get_never_writes cfg self now open_ok unlink_ok prompt model params
    max_age_hours :
  let key := _generate_cache_key prompt model params in
  let read :=
    get cfg self now open_ok unlink_ok prompt model params max_age_hours in
  enabled (snd read) = enabled self
  ∧ cache_dir (snd read) ⊆ cache_dir self
  ∧ (∀ k, k ≠ key → cache_dir (snd read) !! k = cache_dir self !! k)
  ∧ hits self ≤ hits (snd read) ≤ hits self + 1
  ∧ misses self ≤ misses (snd read) ≤ misses self + 1
  ∧ (enabled self = true → ∀ v, fst read = Return v →
       hits self + misses self < hits (snd read) + misses (snd read))
  ∧ (∀ e, fst read = Raise e →
       (e = TypeError ∨ e = OverflowError ∨ e = OSError)
       ∧ cache_dir (snd read) = cache_dir self
       ∧ misses (snd read) = misses self
       ∧ (e ≠ OSError → snd read = self)).
Proof.
  intros key read.
  destruct (get_effects cfg self now open_ok unlink_ok prompt model params
              max_age_hours) as (He & Hh & Hm & Hcases).
  fold key in Hcases. fold read in He, Hh, Hm, Hcases.
  split; [done|]. split; [apply get_dir_subseteq|].
  split; [|split; [done|split; [done|split]]].
  - intros k Hk. destruct (fst read).
    + destruct Hcases as [[->| ->] _]; [done|by apply lookup_delete_ne].
    + by destruct Hcases as (_ & -> & _).
  - intros Hen v Hv. rewrite Hv in Hcases. by apply Hcases.
  - intros e He'. by rewrite He' in Hcases.
Qed.

Lemma set_enabled_lookup self now prompt model (response : any)
    stored_response params :
  enabled self = true →
  read_back response = Some stored_response →
  ∃ d, cache_dir (set self now true prompt model response params)
         !! _generate_cache_key prompt model params = Some (Document (JDict d))
     ∧ d !! "timestamp"%string = Some (JStr (isoformat now))
     ∧ d !! "response"%string = Some stored_response.
Proof.
  intros He Hback. unfold set. rewrite He, Hback. simpl. eexists. split.
  - apply lookup_insert_eq.
  - split; by simplify_map_eq.
Qed.

Lemma set_then_get_fresh cfg self now later unlink_ok prompt model
    (response : any) stored_response params params' max_age_hours max_age :
  enabled self = true →
  fromisoformat (isoformat now) = Some (Py.Naive now) →
  read_back response = Some stored_response →
  max_age_of cfg max_age_hours = Some max_age →
  later - now ≤ max_age →
  _generate_cache_key prompt model params'
    = _generate_cache_key prompt model params →
  get cfg (set self now true prompt model response params) later
      true unlink_ok prompt model params' max_age_hours
    = (Return stored_response,
       count_hit (set self now true prompt model response params)).
Proof.
  intros He Hiso Hback Hage Hle Hkey.
  destruct (set_enabled_lookup self now prompt model response
              stored_response params He Hback) as (d & Hk & Ht & Hr).
  destruct (set_effects self now true prompt model response params)
    as (He' & _).
  apply (get_fresh cfg _ later unlink_ok prompt model params' max_age_hours
           (Document (JDict d)) now d max_age stored_response).
  - by rewrite He'.
  - by rewrite Hkey.
  - split; [done|]. by exists (isoformat now).
  - done.
  - done.
  - done.
Qed.

(** A write touches one file and nothing else: [set] leaves the counters,
    the [enabled] flag and the files of all other keys as they are, and a
    write that cannot open its file leaves the manager as it was. The
    last write wins: after two writes under one key, a read within the
    maximum age of the second write returns what was read back from the
    second response ([timedelta] accepting the maximum age, and the file
    opening). *)
Theorem set_overwrites cfg self now now' later open_ok unlink_ok prompt model
    (response response' : any) stored_response' params max_age_hours max_age :
  enabled self = true →
  fromisoformat (isoformat now') = Some (Py.Naive now') →
  read_back response' = Some stored_response' →
  max_age_of cfg max_age_hours = Some max_age →
  later - now' ≤ max_age →
  let key := _generate_cache_key prompt model params in
  let first := set self now open_ok prompt model response params in
  let second := set first now' true prompt model response' params in
  fst (get cfg second later true unlink_ok prompt model params max_age_hours)
    = Return stored_response'
  ∧ hits second = hits self ∧ misses second = misses self
  ∧ (∀ k, k ≠ key → cache_dir second !! k = cache_dir self !! k)
  ∧ set self now false prompt model response params = self.
Proof.
  intros He Hiso Hback Hage Hle key first second.
  destruct (set_effects self now open_ok prompt model response params)
    as (He1 & Hh1 & Hm1 & Hk1 & _).
  destruct (set_effects first now' true prompt model response' params)
    as (He2 & Hh2 & Hm2 & Hk2 & _).
  fold first in He1, Hh1, Hm1, Hk1. fold second in He2, Hh2, Hm2, Hk2.
  repeat apply conj.
  - subst second.
    rewrite (set_then_get_fresh cfg first now' later unlink_ok prompt model
               response' stored_response' params params max_age_hours
               max_age); try done. congruence.
  - congruence.
  - congruence.
  - intros k Hk. rewrite Hk2, Hk1; done.
  - unfold set. by destruct (enabled self).
Qed.

(** A disabled cache is inert: a write stores nothing, and a read returns
    [None], counts neither a hit nor a miss and does not look at the
    directory, so that nothing written is ever read back. *)
Theorem disabled_cache_is_inert cfg self now later open_ok unlink_ok prompt
    model (response : any) params max_age_hours :
  enabled self = false →
  set self now true prompt model response params = self
  ∧ get cfg self later open_ok unlink_ok prompt model params max_age_hours
    = (Return JNull, self)
  ∧ get cfg (set self now true prompt model response params) later
      open_ok unlink_ok prompt model params max_age_hours
    = (Return JNull, self).
Proof.
  intros He.
  assert (set self now true prompt model response params = self) as Hset
    by (unfold set; by rewrite He).
  assert (get cfg self later open_ok unlink_ok prompt model params
            max_age_hours = (Return JNull, self)) as Hget
    by (unfold get; by rewrite He).
  by rewrite Hset.
Qed.

(** A corrupt entry costs one read: the first [get] deletes the file and
    counts a miss (the file opening and unlinking), after which the key
    is absent, a second [get] is a plain miss, and the next write is
    read back. *)
Theorem get_heals_corrupt_entry cfg self now later open_ok unlink_ok prompt
    model params max_age_hours max_age f (response : any) stored_response :
  enabled self = true →
  cache_dir self !! _generate_cache_key prompt model params = Some f →
  corrupt f →
  fromisoformat (isoformat now) = Some (Py.Naive now) →
  read_back response = Some stored_response →
  max_age_of cfg max_age_hours = Some max_age →
  later - now ≤ max_age →
  let key := _generate_cache_key prompt model params in
  let first := get cfg self now true true prompt model params max_age_hours in
  let second :=
    get cfg (snd first) now open_ok unlink_ok prompt model params
      max_age_hours in
  let stored := set (snd second) now true prompt model response params in
  fst first = Return JNull ∧ fst second = Return JNull
  ∧ cache_dir (snd second) = delete key (cache_dir self)
  ∧ misses (snd second) = misses self + 2 ∧ hits (snd second) = hits self
  ∧ fst (get cfg stored later true unlink_ok prompt model params max_age_hours)
    = Return stored_response.
Proof.
  intros He Hk Hc Hiso Hback Hage Hle key first second stored.
  assert (first = (Return JNull,
            count_miss (with_dir self (delete key (cache_dir self)))))
    as Hfirst by (by apply (get_corrupt _ _ _ true _ _ _ _ f)).
  assert (second = (Return JNull,
            count_miss (count_miss
              (with_dir self (delete key (cache_dir self))))))
    as Hsecond.
  { subst second. rewrite Hfirst. simpl. apply get_absent; [done|].
    simpl. apply lookup_delete_eq. }
  subst stored. rewrite Hfirst, Hsecond. simpl.
  repeat apply conj; try done; try lia.
  rewrite (set_then_get_fresh cfg _ now later unlink_ok prompt model response
             stored_response params params max_age_hours max_age); done.
Qed.

(** [params={}] and no [params] name the same entry: the empty
    dictionary is falsy, so it is left out of the key. A response stored
    with [params={}] is served to a read without parameters. *)
Theorem empty_params_share_key cfg self now later unlink_ok prompt model
    (response : any) stored_response max_age_hours max_age :
  enabled self = true →
  fromisoformat (isoformat now) = Some (Py.Naive now) →
  read_back response = Some stored_response →
  max_age_of cfg max_age_hours = Some max_age →
  later - now ≤ max_age →
  _generate_cache_key prompt model (Some ∅)
    = _generate_cache_key prompt model None
  ∧ fst (get cfg (set self now true prompt model response (Some ∅)) later
           true unlink_ok prompt model None max_age_hours)
    = Return stored_response.
Proof.
  intros He Hiso Hback Hage Hle.
  assert (_generate_cache_key prompt model (Some ∅)
          = _generate_cache_key prompt model None) as Hkey by done.
  split; [done|].
  rewrite (set_then_get_fresh cfg self now later unlink_ok prompt model
             response stored_response (Some ∅) None max_age_hours max_age);
    done.
Qed.


(** A response that [json.dump] cannot write costs the entry. The write
    is abandoned after [open] has truncated the file, so that the key
    holds text that is not JSON, whatever it held before; the files of
    the other keys and the counters stay as they are. The next read of
    the key counts a miss and deletes the file. *)
Theorem set_unserialisable_destroys_entry cfg self now later prompt model
    (response : any) params max_age_hours :
  enabled self = true →
  read_back response = None →
  let key := _generate_cache_key prompt model params in
  let stored := set self now true prompt model response params in
  cache_dir stored !! key = Some Malformed
  ∧ (∀ k, k ≠ key → cache_dir stored !! k = cache_dir self !! k)
  ∧ hits stored = hits self ∧ misses stored = misses self
  ∧ get cfg stored later true true prompt model params max_age_hours
    = (Return JNull,
       count_miss (with_dir stored (delete key (cache_dir stored))))
  ∧ delete key (cache_dir stored) = delete key (cache_dir self).
Proof.
  intros He Hback key stored.
  destruct (set_effects self now true prompt model response params)
    as (He' & Hh & Hm & Hk & _). fold key in Hk. fold stored in He', Hh, Hm, Hk.
  assert (cache_dir stored = <[key := Malformed]> (cache_dir self)) as Hdir.
  { subst stored. unfold set. by rewrite He, Hback. }
  assert (cache_dir stored !! key = Some Malformed) as Hlook
    by (rewrite Hdir; apply lookup_insert_eq).
  split; [done|]. split; [done|]. split; [done|]. split; [done|]. split.
  - rewrite (get_corrupt cfg stored later true prompt model params
               max_age_hours Malformed); [done|congruence|done|by left].
  - rewrite Hdir. apply delete_insert_eq.
Qed.
End cache_frames.

Section cache_clear_all.
Import CacheManager CacheProps.
Context `{Library}.
Implicit Types (cfg : Config.t) (self : t) (now : Z) (f : file)
  (unlink_ok : string → bool)
  (prompt model : string) (params : option (gmap string json))
  (max_age_hours : option Z).

Lemma filter_split_size (m : gmap string file) (p : string → bool) :
  (size (filter (λ kv : string * file, p kv.1 = true) m)
   + size (filter (λ kv : string * file, p kv.1 = false) m))%nat = size m.
Proof.
  assert (filter (λ kv : string * file, p kv.1 = false) m
          = filter (λ kv : string * file, ¬ p kv.1 = true) m) as ->.
  { apply map_filter_ext. intros k f _. simpl. by destruct (p k). }
  rewrite <- map_size_disj_union by apply map_disjoint_filter_complement.
  by rewrite map_filter_union_complement.
Qed.

Lemma clear_all_lookup self unlink_ok k :
  cache_dir (snd (clear_all self unlink_ok)) !! k
  = if unlink_ok k then None else cache_dir self !! k.
Proof.
  unfold clear_all. simpl. destruct (unlink_ok k) eqn:Hu.
  - apply map_lookup_filter_None. right. intros f _. simpl. congruence.
  - destruct (cache_dir self !! k) as [f|] eqn:Hk.
    + by apply map_lookup_filter_Some.
    + apply map_lookup_filter_None. by left.
Qed.

(** [clear_all] resets both counters and keeps the [enabled] flag. A
    file stays exactly when its [unlink] raised, and the number printed
    is the number of files that went. When every [unlink] succeeds the
    directory is empty afterwards, and on an enabled cache every read
    that follows is a miss. *)
Theorem clear_all_empties cfg self unlink_ok now prompt model params
    max_age_hours :
  let cleared := snd (clear_all self unlink_ok) in
  hits cleared = 0 ∧ misses cleared = 0 ∧ enabled cleared = enabled self
  ∧ (∀ k, cache_dir cleared !! k
          = if unlink_ok k then None else cache_dir self !! k)
  ∧ fst (clear_all self unlink_ok) + Z.of_nat (size (cache_dir cleared))
    = Z.of_nat (size (cache_dir self))
  ∧ ((∀ k, unlink_ok k = true) →
       cache_dir cleared = ∅
       ∧ (enabled self = true →
          ∀ can_open can_unlink,
            get cfg cleared now can_open can_unlink prompt model params
              max_age_hours
            = (Return JNull, count_miss cleared))).
Proof.
  intros cleared.
  split; [done|]. split; [done|]. split; [done|].
  split; [apply clear_all_lookup|]. split.
  - subst cleared. unfold clear_all. simpl.
    rewrite <- Nat2Z.inj_add. f_equal. apply filter_split_size.
  - intros Hall. split.
    + apply map_eq. intros k. subst cleared.
      by rewrite clear_all_lookup, Hall, lookup_empty.
    + intros He can_open can_unlink. apply get_absent; [done|]. subst cleared.
      by rewrite clear_all_lookup, Hall.
Qed.
End cache_clear_all.

(** * The cached call of the analyzer *)

Section analyzer.
Import CacheManager CacheProps ClaudeAnalyzer.
Context `{Library}.
Implicit Types (cfg : Config.t) (self : ClaudeAnalyzer.t)
  (c : CacheManager.t) (api : string → Z → string → option string)
  (read_ok unlink_ok open_ok : bool)
  (prompt response : string) (max_tokens : Z).

Lemma with_cache_same self (oc : option CacheManager.t) :
  cache self = oc → with_cache self oc = self.
Proof. intros <-. by destruct self. Qed.

Lemma truthy_not_null (v : json) : truthy v = true → v ≠ JNull.
Proof. by intros Hv ->. Qed.

Lemma get_truthy cfg c now read_ok unlink_ok prompt model params
    max_age_hours v c' :
  get cfg c now read_ok unlink_ok prompt model params max_age_hours
    = (Return v, c') →
  truthy v = true →
  enabled c = true ∧ c' = count_hit c.
Proof.
  intros Hget Hv. destruct (enabled c) eqn:He.
  - split; [done|].
    destruct (get_value_inv cfg c now read_ok unlink_ok prompt model params
                max_age_hours v c' He Hget (truthy_not_null v Hv))
      as (? & ? & ? & ? & _ & _ & _ & _ & _ & _ & ->).
    done.
  - unfold get in Hget. rewrite He in Hget. simpl in Hget.
    injection Hget as <- <-. done.
Qed.

Lemma call_claude_miss cfg api self c now later read_ok unlink_ok open_ok
    prompt max_tokens v0 c0 :
  cache self = Some c →
  get cfg c now read_ok unlink_ok prompt (model self) None None
    = (Return v0, c0) →
  truthy v0 = false →
  _call_claude cfg api self now later read_ok unlink_ok open_ok prompt
    max_tokens
  = call_api api (with_cache self (Some c0)) later open_ok prompt max_tokens.
Proof.
  intros Hc Hget Hv. unfold _call_claude. by rewrite Hc, Hget, Hv.
Qed.

(** Answers are memoised by prompt and model. After a call on an enabled
    cache whose lookup served nothing and whose request returned a text
    that is not empty, every call with the same prompt made within the
    maximum age returns that text from the cache: the result does not
    depend on the API any more, nor on [max_tokens], which is not part of
    the key. The configured maximum age is one that [timedelta] accepts,
    and the later calls can open the file. *)
Theorem call_claude_memoises cfg api self c now later read_ok unlink_ok
    prompt max_tokens response v0 c0 max_age :
  cache self = Some c → enabled c = true →
  get cfg c now read_ok unlink_ok prompt (model self) None None
    = (Return v0, c0) →
  truthy v0 = false →
  api (model self) max_tokens prompt = Some response →
  response ≠ EmptyString →
  fromisoformat (isoformat later) = Some (Py.Naive later) →
  max_age_of cfg None = Some max_age →
  let first :=
    _call_claude cfg api self now later read_ok unlink_ok true prompt
      max_tokens in
  fst first = Returned (JStr response)
  ∧ ∀ api' now' later' unlink_ok' open_ok' max_tokens',
      now' - later ≤ max_age →
      fst (_call_claude cfg api' (snd first) now' later' true unlink_ok'
             open_ok' prompt max_tokens')
      = Returned (JStr response).
Proof.
  intros Hc He Hget Hv Hapi Hne Hiso Hage first.
  assert (enabled c0 = true) as He0
    by (rewrite <- He; by eapply get_keeps_enabled).
  assert (first = (Returned (JStr response),
            with_cache self (Some (set c0 later true prompt (model self)
                                     (Shaped (JStr response)) None)))) as ->.
  { subst first.
    rewrite (call_claude_miss _ _ _ c _ _ _ _ _ _ _ v0 c0) by done.
    unfold call_api. simpl. by rewrite Hapi. }
  split; [done|]. intros api' now' later' unlink_ok' open_ok' max_tokens' Hle.
  unfold _call_claude. simpl.
  rewrite (set_then_get_fresh cfg c0 later now' unlink_ok' prompt (model self)
             (Shaped (JStr response)) (JStr response) None None None max_age)
    by done.
  simpl. destruct response; [done|]. done.
Qed.

(** An empty answer is stored but never served. When the request
    returned the empty text, the next call with the same prompt finds the
    entry, counts a hit, and still goes to the API, because the empty
    text is falsy. *)
Theorem call_claude_empty_answer cfg api api' self c now later now' later'
    read_ok unlink_ok unlink_ok' open_ok' prompt max_tokens max_tokens'
    v0 c0 max_age :
  cache self = Some c → enabled c = true →
  get cfg c now read_ok unlink_ok prompt (model self) None None
    = (Return v0, c0) →
  truthy v0 = false →
  api (model self) max_tokens prompt = Some EmptyString →
  fromisoformat (isoformat later) = Some (Py.Naive later) →
  max_age_of cfg None = Some max_age →
  now' - later ≤ max_age →
  let first :=
    _call_claude cfg api self now later read_ok unlink_ok true prompt
      max_tokens in
  let second :=
    _call_claude cfg api' (snd first) now' later' true unlink_ok' open_ok'
      prompt max_tokens' in
  fst first = Returned (JStr "")
  ∧ fst second
    = match api' (model self) max_tokens' prompt with
      | Some response' => Returned (JStr response')
      | None => ClaudeAPIError
      end
  ∧ ∃ c1 c2, cache (snd first) = Some c1 ∧ cache (snd second) = Some c2
      ∧ is_Some (cache_dir c1 !! _generate_cache_key prompt (model self) None)
      ∧ hits c2 = hits c1 + 1 ∧ misses c2 = misses c1.
Proof.
  intros Hc He Hget Hv Hapi Hiso Hage Hle first second.
  assert (enabled c0 = true) as He0
    by (rewrite <- He; by eapply get_keeps_enabled).
  set (c1 := set c0 later true prompt (model self) (Shaped (JStr "")) None).
  assert (first = (Returned (JStr ""), with_cache self (Some c1))) as Hfirst.
  { subst first.
    rewrite (call_claude_miss _ _ _ c _ _ _ _ _ _ _ v0 c0) by done.
    unfold call_api. simpl. by rewrite Hapi. }
  subst second. rewrite Hfirst. simpl.
  split; [done|].
  unfold _call_claude. simpl. subst c1.
  rewrite (set_then_get_fresh cfg c0 later now' unlink_ok' prompt (model self)
             (Shaped (JStr "")) (JStr "") None None None max_age) by done.
  simpl. unfold call_api. simpl.
  destruct (set_enabled_lookup c0 later prompt (model self)
              (Shaped (JStr "")) (JStr "") None He0 eq_refl) as (d & Hk & _).
  destruct (api' (model self) max_tokens' prompt) as [response'|]; simpl.
  - split; [done|]. eexists _, _. split; [done|]. split; [done|].
    split; [by rewrite Hk|].
    destruct (set_effects (count_hit (set c0 later true prompt (model self)
                (Shaped (JStr "")) None)) later' open_ok' prompt (model self)
                (Shaped (JStr response')) None) as (_ & -> & -> & _). done.
  - split; [done|]. eexists _, _. split; [done|]. split; [done|].
    split; [by rewrite Hk|]. done.
Qed.

(** A failed request stores nothing. When the API raises for a prompt,
    the call returns a truthy value found in the cache, or lets an
    exception of the cache lookup through (a [TypeError], an
    [OverflowError] or an [OSError], the lookup being outside the [try]),
    or raises the API error; in no case does a file appear in the cache
    directory. *)
Theorem call_claude_failure cfg api self now later read_ok unlink_ok open_ok
    prompt max_tokens :
  api (model self) max_tokens prompt = None →
  let call :=
    _call_claude cfg api self now later read_ok unlink_ok open_ok prompt
      max_tokens in
  model (snd call) = model self
  ∧ match cache self with
    | None => call = (ClaudeAPIError, self)
    | Some c =>
        ∃ c', cache (snd call) = Some c' ∧ cache_dir c' ⊆ cache_dir c
          ∧ (fst call = ClaudeAPIError
             ∨ (∃ e, fst call = CacheError e
                  ∧ (e = TypeError ∨ e = OverflowError ∨ e = OSError)
                  ∧ cache_dir c' = cache_dir c)
             ∨ ∃ v, fst call = Returned v ∧ truthy v = true
                 ∧ hits c' = hits c + 1)
    end.
Proof.
  intros Hapi call. subst call. unfold _call_claude.
  destruct (cache self) as [c|] eqn:Hc.
  - pose proof (get_dir_subseteq cfg c now read_ok unlink_ok prompt
                  (model self) None None) as Hsub.
    pose proof (get_effects cfg c now read_ok unlink_ok prompt
                  (model self) None None) as (_ & _ & _ & Hcases).
    destruct (get cfg c now read_ok unlink_ok prompt (model self) None None)
      as [[v|e] c'] eqn:Hget.
    + destruct (truthy v) eqn:Hv; simpl.
      * split; [done|]. exists c'. split; [done|]. split; [apply Hsub|].
        right; right. exists v. split; [done|]. split; [done|].
        by destruct (get_truthy _ _ _ _ _ _ _ _ _ _ _ Hget Hv) as [_ ->].
      * unfold call_api. simpl. rewrite Hapi. simpl.
        split; [done|]. exists c'. split; [done|]. split; [apply Hsub|].
        by left.
    + simpl. split; [done|]. exists c'. split; [done|]. split; [apply Hsub|].
      right; left. exists e. simpl in Hcases.
      destruct Hcases as (Hwhich & Hdir & _). done.
  - unfold call_api. by rewrite Hapi.
Qed.

(** Without a cache, or with a disabled one, every call goes to the API
    and leaves the analyzer as it was. *)
Theorem call_claude_without_cache cfg api self now later read_ok unlink_ok
    open_ok prompt max_tokens :
  (cache self = None ∨ ∃ c, cache self = Some c ∧ enabled c = false) →
  _call_claude cfg api self now later read_ok unlink_ok open_ok prompt
    max_tokens
  = (match api (model self) max_tokens prompt with
     | Some response => Returned (JStr response)
     | None => ClaudeAPIError
     end, self).
Proof.
  intros [Hc|(c & Hc & He)]; unfold _call_claude; rewrite Hc.
  - unfold call_api. rewrite Hc.
    destruct (api _ _ _); [|done]. by rewrite with_cache_same.
  - unfold get. rewrite He. cbn [negb].
    rewrite (with_cache_same self (Some c) Hc). unfold call_api. rewrite Hc.
    destruct (api _ _ _); [|done].
    unfold set. rewrite He. cbn [negb]. by rewrite with_cache_same.
Qed.
End analyzer.

Section cache_frame_samples.
Import CacheManager CacheProps ClaudeAnalyzer.
#[local] Existing Instance SampleCache.library.

(** Two writes at midnight and at one o'clock, read at two: the second
    response comes back. *)
Lemma set_overwrites_witness :
  fst (get (Config.defaults None)
         (set (set SampleCache.empty 0 true "p" "m" (Shaped (JStr "one")) None)
            SampleCache.hour true "p" "m" (Shaped (JStr "two")) None)
         (2 * SampleCache.hour) true true "p" "m" None None)
  = Return (JStr "two").
Proof.
  destruct (set_overwrites (Config.defaults None) SampleCache.empty 0
              SampleCache.hour (2 * SampleCache.hour) true true "p" "m"
              (Shaped (JStr "one")) (Shaped (JStr "two")) (JStr "two")
              None None (24 * SampleCache.hour)) as [Hget _].
  - reflexivity.
  - by vm_compute.
  - reflexivity.
  - by vm_compute.
  - by vm_compute.
  - exact Hget.
Defined.

(** The disabled sample does not serve the entry its directory holds. *)
Lemma disabled_cache_is_inert_witness :
  get (Config.defaults None) SampleCache.disabled SampleCache.hour
      true true "p" "m" None None
  = (Return JNull, SampleCache.disabled).
Proof.
  destruct (disabled_cache_is_inert (Config.defaults None)
              SampleCache.disabled 0 SampleCache.hour true true "p" "m"
              (Shaped (JStr "new")) None None) as (_ & Hget & _).
  - reflexivity.
  - exact Hget.
Defined.

(** The broken sample: two reads, two misses, the file is gone. *)
Lemma get_heals_corrupt_entry_witness :
  let first := get (Config.defaults None) SampleCache.broken 0 true true
                 "p" "m" None None in
  let second := get (Config.defaults None) (snd first) 0 true true
                  "p" "m" None None in
  cache_dir (snd second) = delete "m:p"%string (cache_dir SampleCache.broken)
  ∧ misses (snd second) = 2.
Proof.
  destruct (get_heals_corrupt_entry (Config.defaults None) SampleCache.broken
              0 SampleCache.hour true true "p" "m" None None
              (24 * SampleCache.hour) Malformed (Shaped (JStr "new"))
              (JStr "new"))
    as (_ & _ & Hdir & Hmiss & _).
  - reflexivity.
  - by vm_compute.
  - by left.
  - by vm_compute.
  - reflexivity.
  - by vm_compute.
  - by vm_compute.
  - split; [exact Hdir|exact Hmiss].
Defined.

(** A response stored with [params={}] is read without parameters. *)
Lemma empty_params_share_key_witness :
  fst (get (Config.defaults None)
         (set SampleCache.empty 0 true "p" "m" (Shaped (JStr "answer"))
            (Some ∅))
         SampleCache.hour true true "p" "m" None None)
  = Return (JStr "answer").
Proof.
  destruct (empty_params_share_key (Config.defaults None) SampleCache.empty
              0 SampleCache.hour true "p" "m" (Shaped (JStr "answer"))
              (JStr "answer") None (24 * SampleCache.hour)) as [_ Hget].
  - reflexivity.
  - by vm_compute.
  - reflexivity.
  - by vm_compute.
  - by vm_compute.
  - exact Hget.
Defined.

(** An object that cannot be written, stored over the sample entry:
    the answer is gone. *)
Lemma set_unserialisable_destroys_entry_witness :
  let stored := set SampleCache.one_entry SampleCache.hour true "p" "m"
                  (@Foreign SampleCache.library SampleCache.Unserialisable) None in
  cache_dir stored !! "m:p"%string = Some Malformed
  ∧ fst (get (Config.defaults None) stored SampleCache.hour true true
           "p" "m" None None) = Return JNull.
Proof.
  destruct (set_unserialisable_destroys_entry (H:=SampleCache.library)
              (Config.defaults None) SampleCache.one_entry SampleCache.hour SampleCache.hour
              "p" "m" (@Foreign SampleCache.library SampleCache.Unserialisable) None None)
    as (Hlook & _ & _ & _ & Hget & _).
  - reflexivity.
  - reflexivity.
  - split; [exact Hlook|]. by rewrite Hget.
Defined.

(** After one answered call the failing API is not asked again. *)
Lemma call_claude_memoises_witness :
  let first := _call_claude (Config.defaults None)
                 (SampleAnalyzer.answers "answer") SampleAnalyzer.analyzer
                 0 0 true true true "p" 2000 in
  fst first = Returned (JStr "answer")
  ∧ fst (_call_claude (Config.defaults None) SampleAnalyzer.fails (snd first)
           SampleCache.hour SampleCache.hour true true true "p" 100)
    = Returned (JStr "answer").
Proof.
  destruct (call_claude_memoises (Config.defaults None)
              (SampleAnalyzer.answers "answer") SampleAnalyzer.analyzer
              SampleCache.empty 0 0 true true "p" 2000 "answer" JNull
              (count_miss SampleCache.empty) (24 * SampleCache.hour))
    as [Hfirst Hnext].
  - reflexivity.
  - reflexivity.
  - by vm_compute.
  - reflexivity.
  - reflexivity.
  - discriminate.
  - by vm_compute.
  - by vm_compute.
  - split; [exact Hfirst|].
    apply (Hnext SampleAnalyzer.fails SampleCache.hour SampleCache.hour true
             true 100).
    by vm_compute.
Defined.

(** After an empty answer the next call asks the API again. *)
Lemma call_claude_empty_answer_witness :
  let first := _call_claude (Config.defaults None)
                 (SampleAnalyzer.answers "") SampleAnalyzer.analyzer
                 0 0 true true true "p" 2000 in
  fst (_call_claude (Config.defaults None) (SampleAnalyzer.answers "second")
         (snd first) SampleCache.hour SampleCache.hour true true true "p" 2000)
  = Returned (JStr "second").
Proof.
  destruct (call_claude_empty_answer (Config.defaults None)
              (SampleAnalyzer.answers "") (SampleAnalyzer.answers "second")
              SampleAnalyzer.analyzer SampleCache.empty 0 0
              SampleCache.hour SampleCache.hour true true true true "p"
              2000 2000 JNull (count_miss SampleCache.empty)
              (24 * SampleCache.hour)) as (_ & Hsecond & _).
  - reflexivity.
  - reflexivity.
  - by vm_compute.
  - reflexivity.
  - reflexivity.
  - by vm_compute.
  - by vm_compute.
  - by vm_compute.
  - exact Hsecond.
Defined.

(** A failing API on the empty cache: the error, and no file. *)
Lemma call_claude_failure_witness :
  let call := _call_claude (Config.defaults None) SampleAnalyzer.fails
                SampleAnalyzer.analyzer 0 0 true true true "p" 2000 in
  model (snd call) = "m"%string
  ∧ ∃ c', cache (snd call) = Some c'
      ∧ cache_dir c' ⊆ cache_dir SampleCache.empty
      ∧ (fst call = ClaudeAPIError
         ∨ (∃ e, fst call = CacheError e
              ∧ (e = TypeError ∨ e = OverflowError ∨ e = OSError)
              ∧ cache_dir c' = cache_dir SampleCache.empty)
         ∨ ∃ v, fst call = Returned v ∧ truthy v = true
             ∧ hits c' = hits SampleCache.empty + 1).
Proof.
  apply (call_claude_failure (Config.defaults None) SampleAnalyzer.fails
           SampleAnalyzer.analyzer 0 0 true true true "p" 2000).
  reflexivity.
Defined.

(** The disabled sample asks the API. *)
Lemma call_claude_without_cache_witness :
  _call_claude (Config.defaults None) (SampleAnalyzer.answers "answer")
    SampleAnalyzer.uncached 0 0 true true true "p" 2000
  = (Returned (JStr "answer"), SampleAnalyzer.uncached).
Proof.
  apply (call_claude_without_cache (Config.defaults None)
           (SampleAnalyzer.answers "answer") SampleAnalyzer.uncached
           0 0 true true true "p" 2000).
  right. exists SampleCache.disabled. split; reflexivity.
Defined.
End cache_frame_samples.

(** * Clearing old files *)

Section cache_clearing.
Import CacheManager CacheProps.
Implicit Types (cfg : Config.t) (self : t) (now : Z)
  (mtime : string → option Z) (unlink_ok : string → bool)
  (max_age_days : option Z).

Lemma kept_lookup (m : gmap string file) (p : string → bool) k :
  filter (λ kv : string * file, p kv.1 = false) m !! k
  = if p k then None else m !! k.
Proof.
  destruct (p k) eqn:Hp.
  - apply map_lookup_filter_None. right. intros f _. simpl. congruence.
  - destruct (m !! k) as [f|] eqn:Hk.
    + by apply map_lookup_filter_Some.
    + apply map_lookup_filter_None. by left.
Qed.

(** [clear] removes only old files. It fails with an [OverflowError]
    exactly when the number of days is beyond what [timedelta] accepts or
    the cutoff is not a [datetime]. Otherwise it leaves the counters and
    the [enabled] flag alone, creates no file, keeps every file modified
    at or after the cutoff and every file whose time cannot be read, and
    the number it reports is the number of files that went. A
    [max_age_days] of 0 stands for the configured default. *)
Theorem clear_removes_only_old cfg self now mtime unlink_ok max_age_days :
  let max_age := Py.int_or max_age_days (Config.CACHE_MAX_AGE_DAYS cfg) in
  let cutoff := now - Py.timedelta_days max_age in
  match clear cfg self now mtime unlink_ok max_age_days with
  | None =>
      ¬ (Z.abs max_age ≤ Py.timedelta_max_days
         ∧ Py.datetime_min ≤ cutoff ≤ Py.datetime_max)
  | Some (removed_count, after) =>
      Z.abs max_age ≤ Py.timedelta_max_days
      ∧ Py.datetime_min ≤ cutoff ≤ Py.datetime_max
      ∧ hits after = hits self ∧ misses after = misses self
      ∧ enabled after = enabled self
      ∧ cache_dir after ⊆ cache_dir self
      ∧ (∀ k f, cache_dir self !! k = Some f →
           cache_dir after !! k = None →
           ∃ file_time, mtime k = Some file_time ∧ file_time < cutoff
             ∧ unlink_ok k = true)
      ∧ (∀ k file_time, mtime k = Some file_time → file_time < cutoff →
           unlink_ok k = true → cache_dir after !! k = None)
      ∧ removed_count + Z.of_nat (size (cache_dir after))
        = Z.of_nat (size (cache_dir self))
  end
  ∧ clear cfg self now mtime unlink_ok (Some 0)
    = clear cfg self now mtime unlink_ok None.
Proof.
  intros max_age cutoff. split; [|done].
  unfold clear. fold max_age. cbv zeta. fold cutoff.
  destruct (Z.leb_spec (Z.abs max_age) Py.timedelta_max_days) as [Hd|Hd];
    cbn [negb]; [|lia].
  destruct (Z.leb_spec Py.datetime_min cutoff) as [Hlo|Hlo]; cbn [negb andb];
    [|lia].
  destruct (Z.leb_spec cutoff Py.datetime_max) as [Hhi|Hhi]; cbn [negb];
    [|lia].
  set (unlinked := λ name : string,
         match mtime name with
         | Some file_time => (file_time <? cutoff) && unlink_ok name
         | None => false
         end).
  cbn [with_dir hits misses enabled cache_dir].
  assert (∀ k, filter (λ kv : string * file, unlinked kv.1 = false)
                 (cache_dir self) !! k
               = if unlinked k then None else cache_dir self !! k) as Hlook
    by (intros k; apply kept_lookup).
  split; [done|]. split; [done|]. split; [done|]. split; [done|].
  split; [done|]. split; [apply map_filter_subseteq|]. split; [|split].
  - intros k f Hk. rewrite Hlook. subst unlinked. cbv beta.
    destruct (mtime k) as [file_time|]; [|congruence].
    destruct (Z.ltb_spec file_time cutoff); cbn [andb]; [|congruence].
    destruct (unlink_ok k); [|congruence]. intros _. by exists file_time.
  - intros k file_time Hm Hlt Hu. rewrite Hlook. subst unlinked. cbv beta.
    rewrite Hm, Hu. apply Z.ltb_lt in Hlt. by rewrite Hlt.
  - rewrite <- Nat2Z.inj_add. f_equal.
    apply (filter_split_size (cache_dir self) unlinked).
Qed.
End cache_clearing.

(** * Author statistics *)

Section grouping.
Import GitParser.
Context {K V : Type} `{EqDecision K}.
Implicit Types (k : K) (v : V) (d : list (K * list V)).

Lemma append_to_keys k v d :
  (append_to k v d).*1 = if decide (k ∈ d.*1) then d.*1 else d.*1 ++ [k].
Proof.
  induction d as [|[k' vs] d IH]; [done|].
  cbn [append_to]. destruct (decide (k = k')) as [->|Hne]; rewrite !fmap_cons.
  - by rewrite decide_True by left.
  - rewrite IH. cbn [fst]. repeat case_decide; set_solver.
Qed.

Lemma group_of_append_to k k' v d :
  group_of k' (append_to k v d)
  = if decide (k' = k) then group_of k' d ++ [v] else group_of k' d.
Proof.
  induction d as [|[k0 vs] d IH]; simpl.
  - by repeat case_decide.
  - repeat (case_decide; simplify_eq/=); try done.
    all: rewrite IH; by repeat case_decide.
Qed.

Lemma group_of_elem_of k (l : list V) d :
  NoDup d.*1 → (k, l) ∈ d → group_of k d = l.
Proof.
  induction d as [|[k0 v0] d IH]; simpl; intros Hnd Hin; [by inversion Hin|].
  apply NoDup_cons in Hnd as [Hk0 Hnd].
  apply elem_of_cons in Hin as [?|Hin]; simplify_eq.
  - by rewrite decide_True.
  - rewrite decide_False; [by apply IH|].
    intros ->. apply Hk0. apply list_elem_of_fmap. by exists (k0, l).
Qed.

Lemma append_to_sizes k v d :
  sum_list (length ∘ snd <$> append_to k v d)
  = S (sum_list (length ∘ snd <$> d)).
Proof.
  induction d as [|[k' vs] d IH]; [done|].
  cbn [append_to]. case_decide; rewrite !fmap_cons; cbn [sum_list compose snd].
  - rewrite length_app. simpl. lia.
  - rewrite IH. lia.
Qed.
End grouping.

Section authors.
Import GitParser.
Implicit Types (commits : list authored) (a : string).

Lemma grouped_keys commits (d0 : list (string * list authored)) :
  (foldl (λ d c, append_to (author c) c d) d0 commits).*1
  = foldl (λ seen k, if decide (k ∈ seen) then seen else seen ++ [k])
      d0.*1 (author <$> commits).
Proof.
  revert d0. induction commits as [|c l IH]; intros d0; simpl; [done|].
  by rewrite IH, append_to_keys.
Qed.

Lemma grouped_commits commits a :
  group_of a (foldl (λ d c, append_to (author c) c d) [] commits)
  = commits_of a commits.
Proof.
  unfold commits_of.
  induction commits as [|c l IH] using rev_ind; [done|].
  rewrite foldl_snoc, group_of_append_to, IH, filter_app.
  rewrite filter_cons, filter_nil.
  destruct (decide (a = author c)) as [->|Hne].
  - by rewrite decide_True.
  - rewrite decide_False by done. by rewrite app_nil_r.
Qed.

Lemma grouped_sizes commits :
  sum_list (length ∘ snd
              <$> foldl (λ d c, append_to (author c) c d) [] commits)
  = length commits.
Proof.
  induction commits as [|c l IH] using rev_ind; [done|].
  rewrite foldl_snoc, append_to_sizes, IH, length_app. simpl. lia.
Qed.

Lemma sum_field_total (field : commit → Z) commits :
  sum_field field commits = total_of field commits.
Proof.
  unfold sum_field, total_of.
  assert (∀ acc, foldl (λ acc c, acc + field (written c)) acc commits
                 = acc + foldr (λ c acc, field (written c) + acc) 0 commits)
    as Hacc.
  { induction commits as [|c l IH]; intros acc; simpl; [lia|].
    rewrite IH. lia. }
  by rewrite Hacc.
Qed.

(** [get_author_stats] has one entry per author, in the order of the
    authors' first commits. The entry of an author counts the commits of
    that author, at least one, and sums their changed files, insertions
    and deletions; the commit counts of all entries add up to the number
    of commits. *)
Theorem get_author_stats_per_author commits :
  let stats := get_author_stats commits in
  stats.*1 = first_seen (author <$> commits)
  ∧ NoDup stats.*1
  ∧ (∀ a st, (a, st) ∈ stats →
       let own := commits_of a commits in
       a ∈ author <$> commits
       ∧ AuthorStats.commits st = length own
       ∧ (1 ≤ AuthorStats.commits st)%nat
       ∧ AuthorStats.files_changed st = total_of files_changed own
       ∧ AuthorStats.insertions st = total_of insertions own
       ∧ AuthorStats.deletions st = total_of deletions own)
  ∧ sum_list (AuthorStats.commits ∘ snd <$> stats) = length commits.
Proof.
  intros stats. subst stats. unfold get_author_stats.
  set (author_commits := foldl (λ d c, append_to (author c) c d) [] commits).
  assert (author_commits.*1 = first_seen (author <$> commits)) as Hkeys
    by apply (grouped_keys commits []).
  assert (∀ (d : list (string * list authored)),
    ((λ '(author, author_commit_list),
       (author,
        {| AuthorStats.commits := length author_commit_list;
           AuthorStats.files_changed :=
             sum_field files_changed author_commit_list;
           AuthorStats.insertions := sum_field insertions author_commit_list;
           AuthorStats.deletions := sum_field deletions author_commit_list |}))
     <$> d).*1 = d.*1) as Hfst.
  { intros d. rewrite <- list_fmap_compose. apply list_fmap_ext.
    by intros ? [? ?]. }
  split; [by rewrite Hfst|]. split.
  { rewrite Hfst, Hkeys. apply first_seen_NoDup. }
  split.
  - intros a st Hin.
    apply list_elem_of_fmap in Hin as ([a' l] & [= -> ->] & Hin).
    set (own := commits_of a' commits).
    assert (l = own) as ->.
    { subst own. rewrite <- (grouped_commits commits a'). symmetry.
      apply group_of_elem_of; [|done].
      fold author_commits. rewrite Hkeys. apply first_seen_NoDup. }
    assert (a' ∈ author <$> commits) as Ha.
    { apply first_seen_elem_of. rewrite <- Hkeys.
      apply list_elem_of_fmap. by exists (a', own). }
    cbn [AuthorStats.commits AuthorStats.files_changed AuthorStats.insertions
         AuthorStats.deletions].
    rewrite !sum_field_total. repeat split; try done.
    apply list_elem_of_fmap in Ha as (c & Hc & Hin_c).
    assert (c ∈ own) as Hown.
    { subst own. unfold commits_of. apply list_elem_of_filter. by split. }
    destruct own; [by inversion Hown|simpl; lia].
  - rewrite <- list_fmap_compose. rewrite <- (grouped_sizes commits).
    fold author_commits. f_equal. apply list_fmap_ext. by intros ? [? ?].
Qed.
End authors.
